(** * UnifiedStay: calendar reconciliation core

    A shallow embedding of the calendar core of the UnifiedStay API
    (apps/api): the conflict detector and manual reservation creation of
    [calendar.service.ts], the iCal reconciler of [ical.adapter.ts] and the
    batch scheduler of [services/sync-scheduler.ts], followed by the
    properties proved about them.

    Conventions.
    - A JavaScript [Date] is the integer of its [getTime()] (milliseconds
      since the epoch), a [Z].
    - Strings are [string]; [x || 'lit'] on a string is [or_default].
    - A database table is the list of its rows in insertion order;
      [findFirst] returns the first row matching the [where] clause.
    - Code that can throw returns a [result]. *)

From Stdlib Require Import ZArith List String Bool Lia Permutation Arith.
From Stdlib Require Import DecimalString Sorted.
Import ListNotations.
Open Scope string_scope.
Open Scope Z_scope.
Open Scope list_scope.

(** ** Shared types ([packages/shared]) *)

Inductive BlockType := booked | blocked | maintenance | hold.

Inductive ReservationStatus := confirmed | pending | cancelled | completed.


Definition Date := Z.

(** [CalendarEvent], the projection of reservations and blocks shown on the
    unified calendar. *)
Module CalendarEvent.
Record t := mk {
  id : string;
  unitId : string;
  propertyId : string;
  type : BlockType;
  channel : option string;
  guestName : option string;
  checkIn : Date;
  checkOut : Date;
  externalId : option string;
  hasConflict : bool
}.
End CalendarEvent.

Module ConflictInfo.
Record t := mk {
  eventA : CalendarEvent.t;
  eventB : CalendarEvent.t;
  overlapStart : Date;
  overlapEnd : Date
}.
End ConflictInfo.


(** ** The persistence store ([@unifiedstay/database]) and the runtime *)

(** The rows of the tables the calendar core touches.  Row ids that the store
    generates are drawn from a counter of the store. *)

Module Reservation.
Record t := mk {
  id : nat;
  unitId : string;
  channel : string;
  guestName : string;
  checkIn : Date;
  checkOut : Date;
  status : ReservationStatus;
  externalId : option string;
  totalAmount : option Z
}.
End Reservation.

Module AvailabilityBlock.
Record t := mk {
  id : nat;
  unitId : string;
  type : BlockType;
  startDate : Date;
  endDate : Date;
  notes : option string
}.
End AvailabilityBlock.

Module SyncLog.
Inductive Status := success | failed.
Record t := mk {
  channelMappingId : string;
  status : Status;
  eventsFound : option nat;
  eventsCreated : option nat;
  eventsUpdated : option nat;
  error : option string;
  completedAt : Date
}.
End SyncLog.

Module Property.
Record t := mk { id : string; userId : string; name : string }.
End Property.

Module Unit.
Record t := mk { id : string; propertyId : string }.
End Unit.

Module ChannelMapping.
Record t := mk {
  id : string;
  propertyId : string;
  channel : string;
  iCalUrl : option string;
  lastSyncAt : option Date;
  lastSyncError : option string
}.
End ChannelMapping.

(** A thrown value: an [Error] with its message, or any other value. *)
Inductive exn := JsError (message : string) | JsValue.

(** [error instanceof Error ? error.message : 'Unknown error'] *)
Definition errorMessage (e : exn) : string :=
  match e with
  | JsError m => m
  | JsValue => "Unknown error"
  end.

(** [s || d] on a string: the empty string is falsy. *)
Definition or_default (s d : string) : string :=
  if String.eqb s "" then d else s.

(** [o || d] on a string that may be null or undefined. *)
Definition or_else (o : option string) (d : string) : string :=
  match o with
  | Some s => or_default s d
  | None => d
  end.

(** [o || null] *)
Definition or_null (o : option string) : option string :=
  match o with
  | Some s => if String.eqb s "" then None else Some s
  | None => None
  end.

(** [!o] on a string that may be null or undefined. *)
Definition falsy (o : option string) : bool :=
  match or_null o with
  | Some _ => false
  | None => true
  end.

Definition string_of_Z (z : Z) : string :=
  NilZero.string_of_int (Z.to_int z).

(** The result of one run of the batch scheduler for one channel. *)
Module SyncResult.
Record t := mk {
  channelId : string;
  propertyName : string;
  channel : string;
  success : bool;
  eventsAdded : nat;
  eventsUpdated : nat;
  error : option string
}.
End SyncResult.

(** The fields of the [SyncScheduler] singleton. *)
Module Scheduler.
Record t := mk {
  task : bool;
  isRunning : bool;
  lastRunAt : option Date;
  lastResults : list SyncResult.t
}.
End Scheduler.

(** What the code reads and writes: the tables, the counters of generated
    ids, the trace of the HTTP requests issued, the scheduler singleton, and
    the schedule of store faults.  The head of [faults] decides the next
    store operation: [Some e] makes it throw [e], [None] lets it through; an
    empty schedule lets every operation through. *)
Module World.
Record t := mk {
  reservations : list Reservation.t;
  availabilityBlocks : list AvailabilityBlock.t;
  syncLogs : list SyncLog.t;
  properties : list Property.t;
  units : list Unit.t;
  channelMappings : list ChannelMapping.t;
  nextId : nat;
  uuids : nat;
  requests : list string;
  scheduler : Scheduler.t;
  faults : list (option exn)
}.

Definition set_reservations (x : list Reservation.t) (w : t) : t :=
  mk x (availabilityBlocks w) (syncLogs w) (properties w) (units w)
     (channelMappings w) (nextId w) (uuids w) (requests w) (scheduler w)
     (faults w).
Definition set_availabilityBlocks (x : list AvailabilityBlock.t) (w : t) : t :=
  mk (reservations w) x (syncLogs w) (properties w) (units w)
     (channelMappings w) (nextId w) (uuids w) (requests w) (scheduler w)
     (faults w).
Definition set_syncLogs (x : list SyncLog.t) (w : t) : t :=
  mk (reservations w) (availabilityBlocks w) x (properties w) (units w)
     (channelMappings w) (nextId w) (uuids w) (requests w) (scheduler w)
     (faults w).
Definition set_channelMappings (x : list ChannelMapping.t) (w : t) : t :=
  mk (reservations w) (availabilityBlocks w) (syncLogs w) (properties w)
     (units w) x (nextId w) (uuids w) (requests w) (scheduler w) (faults w).
Definition set_nextId (x : nat) (w : t) : t :=
  mk (reservations w) (availabilityBlocks w) (syncLogs w) (properties w)
     (units w) (channelMappings w) x (uuids w) (requests w) (scheduler w)
     (faults w).
Definition set_uuids (x : nat) (w : t) : t :=
  mk (reservations w) (availabilityBlocks w) (syncLogs w) (properties w)
     (units w) (channelMappings w) (nextId w) x (requests w) (scheduler w)
     (faults w).
Definition set_requests (x : list string) (w : t) : t :=
  mk (reservations w) (availabilityBlocks w) (syncLogs w) (properties w)
     (units w) (channelMappings w) (nextId w) (uuids w) x (scheduler w)
     (faults w).
Definition set_scheduler (x : Scheduler.t) (w : t) : t :=
  mk (reservations w) (availabilityBlocks w) (syncLogs w) (properties w)
     (units w) (channelMappings w) (nextId w) (uuids w) (requests w) x
     (faults w).
Definition set_faults (x : list (option exn)) (w : t) : t :=
  mk (reservations w) (availabilityBlocks w) (syncLogs w) (properties w)
     (units w) (channelMappings w) (nextId w) (uuids w) (requests w)
     (scheduler w) x.
End World.

(** *** Computations: state and exceptions *)

Inductive Outcome (A : Type) : Type :=
| Ok (a : A) (w : World.t)
| Throw (e : exn) (w : World.t).
Arguments Ok {A} a w.
Arguments Throw {A} e w.

Definition M (A : Type) : Type := World.t -> Outcome A.

Definition ret {A} (a : A) : M A := fun w => Ok a w.

Definition throw {A} (e : exn) : M A := fun w => Throw e w.

Definition bind {A B} (m : M A) (k : A -> M B) : M B :=
  fun w =>
    match m w with
    | Ok a w' => k a w'
    | Throw e w' => Throw e w'
    end.

(** [try { m } catch (e) { h e }] *)
Definition try_catch {A} (m : M A) (h : exn -> M A) : M A :=
  fun w =>
    match m w with
    | Ok a w' => Ok a w'
    | Throw e w' => h e w'
    end.

Declare Scope comp_scope.
Delimit Scope comp_scope with comp.
Notation "x <- m ;; k" := (bind m (fun x => k))
  (at level 61, m at next level, right associativity) : comp_scope.
Notation "m ;;; k" := (bind m (fun _ => k))
  (at level 61, right associativity) : comp_scope.
Open Scope comp_scope.

(** A store operation: it consults the fault schedule first. *)
Definition db {A} (m : M A) : M A :=
  fun w =>
    match World.faults w with
    | [] => m w
    | None :: fs => m (World.set_faults fs w)
    | Some e :: fs => Throw e (World.set_faults fs w)
    end.

(** ** The environment *)

(** An HTTP exchange: [fetch] rejects, or resolves to a response with its
    status and body. *)
Inductive FetchOutcome :=
| FetchRejects (e : exn)
| FetchResponse (status : Z) (body : string).

(** What [ical.js] exposes of a VEVENT component through [ICAL.Event]. *)
Module VEvent.
Record t := mk {
  uid : option string;
  summary : option string;
  startDate : option Date;
  endDate : option Date;
  description : option string
}.
End VEvent.

(** The outside of the program: the network, the [ical.js] parser
    ([ICAL_parse] gives the VEVENT components of a document, or the value
    thrown on a document it does not accept), [crypto.randomUUID], the
    clock read by [new Date()], and the status the database schema gives a
    reservation created without one (the schema is not part of the sources
    at hand, so the default is a parameter). *)
Module Env.
Record t := mk {
  network : string -> FetchOutcome;
  ICAL_parse : string -> exn + list VEvent.t;
  randomUUID : nat -> string;
  now : Date;
  reservationDefaultStatus : ReservationStatus
}.
End Env.

(** ** Store operations used by the calendar core *)

Module Db.
(** The [where] clause [{ channel, externalId }]. *)
Definition matches_key (channel externalId : string) (r : Reservation.t)
  : bool :=
  String.eqb (Reservation.channel r) channel
  && match Reservation.externalId r with
     | Some x => String.eqb x externalId
     | None => false
     end.

(** [db.reservation.findFirst({ where: { channel, externalId } })] *)
Definition reservation_findFirst (channel externalId : string)
  : M (option Reservation.t) :=
  db (fun w =>
        Ok (find (matches_key channel externalId) (World.reservations w)) w).

(** A row with [data: { checkIn, checkOut, guestName }] applied. *)
Definition with_data (checkIn checkOut : Date) (guestName : string)
           (r : Reservation.t) : Reservation.t :=
  Reservation.mk (Reservation.id r) (Reservation.unitId r)
    (Reservation.channel r) guestName checkIn checkOut
    (Reservation.status r) (Reservation.externalId r)
    (Reservation.totalAmount r).

(** The rows after [update({ where: { id }, data: { checkIn, checkOut,
    guestName } })]: the row of that id (ids are the primary key, so the
    first one) has the data applied; [None] when no row has the id. *)
Fixpoint update_row (id : nat) (checkIn checkOut : Date) (guestName : string)
         (rows : list Reservation.t) : option (list Reservation.t) :=
  match rows with
  | [] => None
  | r :: rest =>
      if Nat.eqb (Reservation.id r) id then
        Some (with_data checkIn checkOut guestName r :: rest)
      else
        match update_row id checkIn checkOut guestName rest with
        | Some rest' => Some (r :: rest')
        | None => None
        end
  end.

(** [db.reservation.update]; it throws when the record does not exist. *)
Definition reservation_update (id : nat) (checkIn checkOut : Date)
           (guestName : string) : M unit :=
  db (fun w =>
        match update_row id checkIn checkOut guestName
                (World.reservations w) with
        | Some rows => Ok tt (World.set_reservations rows w)
        | None => Throw (JsError "Record to update not found.") w
        end).

(** [db.reservation.create]: the store gives the row its id. *)
Definition reservation_create (unitId channel : string)
           (externalId : option string) (guestName : string)
           (checkIn checkOut : Date) (status : ReservationStatus)
           (totalAmount : option Z) : M Reservation.t :=
  db (fun w =>
        let r := Reservation.mk (World.nextId w) unitId channel guestName
                   checkIn checkOut status externalId totalAmount in
        Ok r (World.set_nextId (S (World.nextId w))
                (World.set_reservations (World.reservations w ++ [r]) w))).

(** [db.syncLog.create] *)
Definition syncLog_create (log : SyncLog.t) : M unit :=
  db (fun w => Ok tt (World.set_syncLogs (World.syncLogs w ++ [log]) w)).

(** A channel mapping read with [include: { property: { include: { units:
    true } } }]. *)
Record MappingWithProperty := mkJoined {
  mapping : ChannelMapping.t;
  property : Property.t;
  units : list Unit.t
}.

Definition units_of (propertyId : string) (w : World.t) : list Unit.t :=
  filter (fun u => String.eqb (Unit.propertyId u) propertyId) (World.units w).

Definition join (w : World.t) (m : ChannelMapping.t)
  : option MappingWithProperty :=
  match find (fun p => String.eqb (Property.id p) (ChannelMapping.propertyId m))
             (World.properties w) with
  | Some p => Some (mkJoined m p (units_of (Property.id p) w))
  | None => None
  end.

Fixpoint join_all (w : World.t) (ms : list ChannelMapping.t)
  : list MappingWithProperty :=
  match ms with
  | [] => []
  | m :: rest =>
      match join w m with
      | Some j => j :: join_all w rest
      | None => join_all w rest
      end
  end.

(** [db.channelMapping.findMany({ where: { iCalUrl: { not: null } },
    include })] *)
Definition channelMapping_findMany_withUrl : M (list MappingWithProperty) :=
  db (fun w =>
        Ok (join_all w
              (filter (fun m => match ChannelMapping.iCalUrl m with
                                | Some _ => true
                                | None => false
                                end)
                      (World.channelMappings w)))
           w).

(** [db.channelMapping.findFirst({ where: { id, property: { userId } },
    include })] *)
Definition channelMapping_findFirst (id userId : string)
  : M (option MappingWithProperty) :=
  db (fun w =>
        Ok (find (fun j => String.eqb (Property.userId (property j)) userId)
                 (join_all w
                    (filter (fun m => String.eqb (ChannelMapping.id m) id)
                            (World.channelMappings w))))
           w).

Fixpoint update_mapping (id : string) (data : ChannelMapping.t -> ChannelMapping.t)
         (rows : list ChannelMapping.t) : option (list ChannelMapping.t) :=
  match rows with
  | [] => None
  | m :: rest =>
      if String.eqb (ChannelMapping.id m) id then Some (data m :: rest)
      else
        match update_mapping id data rest with
        | Some rest' => Some (m :: rest')
        | None => None
        end
  end.

(** [db.channelMapping.update({ where: { id }, data })] *)
Definition channelMapping_update (id : string)
           (data : ChannelMapping.t -> ChannelMapping.t) : M unit :=
  db (fun w =>
        match update_mapping id data (World.channelMappings w) with
        | Some rows => Ok tt (World.set_channelMappings rows w)
        | None => Throw (JsError "Record to update not found.") w
        end).

(** [data: { lastSyncAt, lastSyncError }] *)
Definition set_lastSync (at_ : Date) (err : option string)
           (m : ChannelMapping.t) : ChannelMapping.t :=
  ChannelMapping.mk (ChannelMapping.id m) (ChannelMapping.propertyId m)
    (ChannelMapping.channel m) (ChannelMapping.iCalUrl m) (Some at_) err.

(** [data: { lastSyncError }] *)
Definition set_lastSyncError (err : option string)
           (m : ChannelMapping.t) : ChannelMapping.t :=
  ChannelMapping.mk (ChannelMapping.id m) (ChannelMapping.propertyId m)
    (ChannelMapping.channel m) (ChannelMapping.iCalUrl m)
    (ChannelMapping.lastSyncAt m) err.

(** The [where] clause [{ id, property: { userId } }] on a unit. *)
Definition unit_of_user (w : World.t) (id userId : string) (u : Unit.t)
  : bool :=
  String.eqb (Unit.id u) id
  && existsb (fun p =>
                String.eqb (Property.id p) (Unit.propertyId u)
                && String.eqb (Property.userId p) userId)
             (World.properties w).

(** [db.unit.findFirst({ where: { id, property: { userId } } })] *)
Definition unit_findFirst (id userId : string) : M (option Unit.t) :=
  db (fun w => Ok (find (unit_of_user w id userId) (World.units w)) w).

(** The [where] clause of the conflict query of [createReservation]:
    the unit, a status among confirmed and pending, [checkIn] before the
    requested check-out and [checkOut] after the requested check-in. *)
Definition conflicts_with (unitId : string) (checkIn checkOut : Date)
           (r : Reservation.t) : bool :=
  String.eqb (Reservation.unitId r) unitId
  && match Reservation.status r with
     | confirmed | pending => true
     | cancelled | completed => false
     end
  && ((Reservation.checkIn r <? checkOut) && (checkIn <? Reservation.checkOut r)).

Definition reservation_findMany_conflicts (unitId : string)
           (checkIn checkOut : Date) : M (list Reservation.t) :=
  db (fun w =>
        Ok (filter (conflicts_with unitId checkIn checkOut)
                   (World.reservations w))
           w).
(** [status: { in: ['confirmed', 'pending'] }] *)
Definition is_active (status : ReservationStatus) : bool :=
  match status with
  | confirmed | pending => true
  | cancelled | completed => false
  end.

(** The [OR] of the calendar queries on an interval [[a, b]] of a row and
    the window [[start, end]]: [a] in the window, or [b] in the window, or
    the row spanning the window. *)
Definition in_window (start end_ a b : Date) : bool :=
  ((start <=? a) && (a <=? end_))
  || ((start <=? b) && (b <=? end_))
  || ((a <=? start) && (end_ <=? b)).

(** [unitId: { in: unitIds }] *)
Definition among (unitIds : list string) (unitId : string) : bool :=
  existsb (String.eqb unitId) unitIds.

(** The [where] clause [{ userId, ...(propertyId ? { id: propertyId } :
    {}) }] on a property. *)
Definition property_matches (userId : string) (propertyId : option string)
           (p : Property.t) : bool :=
  String.eqb (Property.userId p) userId
  && match or_null propertyId with
     | Some id => String.eqb (Property.id p) id
     | None => true
     end.

(** [db.property.findMany({ where, include: { units: true } })] *)
Definition property_findMany (userId : string) (propertyId : option string)
  : M (list (Property.t * list Unit.t)) :=
  db (fun w =>
        Ok (map (fun p => (p, units_of (Property.id p) w))
                (filter (property_matches userId propertyId)
                        (World.properties w)))
           w).

(** A reservation read with [include: { unit: { include: { property: true
    } } }]: the row and its unit. *)
Definition unit_of (w : World.t) (unitId : string) : option Unit.t :=
  find (fun u => String.eqb (Unit.id u) unitId) (World.units w).

Fixpoint with_unit {A} (w : World.t) (unitId : A -> string) (rows : list A)
  : list (A * Unit.t) :=
  match rows with
  | [] => []
  | r :: rest =>
      match unit_of w (unitId r) with
      | Some u => (r, u) :: with_unit w unitId rest
      | None => with_unit w unitId rest
      end
  end.

(** [db.reservation.findMany] of [getEvents]. *)
Definition reservation_findMany_window (unitIds : list string)
           (start end_ : Date) : M (list (Reservation.t * Unit.t)) :=
  db (fun w =>
        Ok (with_unit w Reservation.unitId
              (filter (fun r =>
                         among unitIds (Reservation.unitId r)
                         && is_active (Reservation.status r)
                         && in_window start end_ (Reservation.checkIn r)
                              (Reservation.checkOut r))
                      (World.reservations w)))
           w).

(** [db.availabilityBlock.findMany] of [getEvents]. *)
Definition availabilityBlock_findMany_window (unitIds : list string)
           (start end_ : Date) : M (list (AvailabilityBlock.t * Unit.t)) :=
  db (fun w =>
        Ok (with_unit w AvailabilityBlock.unitId
              (filter (fun b =>
                         among unitIds (AvailabilityBlock.unitId b)
                         && in_window start end_ (AvailabilityBlock.startDate b)
                              (AvailabilityBlock.endDate b))
                      (World.availabilityBlocks w)))
           w).




(** [db.availabilityBlock.create]: the store gives the row its id. *)
Definition availabilityBlock_create (unitId : string) (type : BlockType)
           (startDate endDate : Date) (notes : option string)
  : M AvailabilityBlock.t :=
  db (fun w =>
        let b := AvailabilityBlock.mk (World.nextId w) unitId type
                   startDate endDate notes in
        Ok b (World.set_nextId (S (World.nextId w))
                (World.set_availabilityBlocks
                   (World.availabilityBlocks w ++ [b]) w))).

(** The [where] clause [{ id, unit: { property: { userId } } }] on a
    block. *)
Definition block_of_user (w : World.t) (id : nat) (userId : string)
           (b : AvailabilityBlock.t) : bool :=
  Nat.eqb (AvailabilityBlock.id b) id
  && existsb (unit_of_user w (AvailabilityBlock.unitId b) userId)
             (World.units w).

(** [db.availabilityBlock.findFirst] of [deleteBlock]. *)
Definition availabilityBlock_findFirst (id : nat) (userId : string)
  : M (option AvailabilityBlock.t) :=
  db (fun w =>
        Ok (find (block_of_user w id userId) (World.availabilityBlocks w)) w).

(** The rows after [delete({ where: { id } })]: the row of that id is
    removed; [None] when no row has the id. *)
Fixpoint delete_row (id : nat) (rows : list AvailabilityBlock.t)
  : option (list AvailabilityBlock.t) :=
  match rows with
  | [] => None
  | b :: rest =>
      if Nat.eqb (AvailabilityBlock.id b) id then Some rest
      else
        match delete_row id rest with
        | Some rest' => Some (b :: rest')
        | None => None
        end
  end.

(** [db.availabilityBlock.delete]; it throws when the record does not
    exist. *)
Definition availabilityBlock_delete (id : nat) : M unit :=
  db (fun w =>
        match delete_row id (World.availabilityBlocks w) with
        | Some rows => Ok tt (World.set_availabilityBlocks rows w)
        | None => Throw (JsError "Record to delete does not exist.") w
        end).
End Db.

(** ** The iCal adapter ([adapters/ical.adapter.ts]) *)

Module ChannelMappingInput.
Record t := mk { id : string; channel : string; iCalUrl : option string }.
End ChannelMappingInput.

Module CalendarSyncResult.
Record t := mk {
  success : bool;
  eventsFound : nat;
  eventsCreated : nat;
  eventsUpdated : nat;
  added : nat;
  updated : nat;
  error : option string
}.
End CalendarSyncResult.

Module ICalEvent.
Record t := mk {
  uid : string;
  summary : string;
  dtstart : Date;
  dtend : Date;
  description : option string
}.
End ICalEvent.

Module ICalAdapter.
Import Db.

Section WithEnv.
Variable env : Env.t.

(** [fetch(url)] *)
Definition fetch (url : string) : M (Z * string) :=
  fun w =>
    let w' := World.set_requests (World.requests w ++ [url]) w in
    match Env.network env url with
    | FetchRejects e => Throw e w'
    | FetchResponse status body => Ok (status, body) w'
    end.

(** [response.ok] *)
Definition response_ok (status : Z) : bool :=
  (200 <=? status) && (status <=? 299).

(** [crypto.randomUUID()] *)
Definition randomUUID : M string :=
  fun w =>
    Ok (Env.randomUUID env (World.uuids w))
       (World.set_uuids (S (World.uuids w)) w).

(** The loop of [parseICalData] over the VEVENT components. *)
Fixpoint parse_vevents (vevents : list VEvent.t) : M (list ICalEvent.t) :=
  match vevents with
  | [] => ret []
  | event :: rest =>
      match VEvent.startDate event, VEvent.endDate event with
      | Some startDate, Some endDate =>
          uid <- (if falsy (VEvent.uid event) then randomUUID
                  else ret (or_else (VEvent.uid event) "")) ;;
          events <- parse_vevents rest ;;
          ret (ICalEvent.mk uid
                 (or_else (VEvent.summary event) "Blocked")
                 startDate endDate
                 (or_null (VEvent.description event))
               :: events)
      | _, _ => parse_vevents rest
      end
  end.

(** [parseICalData]: a document that the parser refuses is logged and
    read as no event at all. *)
Definition parseICalData (icalData : string) : M (list ICalEvent.t) :=
  match Env.ICAL_parse env icalData with
  | inr vevents => parse_vevents vevents
  | inl _ => ret []
  end.

(** [`${mapping.channel}-${event.uid}`] *)
Definition externalIdOf (channel uid : string) : string :=
  (channel ++ "-" ++ uid)%string.

(** The body of the loop over the fetched events; the counters
    [eventsCreated] and [eventsUpdated] are threaded. *)
Definition processEvent (mapping : ChannelMappingInput.t) (unitId : string)
           (event : ICalEvent.t) (counts : nat * nat) : M (nat * nat) :=
  let '(eventsCreated, eventsUpdated) := counts in
  let externalId :=
    externalIdOf (ChannelMappingInput.channel mapping) (ICalEvent.uid event) in
  existing <- reservation_findFirst
                (ChannelMappingInput.channel mapping) externalId ;;
  match existing with
  | Some existing =>
      if negb (Reservation.checkIn existing =? ICalEvent.dtstart event)
         || negb (Reservation.checkOut existing =? ICalEvent.dtend event)
      then
        reservation_update (Reservation.id existing)
          (ICalEvent.dtstart event) (ICalEvent.dtend event)
          (or_default (ICalEvent.summary event) "Guest") ;;;
        ret (eventsCreated, S eventsUpdated)
      else ret (eventsCreated, eventsUpdated)
  | None =>
      reservation_create unitId (ChannelMappingInput.channel mapping)
        (Some externalId)
        (or_default (ICalEvent.summary event) "Guest")
        (ICalEvent.dtstart event) (ICalEvent.dtend event)
        confirmed None ;;;
      ret (S eventsCreated, eventsUpdated)
  end.

Fixpoint processEvents (mapping : ChannelMappingInput.t) (unitId : string)
         (events : list ICalEvent.t) (counts : nat * nat) : M (nat * nat) :=
  match events with
  | [] => ret counts
  | event :: rest =>
      counts' <- processEvent mapping unitId event counts ;;
      processEvents mapping unitId rest counts'
  end.

Definition failure (msg : string) : CalendarSyncResult.t :=
  CalendarSyncResult.mk false 0 0 0 0 0 (Some msg).

(** The [catch] block of [syncCalendar]. *)
Definition sync_failed (mapping : ChannelMappingInput.t) (error : exn)
  : M CalendarSyncResult.t :=
  syncLog_create
    (SyncLog.mk (ChannelMappingInput.id mapping) SyncLog.failed
       None None None (Some (errorMessage error)) (Env.now env)) ;;;
  ret (failure (errorMessage error)).

(** The end of the [try] block of [syncCalendar], after the loop. *)
Definition sync_succeeded (mapping : ChannelMappingInput.t)
           (eventsFound : nat) (counts : nat * nat)
  : M CalendarSyncResult.t :=
  let '(eventsCreated, eventsUpdated) := counts in
  syncLog_create
    (SyncLog.mk (ChannelMappingInput.id mapping) SyncLog.success
       (Some eventsFound) (Some eventsCreated) (Some eventsUpdated)
       None (Env.now env)) ;;;
  ret (CalendarSyncResult.mk true eventsFound eventsCreated eventsUpdated
         eventsCreated eventsUpdated None).

Definition syncCalendar (mapping : ChannelMappingInput.t) (unitId : string)
  : M CalendarSyncResult.t :=
  match or_null (ChannelMappingInput.iCalUrl mapping) with
  | None => ret (failure "No iCal URL configured")
  | Some url =>
      try_catch
        (response <- fetch url ;;
         if negb (response_ok (fst response)) then
           throw (JsError ("Failed to fetch iCal: "
                           ++ string_of_Z (fst response)))
         else
           events <- parseICalData (snd response) ;;
           counts <- processEvents mapping unitId events (0%nat, 0%nat) ;;
           sync_succeeded mapping (List.length events) counts)
        (sync_failed mapping)
  end.
End WithEnv.
End ICalAdapter.

(** ** The calendar service ([modules/calendar/calendar.service.ts]) *)

Module CreateReservationInput.
Record t := mk {
  unitId : string;
  channel : string;
  guestName : string;
  checkIn : Date;
  checkOut : Date;
  totalAmount : option Z;
  externalId : option string
}.
End CreateReservationInput.

Module CalendarService.
Import Db.

Section WithEnv.
Variable env : Env.t.

Definition to_input (m : ChannelMapping.t) : ChannelMappingInput.t :=
  ChannelMappingInput.mk (ChannelMapping.id m) (ChannelMapping.channel m)
    (ChannelMapping.iCalUrl m).

Definition createReservation (userId : string)
           (input : CreateReservationInput.t) : M Reservation.t :=
  unit <- unit_findFirst (CreateReservationInput.unitId input) userId ;;
  match unit with
  | None => throw (JsError "Unit not found")
  | Some _ =>
      existingReservations <-
        reservation_findMany_conflicts
          (CreateReservationInput.unitId input)
          (CreateReservationInput.checkIn input)
          (CreateReservationInput.checkOut input) ;;
      if (0 <? List.length existingReservations)%nat then
        throw (JsError "Dates conflict with existing reservation")
      else
        reservation_create
          (CreateReservationInput.unitId input)
          (CreateReservationInput.channel input)
          (CreateReservationInput.externalId input)
          (CreateReservationInput.guestName input)
          (CreateReservationInput.checkIn input)
          (CreateReservationInput.checkOut input)
          (Env.reservationDefaultStatus env)
          (CreateReservationInput.totalAmount input)
  end.

Definition syncChannel (userId channelMappingId : string)
  : M CalendarSyncResult.t :=
  found <- channelMapping_findFirst channelMappingId userId ;;
  match found with
  | None => throw (JsError "Channel mapping not found")
  | Some j =>
      if falsy (ChannelMapping.iCalUrl (mapping j)) then
        throw (JsError "No iCal URL configured for this channel")
      else
        match units j with
        | [] => throw (JsError "Property has no units")
        | unit :: _ =>
            result <- ICalAdapter.syncCalendar env (to_input (mapping j))
                        (Unit.id unit) ;;
            channelMapping_update channelMappingId
              (set_lastSync (Env.now env)
                 (or_null (CalendarSyncResult.error result))) ;;;
            ret result
        end
  end.
End WithEnv.
End CalendarService.

(** ** The batch scheduler ([services/sync-scheduler.ts]) *)

Module SyncScheduler.
Import Db.

Section WithEnv.
Variable env : Env.t.

(** The body of the loop of [runSync] for one channel mapping. *)
Definition syncMapping (j : MappingWithProperty) : M SyncResult.t :=
  let m := mapping j in
  match units j with
  | [] =>
      ret (SyncResult.mk (ChannelMapping.id m) (Property.name (property j))
             (ChannelMapping.channel m) false 0 0
             (Some "No unit found for property"))
  | unit :: _ =>
      try_catch
        (syncResult <- ICalAdapter.syncCalendar env
                         (CalendarService.to_input m) (Unit.id unit) ;;
         channelMapping_update (ChannelMapping.id m)
           (set_lastSync (Env.now env)
              (or_null (CalendarSyncResult.error syncResult))) ;;;
         ret (SyncResult.mk (ChannelMapping.id m)
                (Property.name (property j)) (ChannelMapping.channel m)
                (falsy (CalendarSyncResult.error syncResult))
                (CalendarSyncResult.added syncResult)
                (CalendarSyncResult.updated syncResult)
                (CalendarSyncResult.error syncResult)))
        (fun err =>
           channelMapping_update (ChannelMapping.id m)
             (set_lastSyncError (Some (errorMessage err))) ;;;
           ret (SyncResult.mk (ChannelMapping.id m)
                  (Property.name (property j)) (ChannelMapping.channel m)
                  false 0 0 (Some (errorMessage err))))
  end.

(** The loop over the channel mappings.  [results] is the local array
    the loop pushes to; a value thrown out of an iteration ends the loop
    and leaves the array as it is. *)
Fixpoint syncMappings (js : list MappingWithProperty)
         (results : list SyncResult.t) (w : World.t)
  : list SyncResult.t * option exn * World.t :=
  match js with
  | [] => (results, None, w)
  | j :: rest =>
      match syncMapping j w with
      | Ok r w' => syncMappings rest (results ++ [r]) w'
      | Throw e w' => (results, Some e, w')
      end
  end.

(** The [try] block of [runSync], with the array [results] it leaves. *)
Definition batch (w : World.t) : list SyncResult.t * option exn * World.t :=
  match channelMapping_findMany_withUrl w with
  | Ok channelMappings w' => syncMappings channelMappings [] w'
  | Throw e w' => ([], Some e, w')
  end.

Definition enter (w : World.t) : World.t :=
  let s := World.scheduler w in
  World.set_scheduler
    (Scheduler.mk (Scheduler.task s) true (Some (Env.now env))
       (Scheduler.lastResults s)) w.

(** The [finally] block. *)
Definition leave (results : list SyncResult.t) (w : World.t) : World.t :=
  let s := World.scheduler w in
  World.set_scheduler
    (Scheduler.mk (Scheduler.task s) false (Scheduler.lastRunAt s) results) w.

(** [runSync]: the [catch] of the batch only logs, so nothing is thrown
    to the caller. *)
Definition runSync : M (list SyncResult.t) :=
  fun w =>
    if Scheduler.isRunning (World.scheduler w) then
      Ok (Scheduler.lastResults (World.scheduler w)) w
    else
      let '(results, _, w') := batch (enter w) in
      Ok results (leave results w').
End WithEnv.
End SyncScheduler.

(** ** Conflict detection ([CalendarService.detectConflicts]) *)

Module Calendar.
Import CalendarEvent.

(** [eventsByUnit]: a JavaScript [Map] from unit id to the events of the
    unit, iterated in the order the keys were first inserted. *)
Definition UnitMap := list (string * list CalendarEvent.t).

(** One turn of the grouping loop: create the key when absent, then push
    the event at the end of the unit's array. *)
Fixpoint push_event (e : CalendarEvent.t) (m : UnitMap) : UnitMap :=
  match m with
  | [] => [(unitId e, [e])]
  | (u, l) :: m' =>
      if String.eqb u (unitId e) then (u, l ++ [e]) :: m'
      else (u, l) :: push_event e m'
  end.

Definition groupByUnit (events : list CalendarEvent.t) : UnitMap :=
  fold_left (fun m e => push_event e m) events [].

(** [unitEvents.sort((a, b) => a.checkIn - b.checkIn)]: the sort of the
    language is stable, so it is the stable insertion sort on check-in. *)
Fixpoint insert_by_checkIn (e : CalendarEvent.t) (l : list CalendarEvent.t)
  : list CalendarEvent.t :=
  match l with
  | [] => [e]
  | x :: r =>
      if checkIn e <=? checkIn x then e :: x :: r
      else x :: insert_by_checkIn e r
  end.

Fixpoint sort_by_checkIn (l : list CalendarEvent.t) : list CalendarEvent.t :=
  match l with
  | [] => []
  | e :: r => insert_by_checkIn e (sort_by_checkIn r)
  end.

(** [aStart < bEnd && bStart < aEnd] *)
Definition overlaps (a b : CalendarEvent.t) : bool :=
  (checkIn a <? checkOut b) && (checkIn b <? checkOut a).

Definition mkConflict (a b : CalendarEvent.t) : ConflictInfo.t :=
  ConflictInfo.mk a b
    (Z.max (checkIn a) (checkIn b)) (Z.min (checkOut a) (checkOut b)).

(** The inner loop, [j] from [i + 1]: [a] is [unitEvents[i]]. *)
Fixpoint scan_from (a : CalendarEvent.t) (rest : list CalendarEvent.t)
  : list ConflictInfo.t :=
  match rest with
  | [] => []
  | b :: r =>
      if overlaps a b then mkConflict a b :: scan_from a r
      else scan_from a r
  end.

(** The outer loop over [i]. *)
Fixpoint scan_unit (l : list CalendarEvent.t) : list ConflictInfo.t :=
  match l with
  | [] => []
  | a :: r => scan_from a r ++ scan_unit r
  end.

Definition detectConflicts (events : list CalendarEvent.t)
  : list ConflictInfo.t :=
  flat_map (fun ul => scan_unit (sort_by_checkIn (snd ul)))
           (groupByUnit events).

(** Vocabulary of the statements. *)

Definition BlockType_eq_dec (x y : BlockType) : {x = y} + {x <> y}.
Proof. decide equality. Defined.

Definition event_eq_dec (x y : CalendarEvent.t) : {x = y} + {x <> y}.
Proof.
  decide equality;
    try apply Bool.bool_dec; try apply Z.eq_dec; try apply string_dec;
    try apply BlockType_eq_dec;
    decide equality; apply string_dec.
Defined.

Definition event_eqb (x y : CalendarEvent.t) : bool :=
  if event_eq_dec x y then true else false.

(** [c] reports the unordered pair [{a, b}]. *)
Definition reports (a b : CalendarEvent.t) (c : ConflictInfo.t) : bool :=
  (event_eqb (ConflictInfo.eventA c) a && event_eqb (ConflictInfo.eventB c) b)
  || (event_eqb (ConflictInfo.eventA c) b && event_eqb (ConflictInfo.eventB c) a).

(** How many emitted conflicts report [{a, b}]. *)
Definition pairs_emitted (a b : CalendarEvent.t) (out : list ConflictInfo.t)
  : nat :=
  List.length (filter (reports a b) out).

Definition same_unit (a b : CalendarEvent.t) : bool :=
  String.eqb (unitId a) (unitId b).

(** The array of unit [u] in a unit map, empty when the key is absent. *)
Fixpoint unit_events (u : string) (m : UnitMap) : list CalendarEvent.t :=
  match m with
  | [] => []
  | (k, l) :: m' => if String.eqb k u then l else unit_events u m'
  end.

Definition on_unit (u : string) (e : CalendarEvent.t) : bool :=
  String.eqb u (unitId e).
End Calendar.

(** *** The other methods of the calendar service *)

Module CreateBlockInput.
Record t := mk {
  unitId : string;
  type : BlockType;
  startDate : Date;
  endDate : Date;
  notes : option string
}.
End CreateBlockInput.

(** The id of a row as the string the API shows. *)
Definition id_text (id : nat) : string :=
  NilZero.string_of_uint (Nat.to_uint id).

Module CalendarViews.
Import Db.

(** [reservations.map((r) => ({ ... }))] of [getEvents] *)
Definition reservation_event (ru : Reservation.t * Unit.t) : CalendarEvent.t :=
  let (r, u) := ru in
  CalendarEvent.mk (id_text (Reservation.id r)) (Reservation.unitId r)
    (Unit.propertyId u) booked (Some (Reservation.channel r))
    (Some (Reservation.guestName r)) (Reservation.checkIn r)
    (Reservation.checkOut r) (or_null (Reservation.externalId r)) false.

(** [blocks.map((b) => ({ ... }))] of [getEvents] *)
Definition block_event (bu : AvailabilityBlock.t * Unit.t) : CalendarEvent.t :=
  let (b, u) := bu in
  CalendarEvent.mk (id_text (AvailabilityBlock.id b))
    (AvailabilityBlock.unitId b) (Unit.propertyId u)
    (AvailabilityBlock.type b) None None (AvailabilityBlock.startDate b)
    (AvailabilityBlock.endDate b) None false.

(** [new Set(conflicts.flatMap((c) => [c.eventA.id, c.eventB.id]))] *)
Definition conflictEventIds (conflicts : list ConflictInfo.t) : list string :=
  flat_map (fun c => [CalendarEvent.id (ConflictInfo.eventA c);
                      CalendarEvent.id (ConflictInfo.eventB c)])
           conflicts.

(** [event.hasConflict = conflictEventIds.has(event.id)] *)
Definition mark (ids : list string) (event : CalendarEvent.t)
  : CalendarEvent.t :=
  CalendarEvent.mk (CalendarEvent.id event) (CalendarEvent.unitId event)
    (CalendarEvent.propertyId event) (CalendarEvent.type event)
    (CalendarEvent.channel event) (CalendarEvent.guestName event)
    (CalendarEvent.checkIn event) (CalendarEvent.checkOut event)
    (CalendarEvent.externalId event)
    (existsb (String.eqb (CalendarEvent.id event)) ids).

(** [properties.flatMap((p) => p.units.map((u) => u.id))] *)
Definition unitIds_of (properties : list (Property.t * list Unit.t))
  : list string :=
  flat_map (fun pu => map Unit.id (snd pu)) properties.

Definition getEvents (userId : string) (start end_ : Date)
           (propertyId : option string) : M (list CalendarEvent.t) :=
  properties <- property_findMany userId propertyId ;;
  let unitIds := unitIds_of properties in
  match unitIds with
  | [] => ret []
  | _ :: _ =>
      reservations <- reservation_findMany_window unitIds start end_ ;;
      blocks <- availabilityBlock_findMany_window unitIds start end_ ;;
      let events := map reservation_event reservations
                    ++ map block_event blocks in
      let conflicts := Calendar.detectConflicts events in
      ret (map (mark (conflictEventIds conflicts)) events)
  end.


Definition createBlock (userId : string) (input : CreateBlockInput.t)
  : M AvailabilityBlock.t :=
  unit <- unit_findFirst (CreateBlockInput.unitId input) userId ;;
  match unit with
  | None => throw (JsError "Unit not found")
  | Some _ =>
      availabilityBlock_create (CreateBlockInput.unitId input)
        (CreateBlockInput.type input) (CreateBlockInput.startDate input)
        (CreateBlockInput.endDate input) (CreateBlockInput.notes input)
  end.

Definition deleteBlock (userId : string) (blockId : nat) : M unit :=
  block <- availabilityBlock_findFirst blockId userId ;;
  match block with
  | None => throw (JsError "Block not found")
  | Some _ => availabilityBlock_delete blockId
  end.

Section WithEnv.
Variable env : Env.t.

(** [365 * 24 * 60 * 60 * 1000] *)
Definition one_year : Z := 365 * 24 * 60 * 60 * 1000.

Definition getConflicts (userId : string) (propertyId : option string)
  : M (list ConflictInfo.t) :=
  events <- getEvents userId (Env.now env) (Env.now env + one_year)
              propertyId ;;
  ret (Calendar.detectConflicts events).
End WithEnv.
End CalendarViews.

(** *** The status of the scheduler *)

Module SchedulerStatus.
Record t := mk {
  isRunning : bool;
  lastRunAt : option Date;
  lastResults : list SyncResult.t;
  nextRunAt : option Date
}.

(** [getNextRunTime]: thirty minutes after the last run. *)
Definition getNextRunTime (s : Scheduler.t) : option Date :=
  match Scheduler.lastRunAt s with
  | None => None
  | Some t => Some (t + 30 * 60 * 1000)
  end.

Definition getStatus : M t :=
  fun w =>
    let s := World.scheduler w in
    Ok (mk (Scheduler.isRunning s) (Scheduler.lastRunAt s)
           (Scheduler.lastResults s)
           (if Scheduler.task s then getNextRunTime s else None))
       w.
End SchedulerStatus.

(** *** The route of a manual sync ([modules/calendar/calendar.routes.ts]) *)

Module CalendarRoutes.
(** What [reply.status(statusCode).send(response)] sends. *)
Inductive Reply (A : Type) : Type :=
| Success (statusCode : Z) (data : A)
| Failure (statusCode : Z) (code message : string).
Arguments Success {A} statusCode data.
Arguments Failure {A} statusCode code message.

Section WithEnv.
Variable env : Env.t.

(** [POST /sync/:channelMappingId]; [None] when the handler sends
    nothing. *)
Definition post_sync (userId channelMappingId : string)
  : M (option (Reply CalendarSyncResult.t)) :=
  try_catch
    (result <- CalendarService.syncChannel env userId channelMappingId ;;
     ret (Some (Success 200 result)))
    (fun err =>
       match err with
       | JsError message => ret (Some (Failure 400 "SYNC_ERROR" message))
       | JsValue => ret None
       end).
End WithEnv.
End CalendarRoutes.

(** * Vocabulary of the properties *)

(** The world a computation leaves, whether it returns or throws. *)
Definition after {A} (o : Outcome A) : World.t :=
  match o with
  | Ok _ w => w
  | Throw _ w => w
  end.

Definition returned {A} (o : Outcome A) : option A :=
  match o with
  | Ok a _ => Some a
  | Throw _ _ => None
  end.

(** The effect of one completed iteration of the reconciliation loop on the
    reservation table, the id counter and the two counters of the run, as a
    function; [processEvent_outcome] relates [processEvent] to it. *)
Module Pure.
Import Db.

Record State := mkState {
  rows : list Reservation.t;
  nextId : nat;
  created : nat;
  updated : nat
}.

Definition changed (existing : Reservation.t) (event : ICalEvent.t) : bool :=
  negb (Reservation.checkIn existing =? ICalEvent.dtstart event)
  || negb (Reservation.checkOut existing =? ICalEvent.dtend event).

Definition new_row (id : nat) (unitId channel : string) (event : ICalEvent.t)
  : Reservation.t :=
  Reservation.mk id unitId channel
    (or_default (ICalEvent.summary event) "Guest")
    (ICalEvent.dtstart event) (ICalEvent.dtend event) confirmed
    (Some (ICalAdapter.externalIdOf channel (ICalEvent.uid event))) None.

Definition step (channel unitId : string) (event : ICalEvent.t) (s : State)
  : State :=
  match find (matches_key channel
                (ICalAdapter.externalIdOf channel (ICalEvent.uid event)))
             (rows s) with
  | Some existing =>
      if changed existing event then
        match update_row (Reservation.id existing)
                (ICalEvent.dtstart event) (ICalEvent.dtend event)
                (or_default (ICalEvent.summary event) "Guest") (rows s) with
        | Some rows' => mkState rows' (nextId s) (created s) (S (updated s))
        | None => s
        end
      else s
  | None =>
      mkState (rows s ++ [new_row (nextId s) unitId channel event])
              (S (nextId s)) (S (created s)) (updated s)
  end.

Definition steps (channel unitId : string) (events : list ICalEvent.t)
           (s : State) : State :=
  fold_left (fun s e => step channel unitId e s) events s.

Definition of_world (w : World.t) (counts : nat * nat) : State :=
  mkState (World.reservations w) (World.nextId w) (fst counts) (snd counts).
End Pure.

(** Two worlds that differ at most in the reservation table, its id counter
    and the fault schedule. *)
Definition same_frame (w w' : World.t) : Prop :=
  World.availabilityBlocks w' = World.availabilityBlocks w
  /\ World.syncLogs w' = World.syncLogs w
  /\ World.properties w' = World.properties w
  /\ World.units w' = World.units w
  /\ World.channelMappings w' = World.channelMappings w
  /\ World.uuids w' = World.uuids w
  /\ World.requests w' = World.requests w
  /\ World.scheduler w' = World.scheduler w.

(** The events a run of [syncCalendar] started in [w] gets from the feed:
    none when there is no URL, when the request fails or when the document
    is refused by the parser. *)
Definition fetched_events (env : Env.t) (mapping : ChannelMappingInput.t)
           (w : World.t) : list ICalEvent.t :=
  match or_null (ChannelMappingInput.iCalUrl mapping) with
  | None => []
  | Some url =>
      match Env.network env url with
      | FetchRejects _ => []
      | FetchResponse status body =>
          if ICalAdapter.response_ok status then
            match ICalAdapter.parseICalData env body
                    (World.set_requests (World.requests w ++ [url]) w) with
            | Ok events _ => events
            | Throw _ _ => []
            end
          else []
      end
  end.

(** The event is stored under its key with the dates the feed gives it. *)
Definition stored_unchanged (channel : string) (rows : list Reservation.t)
           (event : ICalEvent.t) : bool :=
  match find (Db.matches_key channel
                (ICalAdapter.externalIdOf channel (ICalEvent.uid event)))
             rows with
  | Some r =>
      (Reservation.checkIn r =? ICalEvent.dtstart event)
      && (Reservation.checkOut r =? ICalEvent.dtend event)
  | None => false
  end.

(** How many reservations a table holds under a channel and external id. *)
Definition count_key (channel externalId : string) (rows : list Reservation.t)
  : nat :=
  List.length (filter (Db.matches_key channel externalId) rows).

(** A run of the reconciler: its environment (the feed may differ from run
    to run), the channel mapping and the target unit. *)
Definition Run : Type := Env.t * ChannelMappingInput.t * string.

Definition run_all (runs : list Run) (w : World.t) : World.t :=
  fold_left
    (fun w (r : Run) =>
       let '(env, mapping, unitId) := r in
       after (ICalAdapter.syncCalendar env mapping unitId w))
    runs w.

(** What [parseICalData] keeps of a VEVENT: nothing when its start or its
    end is missing, else its title (or the literal it is replaced by) and
    its two dates. *)
Definition kept (v : VEvent.t) : list (string * Date * Date) :=
  match VEvent.startDate v, VEvent.endDate v with
  | Some startDate, Some endDate =>
      [(or_else (VEvent.summary v) "Blocked", startDate, endDate)]
  | _, _ => []
  end.

Definition title_and_dates (e : ICalEvent.t) : string * Date * Date :=
  (ICalEvent.summary e, ICalEvent.dtstart e, ICalEvent.dtend e).

(** Check-in strictly before check-out. *)
Definition well_dated (r : Reservation.t) : Prop :=
  Reservation.checkIn r < Reservation.checkOut r.

(** A computation that leaves the scheduler singleton as it is, whether it
    returns or throws. *)
Definition keeps_scheduler {A} (m : M A) : Prop :=
  forall w, World.scheduler (after (m w)) = World.scheduler w.

(** The primary key of the reservation table: ids are unique and below the
    counter they are drawn from. *)
Definition ids_fresh (rows : list Reservation.t) (nextId : nat) : Prop :=
  NoDup (map Reservation.id rows)
  /\ Forall (fun r => (Reservation.id r < nextId)%nat) rows.

(** What identifies a reservation and what only its owner may change: id,
    unit, channel, status, external id and total. *)
Definition identity_fields (r : Reservation.t)
  : nat * string * string * ReservationStatus * option string * option Z :=
  (Reservation.id r, Reservation.unitId r, Reservation.channel r,
   Reservation.status r, Reservation.externalId r, Reservation.totalAmount r).

(** The VEVENT has a start and an end. *)
Definition has_dates (v : VEvent.t) : bool :=
  match VEvent.startDate v, VEvent.endDate v with
  | Some _, Some _ => true
  | _, _ => false
  end.

(** The environment whose parser leaves out the VEVENT components without
    a start or an end. *)
Definition without_undated (env : Env.t) : Env.t :=
  Env.mk (Env.network env)
         (fun icalData =>
            match Env.ICAL_parse env icalData with
            | inr vevents => inr (filter has_dates vevents)
            | inl e => inl e
            end)
         (Env.randomUUID env) (Env.now env) (Env.reservationDefaultStatus env).

(** The event [parseICalData] makes of a VEVENT that has its dates and a
    uid. *)
Definition canonical (v : VEvent.t) : list ICalEvent.t :=
  match VEvent.startDate v, VEvent.endDate v with
  | Some startDate, Some endDate =>
      [ICalEvent.mk (or_else (VEvent.uid v) "")
         (or_else (VEvent.summary v) "Blocked") startDate endDate
         (or_null (VEvent.description v))]
  | _, _ => []
  end.

(** The document fetched for a mapping, parsed: the VEVENT components, or
    none when there is no URL, no successful response or no parse. *)
Definition fetched_vevents (env : Env.t) (mapping : ChannelMappingInput.t)
  : list VEvent.t :=
  match or_null (ChannelMappingInput.iCalUrl mapping) with
  | None => []
  | Some url =>
      match Env.network env url with
      | FetchRejects _ => []
      | FetchResponse status body =>
          if ICalAdapter.response_ok status then
            match Env.ICAL_parse env body with
            | inr vevents => vevents
            | inl _ => []
            end
          else []
      end
  end.

(** What a computation leaves of the world outside the tables the
    reconciler writes: blocks, properties, units, channel mappings and the
    scheduler. *)
Definition surroundings (w : World.t) :=
  (World.availabilityBlocks w, World.properties w, World.units w,
   World.channelMappings w, World.scheduler w).

(** A computation that leaves a part of the world as it is, whether it
    returns or throws. *)
Definition keeps {A B} (part : World.t -> B) (m : M A) : Prop :=
  forall w, part (after (m w)) = part w.

(** The sync log that tells a result of [syncCalendar]. *)
Definition log_entry (env : Env.t) (mapping : ChannelMappingInput.t)
           (r : CalendarSyncResult.t) : SyncLog.t :=
  if CalendarSyncResult.success r then
    SyncLog.mk (ChannelMappingInput.id mapping) SyncLog.success
      (Some (CalendarSyncResult.eventsFound r))
      (Some (CalendarSyncResult.eventsCreated r))
      (Some (CalendarSyncResult.eventsUpdated r)) None (Env.now env)
  else
    SyncLog.mk (ChannelMappingInput.id mapping) SyncLog.failed
      None None None (CalendarSyncResult.error r) (Env.now env).

(** The channel mappings a batch of the scheduler goes through: those with
    a URL, each with its property and the units of the property. *)
Definition syncable (w : World.t) : list Db.MappingWithProperty :=
  Db.join_all w
    (filter (fun m => match ChannelMapping.iCalUrl m with
                      | Some _ => true
                      | None => false
                      end)
            (World.channelMappings w)).

(** The channel mapping of that id among those of the properties of a
    user, as [syncChannel] looks it up. *)
Definition mapping_of_user (w : World.t) (id userId : string)
  : option Db.MappingWithProperty :=
  find (fun j => String.eqb (Property.userId (Db.property j)) userId)
       (Db.join_all w
          (filter (fun m => String.eqb (ChannelMapping.id m) id)
                  (World.channelMappings w))).

(** Ordered by check-in. *)
Definition starts_before (a b : CalendarEvent.t) : Prop :=
  CalendarEvent.checkIn a <= CalendarEvent.checkIn b.

(** A conflict with both events passed through [f]. *)
Definition map_conflict (f : CalendarEvent.t -> CalendarEvent.t)
           (c : ConflictInfo.t) : ConflictInfo.t :=
  Calendar.mkConflict (f (ConflictInfo.eventA c)) (f (ConflictInfo.eventB c)).

(** The ids of the units of the properties of a user (of one property when
    a property id is given), as [getEvents] collects them. *)
Definition user_unitIds (w : World.t) (userId : string)
           (propertyId : option string) : list string :=
  CalendarViews.unitIds_of
    (map (fun p => (p, Db.units_of (Property.id p) w))
         (filter (Db.property_matches userId propertyId) (World.properties w))).

(** The events [getEvents] builds before it marks the conflicts. *)
Definition unmarked_events (w : World.t) (userId : string) (start end_ : Date)
           (propertyId : option string) : list CalendarEvent.t :=
  let unitIds := user_unitIds w userId propertyId in
  map CalendarViews.reservation_event
      (Db.with_unit w Reservation.unitId
         (filter (fun r =>
                    Db.among unitIds (Reservation.unitId r)
                    && Db.is_active (Reservation.status r)
                    && Db.in_window start end_ (Reservation.checkIn r)
                         (Reservation.checkOut r))
                 (World.reservations w)))
  ++ map CalendarViews.block_event
       (Db.with_unit w AvailabilityBlock.unitId
          (filter (fun b =>
                     Db.among unitIds (AvailabilityBlock.unitId b)
                     && Db.in_window start end_ (AvailabilityBlock.startDate b)
                          (AvailabilityBlock.endDate b))
                  (World.availabilityBlocks w))).

(** A unit of a property of the user has this id. *)
Definition unit_of_a_property_of (w : World.t) (userId unitId : string) : Prop :=
  exists p u,
    In p (World.properties w) /\ Property.userId p = userId
    /\ In u (World.units w) /\ Unit.propertyId u = Property.id p
    /\ Unit.id u = unitId.


(** The channel and the uid of every event the runs fetch, run after
    run, each run started in the world the runs before it leave. *)
Fixpoint fetched_uids (runs : list Run) (w : World.t)
  : list (string * string) :=
  match runs with
  | [] => []
  | run :: rest =>
      let '(env, mapping, unitId) := run in
      map (fun e => (ChannelMappingInput.channel mapping, ICalEvent.uid e))
          (fetched_events env mapping w)
      ++ fetched_uids rest (after (ICalAdapter.syncCalendar env mapping unitId w))
  end.

(** The reservation carries the channel and the external id of one of the
    fetched uids, and [rows] holds no reservation under that channel and
    external id. *)
Definition created_for (uids : list (string * string))
           (rows : list Reservation.t) (r : Reservation.t) : Prop :=
  exists channel uid,
    In (channel, uid) uids
    /\ Reservation.channel r = channel
    /\ Reservation.externalId r
       = Some (ICalAdapter.externalIdOf channel uid)
    /\ find (Db.matches_key channel (ICalAdapter.externalIdOf channel uid))
            rows = None.

(** A result of the scheduler that tells a failure with this message. *)
Definition fails_with (r : SyncResult.t) (msg : string) : Prop :=
  SyncResult.success r = false
  /\ SyncResult.eventsAdded r = 0%nat
  /\ SyncResult.eventsUpdated r = 0%nat
  /\ SyncResult.error r = Some msg.

(** What the result of a batch tells of a channel mapping, by what the
    feed of the mapping answers: a failure for a property without unit,
    for a missing URL and for a response that is not a success; the
    message of the rejection when the request is rejected; a success for
    every successful response. *)
Definition reported (env : Env.t) (j : Db.MappingWithProperty)
           (r : SyncResult.t) : Prop :=
  SyncResult.channelId r = ChannelMapping.id (Db.mapping j)
  /\ SyncResult.propertyName r = Property.name (Db.property j)
  /\ SyncResult.channel r = ChannelMapping.channel (Db.mapping j)
  /\ match Db.units j with
     | [] => fails_with r "No unit found for property"
     | _ :: _ =>
         match or_null (ChannelMapping.iCalUrl (Db.mapping j)) with
         | None => fails_with r "No iCal URL configured"
         | Some url =>
             match Env.network env url with
             | FetchRejects e =>
                 SyncResult.success r = falsy (Some (errorMessage e))
                 /\ SyncResult.eventsAdded r = 0%nat
                 /\ SyncResult.eventsUpdated r = 0%nat
                 /\ SyncResult.error r = Some (errorMessage e)
             | FetchResponse status _ =>
                 if ICalAdapter.response_ok status then
                   SyncResult.success r = true /\ SyncResult.error r = None
                 else
                   fails_with r ("Failed to fetch iCal: "
                                 ++ string_of_Z status)%string
             end
         end
     end.

(** ** A sample deployment *)

Module Sample.
Definition beach_house := Property.mk "prop-1" "alice" "Beach House".

Definition unit1 := Unit.mk "unit-1" "prop-1".

Definition feed_url := "https://calendar.example/airbnb.ics".

(** The Airbnb connection of the beach house, last synced at 1000. *)
Definition airbnb :=
  ChannelMapping.mk "map-1" "prop-1" "airbnb" (Some feed_url) (Some 1000) None.

Definition airbnb_input := CalendarService.to_input airbnb.

Definition idle := Scheduler.mk true false None [].

Definition world (reservations : list Reservation.t)
           (blocks : list AvailabilityBlock.t) : World.t :=
  World.mk reservations blocks [] [beach_house] [unit1] [airbnb]
           (List.length reservations) 0 [] idle [].

(** A reachable feed publishing the given VEVENT components; the clock
    reads 5000. *)
Definition feed (vevents : list VEvent.t) : Env.t :=
  Env.mk (fun _ => FetchResponse 200 "BEGIN:VCALENDAR")
         (fun _ => inr vevents) (fun _ => "generated-uid") 5000 confirmed.

(** A feed answering with a page that is not a calendar. *)
Definition garbage_feed : Env.t :=
  Env.mk (fun _ => FetchResponse 200 "<html>Sign in</html>")
         (fun _ => inl (JsError "invalid ical body"))
         (fun _ => "generated-uid") 5000 confirmed.

(** A feed answering 503. *)
Definition unavailable_feed : Env.t :=
  Env.mk (fun _ => FetchResponse 503 "Service Unavailable")
         (fun _ => inr []) (fun _ => "generated-uid") 5000 confirmed.

(** A feed that cannot be reached. *)
Definition unreachable_feed : Env.t :=
  Env.mk (fun _ => FetchRejects (JsError "fetch failed"))
         (fun _ => inr []) (fun _ => "generated-uid") 5000 confirmed.

Definition vevent (uid : string) (title : option string) (s e : Date)
  : VEvent.t :=
  VEvent.mk (Some uid) title (Some s) (Some e) None.

(** Alice's stay from 10 to 20, imported from Airbnb under uid [u1]. *)
Definition alice_stay :=
  Reservation.mk 0 "unit-1" "airbnb" "Alice" 10 20 confirmed
                 (Some "airbnb-u1") None.

Definition event (unit : string) (id : string) (s e : Date)
  : CalendarEvent.t :=
  CalendarEvent.mk id unit "prop-1" booked (Some "airbnb") (Some "Guest")
                   s e None false.

(** A request for unit 1 from 15 to 25. *)
Definition request :=
  CreateReservationInput.mk "unit-1" "direct" "Carol" 15 25 None None.

Definition maintenance_block :=
  AvailabilityBlock.mk 0 "unit-1" maintenance 12 30 None.
End Sample.

(** Alice's stay overlaps the sample Sample.request on the same unit. *)
Definition stay_overlaps_request : Prop :=
  Reservation.unitId Sample.alice_stay = CreateReservationInput.unitId Sample.request
  /\ Reservation.status Sample.alice_stay = confirmed
  /\ Reservation.checkIn Sample.alice_stay < CreateReservationInput.checkOut Sample.request
  /\ CreateReservationInput.checkIn Sample.request < Reservation.checkOut Sample.alice_stay.

(** ** Further sample data *)

Module Fixtures.
(** A reachable feed whose parser draws a different uid at every call; the
    clock reads 5000. *)
Definition numbering_feed (vevents : list VEvent.t) : Env.t :=
  Env.mk (fun _ => FetchResponse 200 "BEGIN:VCALENDAR")
         (fun _ => inr vevents) id_text 5000 confirmed.

(** A hold published without uid. *)
Definition anonymous_hold (s e : Date) : VEvent.t :=
  VEvent.mk None (Some "Hold") (Some s) (Some e) None.

(** An entry without dates. *)
Definition undated_entry : VEvent.t :=
  VEvent.mk (Some "u9") (Some "Draft") None (Some 5) None.

(** Dana's pending stay from 18 to 30, booked directly. *)
Definition dana_stay :=
  Reservation.mk 1 "unit-1" "direct" "Dana" 18 30 pending None None.

(** Two stays of next season, overlapping from 6500 to 7000. *)
Definition erin_stay :=
  Reservation.mk 0 "unit-1" "airbnb" "Erin" 6000 7000 confirmed
                 (Some "airbnb-u5") None.

Definition finn_stay :=
  Reservation.mk 1 "unit-1" "direct" "Finn" 6500 7500 confirmed None None.

(** A request for unit 1 from 20 to 25, the day Alice leaves. *)
Definition later_request :=
  CreateReservationInput.mk "unit-1" "direct" "Carol" 20 25 None None.

(** An owner's block of unit 1 from 40 to 50. *)
Definition block_request :=
  CreateBlockInput.mk "unit-1" blocked 40 50 None.
End Fixtures.

(** * Properties *)

(** ** The conflict detector *)

Section ConflictDetector.
Import CalendarEvent Calendar.

Lemma event_eqb_true x y : event_eqb x y = true <-> x = y.
Proof. unfold event_eqb. destruct (event_eq_dec x y); split; congruence. Qed.

Lemma event_eqb_refl x : event_eqb x x = true.
Proof. now apply event_eqb_true. Qed.

Lemma event_eqb_neq x y : x <> y -> event_eqb x y = false.
Proof. unfold event_eqb. destruct (event_eq_dec x y); congruence. Qed.

Lemma overlaps_sym a b : overlaps a b = overlaps b a.
Proof. unfold overlaps. apply andb_comm. Qed.

Lemma pairs_emitted_app a b o1 o2 :
  pairs_emitted a b (o1 ++ o2)
  = (pairs_emitted a b o1 + pairs_emitted a b o2)%nat.
Proof. unfold pairs_emitted. now rewrite filter_app, length_app. Qed.

Lemma pairs_emitted_cons a b c o :
  pairs_emitted a b (c :: o)
  = ((if reports a b c then 1 else 0) + pairs_emitted a b o)%nat.
Proof. unfold pairs_emitted. simpl. now destruct (reports a b c). Qed.

(** *** Grouping *)

Lemma unit_events_push u e m :
  unit_events u (push_event e m)
  = unit_events u m ++ (if on_unit u e then [e] else []).
Proof.
  unfold on_unit. induction m as [|[k l] m IH]; simpl.
  - rewrite String.eqb_sym. now destruct (String.eqb u (unitId e)).
  - destruct (String.eqb k (unitId e)) eqn:Hk; simpl.
    + apply String.eqb_eq in Hk. subst k.
      rewrite (String.eqb_sym u). destruct (String.eqb (unitId e) u); auto.
      now rewrite app_nil_r.
    + destruct (String.eqb k u) eqn:Hu; auto.
      apply String.eqb_eq in Hu. subst k.
      rewrite Hk. now rewrite app_nil_r.
Qed.

Lemma unit_events_fold u events m :
  unit_events u (fold_left (fun m e => push_event e m) events m)
  = unit_events u m ++ filter (on_unit u) events.
Proof.
  revert m. induction events as [|e events IH]; intros m; simpl.
  - now rewrite app_nil_r.
  - rewrite IH, unit_events_push, <- app_assoc.
    now destruct (on_unit u e).
Qed.

Lemma unit_events_group u events :
  unit_events u (groupByUnit events) = filter (on_unit u) events.
Proof. unfold groupByUnit. now rewrite unit_events_fold. Qed.

Lemma keys_push e m :
  map fst (push_event e m)
  = if existsb (String.eqb (unitId e)) (map fst m) then map fst m
    else map fst m ++ [unitId e].
Proof.
  induction m as [|[k l] m IH]; simpl; auto.
  rewrite (String.eqb_sym (unitId e)).
  destruct (String.eqb k (unitId e)); simpl; auto.
  rewrite IH. now destruct (existsb _ _).
Qed.

Lemma keys_push_NoDup e m :
  NoDup (map fst m) -> NoDup (map fst (push_event e m)).
Proof.
  intros H. rewrite keys_push.
  destruct (existsb _ _) eqn:Hex; auto.
  apply NoDup_app; auto.
  - repeat constructor. intros [].
  - intros x Hx [<-|[]].
    assert (existsb (String.eqb (unitId e)) (map fst m) = true); [|congruence].
    apply existsb_exists. exists (unitId e). split; auto. apply String.eqb_refl.
Qed.

Lemma keys_group_NoDup events : NoDup (map fst (groupByUnit events)).
Proof.
  unfold groupByUnit.
  assert (H : NoDup (map fst (@nil (string * list CalendarEvent.t))))
    by constructor.
  revert H. generalize (@nil (string * list CalendarEvent.t)).
  induction events as [|e events IH]; intros m H; simpl; auto.
  apply IH. now apply keys_push_NoDup.
Qed.

Lemma unit_events_In u l m :
  NoDup (map fst m) -> In (u, l) m -> unit_events u m = l.
Proof.
  induction m as [|[k l0] m IH]; simpl; intros Hnd H; [easy|].
  destruct H as [H|H].
  - inversion H; subst. now rewrite String.eqb_refl.
  - inversion Hnd; subst. destruct (String.eqb k u) eqn:Hk; auto.
    apply String.eqb_eq in Hk. subst k. exfalso. apply H2.
    change u with (fst (u, l)). now apply in_map.
Qed.

Lemma unit_events_absent u m : ~ In u (map fst m) -> unit_events u m = [].
Proof.
  induction m as [|[k l] m IH]; simpl; intros H; auto.
  destruct (String.eqb k u) eqn:Hk.
  - apply String.eqb_eq in Hk. tauto.
  - apply IH. tauto.
Qed.

(** Every array of the unit map is the input filtered on its key. *)
Lemma group_entry u l events :
  In (u, l) (groupByUnit events) -> l = filter (on_unit u) events.
Proof.
  intros H. rewrite <- unit_events_group. symmetry.
  apply unit_events_In; auto using keys_group_NoDup.
Qed.

Lemma group_key e events :
  In e events -> In (unitId e) (map fst (groupByUnit events)).
Proof.
  intros H.
  destruct (in_dec string_dec (unitId e) (map fst (groupByUnit events)))
    as [|Hn]; auto.
  apply unit_events_absent in Hn. rewrite unit_events_group in Hn.
  assert (Hin : In e (filter (on_unit (unitId e)) events)).
  { apply filter_In. split; auto. apply String.eqb_refl. }
  rewrite Hn in Hin. destruct Hin.
Qed.

(** *** Sorting *)

Lemma insert_by_checkIn_perm e l : Permutation (insert_by_checkIn e l) (e :: l).
Proof.
  induction l as [|x r IH]; simpl; auto.
  destruct (checkIn e <=? checkIn x); auto.
  rewrite IH. apply perm_swap.
Qed.

Lemma sort_by_checkIn_perm l : Permutation (sort_by_checkIn l) l.
Proof.
  induction l as [|e r IH]; simpl; auto.
  rewrite insert_by_checkIn_perm. now constructor.
Qed.

Lemma count_occ_sort l a :
  count_occ event_eq_dec (sort_by_checkIn l) a = count_occ event_eq_dec l a.
Proof.
  revert a. apply (Permutation_count_occ event_eq_dec).
  apply sort_by_checkIn_perm.
Qed.

Lemma count_occ_filter f l a :
  count_occ event_eq_dec (filter f l) a
  = if f a then count_occ event_eq_dec l a else 0%nat.
Proof.
  induction l as [|x r IH]; simpl.
  - now destruct (f a).
  - destruct (f x) eqn:Hx; simpl; destruct (event_eq_dec x a) as [->|Hn];
      rewrite ?IH, ?Hx; auto.
Qed.

(** *** The scan *)

Lemma reports_mkConflict a b x y :
  reports a b (mkConflict x y)
  = (event_eqb x a && event_eqb y b) || (event_eqb x b && event_eqb y a).
Proof. reflexivity. Qed.

Lemma emitted_scan_from a b x r :
  a <> b ->
  pairs_emitted a b (scan_from x r)
  = if overlaps a b
    then if event_eqb x a then count_occ event_eq_dec r b
         else if event_eqb x b then count_occ event_eq_dec r a else 0%nat
    else 0%nat.
Proof.
  intros Hab. induction r as [|y r IH]; simpl.
  - unfold pairs_emitted. simpl.
    now destruct (overlaps a b), (event_eqb x a), (event_eqb x b).
  - assert (Hstep :
      pairs_emitted a b (if overlaps x y then mkConflict x y :: scan_from x r
                         else scan_from x r)
      = ((if overlaps x y && reports a b (mkConflict x y) then 1 else 0)
         + pairs_emitted a b (scan_from x r))%nat).
    { destruct (overlaps x y); simpl; auto. apply pairs_emitted_cons. }
    rewrite Hstep, IH, reports_mkConflict. clear Hstep IH.
    destruct (event_eq_dec x a) as [->|Hxa].
    + rewrite event_eqb_refl, (event_eqb_neq a b Hab). simpl.
      rewrite orb_false_r.
      destruct (event_eq_dec y b) as [->|Hyb].
      * rewrite event_eqb_refl, andb_true_r. now destruct (overlaps a b).
      * rewrite (event_eqb_neq y b Hyb), andb_false_r.
        now destruct (overlaps a b).
    + rewrite (event_eqb_neq x a Hxa). simpl.
      destruct (event_eq_dec x b) as [->|Hxb].
      * rewrite event_eqb_refl. simpl.
        destruct (event_eq_dec y a) as [->|Hya].
        -- rewrite event_eqb_refl, andb_true_r, (overlaps_sym b a).
           now destruct (overlaps a b).
        -- rewrite (event_eqb_neq y a Hya), andb_false_r.
           now destruct (overlaps a b).
      * rewrite (event_eqb_neq x b Hxb). simpl. now rewrite andb_false_r.
Qed.

Lemma emitted_scan_unit a b l :
  a <> b ->
  pairs_emitted a b (scan_unit l)
  = if overlaps a b
    then (count_occ event_eq_dec l a * count_occ event_eq_dec l b)%nat
    else 0%nat.
Proof.
  intros Hab. induction l as [|x r IH]; simpl.
  - now destruct (overlaps a b).
  - rewrite pairs_emitted_app, IH, emitted_scan_from by assumption.
    destruct (overlaps a b); auto.
    destruct (event_eq_dec x a) as [->|Hxa].
    + rewrite event_eqb_refl.
      destruct (event_eq_dec a b) as [|_]; [tauto|]. lia.
    + rewrite (event_eqb_neq x a Hxa).
      destruct (event_eq_dec x b) as [->|Hxb].
      * rewrite event_eqb_refl. lia.
      * rewrite (event_eqb_neq x b Hxb). lia.
Qed.

Lemma scan_from_In c a r :
  In c (scan_from a r) ->
  ConflictInfo.eventA c = a /\ In (ConflictInfo.eventB c) r
  /\ overlaps a (ConflictInfo.eventB c) = true
  /\ c = mkConflict a (ConflictInfo.eventB c).
Proof.
  induction r as [|b r IH]; simpl; [easy|].
  destruct (overlaps a b) eqn:Ho; simpl.
  - intros [<-|H]; simpl; auto. destruct (IH H) as (?&?&?&?). auto.
  - intros H. destruct (IH H) as (?&?&?&?). auto.
Qed.

Lemma scan_unit_In c l :
  In c (scan_unit l) ->
  In (ConflictInfo.eventA c) l /\ In (ConflictInfo.eventB c) l
  /\ overlaps (ConflictInfo.eventA c) (ConflictInfo.eventB c) = true
  /\ c = mkConflict (ConflictInfo.eventA c) (ConflictInfo.eventB c)
  /\ (NoDup l -> ConflictInfo.eventA c <> ConflictInfo.eventB c).
Proof.
  induction l as [|a r IH]; simpl; [easy|].
  intros H. apply in_app_or in H. destruct H as [H|H].
  - apply scan_from_In in H. destruct H as (Ha&Hb&Ho&Hc).
    rewrite Ha. repeat split; auto.
    intros Hnd Heq. inversion Hnd; subst. congruence.
  - destruct (IH H) as (Ha&Hb&Ho&Hc&Hn). repeat split; auto.
    intros Hnd. inversion Hnd; auto.
Qed.

Lemma emitted_flat_map a b (f : string * list CalendarEvent.t -> _) m :
  pairs_emitted a b (flat_map f m)
  = list_sum (map (fun ul => pairs_emitted a b (f ul)) m).
Proof.
  induction m as [|ul m IH]; simpl; auto.
  now rewrite pairs_emitted_app, IH.
Qed.

Lemma list_sum_indicator (u : string) (n : nat) m
      (g : string * list CalendarEvent.t -> nat) :
  NoDup (map fst m) ->
  (forall ul, In ul m -> g ul = if String.eqb (fst ul) u then n else 0%nat) ->
  list_sum (map g m) = if existsb (String.eqb u) (map fst m) then n else 0%nat.
Proof.
  induction m as [|[k l] m IH]; simpl; intros Hnd Hg; auto.
  inversion Hnd; subst.
  rewrite (Hg (k, l)) by auto. simpl.
  rewrite IH by auto. rewrite (String.eqb_sym u k).
  destruct (String.eqb k u) eqn:Hk; simpl; auto.
  apply String.eqb_eq in Hk. subst k.
  destruct (existsb (String.eqb u) (map fst m)) eqn:Hex; [|lia].
  apply existsb_exists in Hex. destruct Hex as (x & Hx & Hxu).
  apply String.eqb_eq in Hxu. subst x. tauto.
Qed.

(** *** The detector *)

(** Without any assumption on the input: the number of conflicts emitted
    for two different events is the product of their multiplicities when
    they share a unit and overlap, and zero otherwise. *)
Lemma emitted_detectConflicts a b events :
  a <> b ->
  pairs_emitted a b (detectConflicts events)
  = if same_unit a b && overlaps a b
    then (count_occ event_eq_dec events a * count_occ event_eq_dec events b)%nat
    else 0%nat.
Proof.
  intros Hab. unfold detectConflicts. rewrite emitted_flat_map.
  rewrite (list_sum_indicator (unitId a)
             (if same_unit a b && overlaps a b
              then (count_occ event_eq_dec events a
                    * count_occ event_eq_dec events b)%nat
              else 0%nat)).
  - destruct (existsb (String.eqb (unitId a)) (map fst (groupByUnit events)))
      eqn:Hex; auto.
    destruct (in_dec event_eq_dec a events) as [Hin|Hin].
    + apply group_key in Hin.
      assert (existsb (String.eqb (unitId a)) (map fst (groupByUnit events))
              = true); [|congruence].
      apply existsb_exists. exists (unitId a). split; auto.
      apply String.eqb_refl.
    + apply (count_occ_not_In event_eq_dec) in Hin. rewrite Hin.
      now destruct (same_unit a b && overlaps a b).
  - apply keys_group_NoDup.
  - intros [u l] Hul. simpl.
    apply group_entry in Hul. subst l.
    rewrite emitted_scan_unit by assumption.
    rewrite !count_occ_sort, !count_occ_filter. unfold on_unit, same_unit.
    destruct (String.eqb u (unitId a)) eqn:Hu.
    + apply String.eqb_eq in Hu. subst u.
      destruct (String.eqb (unitId a) (unitId b)), (overlaps a b); simpl; lia.
    + now destruct (overlaps a b).
Qed.

Lemma detectConflicts_In c events :
  In c (detectConflicts events) ->
  In (ConflictInfo.eventA c) events /\ In (ConflictInfo.eventB c) events
  /\ same_unit (ConflictInfo.eventA c) (ConflictInfo.eventB c) = true
  /\ overlaps (ConflictInfo.eventA c) (ConflictInfo.eventB c) = true
  /\ c = mkConflict (ConflictInfo.eventA c) (ConflictInfo.eventB c)
  /\ (NoDup events -> ConflictInfo.eventA c <> ConflictInfo.eventB c).
Proof.
  unfold detectConflicts. intros H. apply in_flat_map in H.
  destruct H as ([u l] & Hul & Hc). simpl in Hc.
  apply group_entry in Hul. subst l.
  apply scan_unit_In in Hc. destruct Hc as (Ha & Hb & Ho & Hc & Hn).
  apply (Permutation_in _ (sort_by_checkIn_perm _)) in Ha, Hb.
  apply filter_In in Ha, Hb. destruct Ha as [Ha Hua], Hb as [Hb Hub].
  unfold on_unit in Hua, Hub. apply String.eqb_eq in Hua, Hub.
  repeat split; auto.
  - unfold same_unit. rewrite <- Hua, <- Hub. apply String.eqb_refl.
  - intros Hnd. apply Hn.
    apply (Permutation_NoDup (Permutation_sym (sort_by_checkIn_perm _))).
    now apply NoDup_filter.
Qed.

(** C1. On a list of distinct events, [detectConflicts] emits exactly one
    conflict for each unordered pair of events of the same unit whose
    intervals overlap half-open ([startA < endB] and [startB < endA]) and
    none for any other pair; in particular none for two events that only
    share an endpoint, and none for events of different units.  Every
    emitted conflict pairs two different input events of one unit that
    overlap, and carries the intersection
    [[max(startA, startB), min(endA, endB))]. *)
Theorem detectConflicts_exactly_overlapping_pairs events :
  NoDup events ->
  let out := detectConflicts events in
  (forall a b, In a events -> In b events -> a <> b ->
     pairs_emitted a b out
     = if same_unit a b
          && ((checkIn a <? checkOut b) && (checkIn b <? checkOut a))
       then 1%nat else 0%nat)
  /\ (forall a b, In a events -> In b events -> a <> b ->
        checkOut a = checkIn b -> pairs_emitted a b out = 0%nat)
  /\ (forall a b, In a events -> In b events ->
        unitId a <> unitId b -> pairs_emitted a b out = 0%nat)
  /\ (forall c, In c out ->
        let a := ConflictInfo.eventA c in
        let b := ConflictInfo.eventB c in
        In a events /\ In b events /\ a <> b
        /\ unitId a = unitId b
        /\ checkIn a < checkOut b /\ checkIn b < checkOut a
        /\ ConflictInfo.overlapStart c = Z.max (checkIn a) (checkIn b)
        /\ ConflictInfo.overlapEnd c = Z.min (checkOut a) (checkOut b)).
Proof.
  intros Hnd out.
  assert (Hone : forall a b, In a events -> In b events -> a <> b ->
            pairs_emitted a b out
            = if same_unit a b && overlaps a b then 1%nat else 0%nat).
  { intros a b Ha Hb Hab. unfold out.
    rewrite emitted_detectConflicts by assumption.
    rewrite !(proj1 (NoDup_count_occ' event_eq_dec events) Hnd) by assumption.
    reflexivity. }
  split; [exact Hone|]. split; [|split].
  - intros a b Ha Hb Hab Hadj. rewrite Hone by assumption.
    unfold overlaps. rewrite Hadj, Z.ltb_irrefl, andb_false_r, andb_false_r.
    reflexivity.
  - intros a b Ha Hb Hu.
    assert (Hab : a <> b) by congruence.
    rewrite Hone by assumption. unfold same_unit.
    apply String.eqb_neq in Hu. now rewrite Hu.
  - intros c Hc a b. apply detectConflicts_In in Hc.
    destruct Hc as (Ha & Hb & Hu & Ho & Hc & Hn).
    fold a in Ha, Hu, Ho, Hc, Hn. fold b in Hb, Hu, Ho, Hc, Hn.
    unfold same_unit in Hu. apply String.eqb_eq in Hu.
    unfold overlaps in Ho. apply andb_true_iff in Ho.
    destruct Ho as [Ho1 Ho2]. apply Z.ltb_lt in Ho1, Ho2.
    repeat split; auto; rewrite Hc; reflexivity.
Qed.
End ConflictDetector.

(** ** The reconciler *)

Section Reconciler.
Import Db ICalAdapter.

Lemma db_no_faults {A} (m : M A) w : World.faults w = [] -> db m w = m w.
Proof. unfold db. now intros ->. Qed.

Lemma same_frame_refl w : same_frame w w.
Proof. repeat split. Qed.

Lemma same_frame_trans w1 w2 w3 :
  same_frame w1 w2 -> same_frame w2 w3 -> same_frame w1 w3.
Proof. unfold same_frame. intuition congruence. Qed.

Lemma update_row_find id ci co g rows :
  update_row id ci co g rows = None ->
  forall r, In r rows -> Reservation.id r <> id.
Proof.
  induction rows as [|x rows IH]; simpl; [easy|].
  destruct (Nat.eqb (Reservation.id x) id) eqn:Hx; [discriminate|].
  destruct (update_row id ci co g rows); [discriminate|].
  intros _ r [<-|Hr]; auto. now apply Nat.eqb_neq.
Qed.

(** One iteration either completes, with the effect of [Pure.step], or
    throws on a store fault before any write. *)
Lemma processEvent_outcome mapping unitId event counts w :
  let ch := ChannelMappingInput.channel mapping in
  match processEvent mapping unitId event counts w with
  | Ok counts' w' =>
      Pure.of_world w' counts'
      = Pure.step ch unitId event (Pure.of_world w counts)
      /\ same_frame w w'
      /\ (World.faults w = [] -> World.faults w' = [])
  | Throw _ w' =>
      World.reservations w' = World.reservations w
      /\ World.nextId w' = World.nextId w
      /\ same_frame w w'
      /\ World.faults w <> []
  end.
Proof.
  destruct counts as [c u]. destruct w as [rs bl sl ps us ms nid uu rq sch fs].
  unfold processEvent, Pure.step, Pure.of_world, bind, reservation_findFirst,
    reservation_update, reservation_create, db, ret, same_frame, Pure.changed.
  simpl.
  set (key := matches_key (ChannelMappingInput.channel mapping)
                (externalIdOf (ChannelMappingInput.channel mapping)
                   (ICalEvent.uid event))).
  assert (Hnone : forall ex, find key rs = Some ex ->
            update_row (Reservation.id ex) (ICalEvent.dtstart event)
              (ICalEvent.dtend event)
              (or_default (ICalEvent.summary event) "Guest") rs <> None).
  { intros ex Hf Hu. apply find_some in Hf. destruct Hf as [Hin _].
    now apply (update_row_find _ _ _ _ _ Hu ex Hin). }
  destruct fs as [|[e|] [|[e'|] fs]]; simpl;
    destruct (find key rs) as [ex|] eqn:Hf; simpl;
    try (destruct (negb (Reservation.checkIn ex =? ICalEvent.dtstart event)
                   || negb (Reservation.checkOut ex =? ICalEvent.dtend event));
         simpl);
    try (specialize (Hnone ex eq_refl);
         destruct (update_row _ _ _ _ rs) as [rows'|]; [|congruence]; simpl);
    repeat split; intros; try discriminate; auto.
Qed.

Lemma steps_app ch u done rest s :
  Pure.steps ch u (done ++ rest) s = Pure.steps ch u rest (Pure.steps ch u done s).
Proof. unfold Pure.steps. apply fold_left_app. Qed.

(** The loop either completes every iteration, or throws on a store fault
    after completing the iterations of a strict prefix of the events. *)
Lemma processEvents_outcome mapping unitId events counts w :
  let ch := ChannelMappingInput.channel mapping in
  match processEvents mapping unitId events counts w with
  | Ok counts' w' =>
      Pure.of_world w' counts'
      = Pure.steps ch unitId events (Pure.of_world w counts)
      /\ same_frame w w'
      /\ (World.faults w = [] -> World.faults w' = [])
  | Throw _ w' =>
      (exists done rest counts',
          events = done ++ rest /\ rest <> []
          /\ Pure.of_world w' counts'
             = Pure.steps ch unitId done (Pure.of_world w counts))
      /\ same_frame w w'
      /\ World.faults w <> []
  end.
Proof.
  intros ch. revert counts w.
  induction events as [|e events IH]; intros counts w; simpl.
  - unfold ret. split; [reflexivity|]. split; auto using same_frame_refl.
  - unfold bind.
    pose proof (processEvent_outcome mapping unitId e counts w) as H1.
    simpl in H1. fold ch in H1.
    destruct (processEvent mapping unitId e counts w) as [c1 w1|ex w1].
    + destruct H1 as (Hs & Hf & Hq).
      specialize (IH c1 w1).
      destruct (processEvents mapping unitId events c1 w1) as [c2 w2|ex w2].
      * destruct IH as (Hs2 & Hf2 & Hq2). rewrite Hs2, Hs.
        split; [reflexivity|]. split; eauto using same_frame_trans.
      * destruct IH as ((done & rest & c' & He & Hr & Hs2) & Hf2 & Hq2).
        split; [|split]; eauto using same_frame_trans.
        exists (e :: done), rest, c'. subst events.
        split; [reflexivity|]. split; [assumption|].
        rewrite Hs2, Hs. reflexivity.
    + destruct H1 as (Hr & Hn & Hf & Hq). split; [|split]; auto.
      exists [], (e :: events), counts.
      split; [reflexivity|]. split; [discriminate|].
      unfold Pure.of_world. simpl. now rewrite Hr, Hn.
Qed.

(** Parsing never throws and touches nothing but the counter of the
    generated uids. *)
Lemma parse_vevents_total env vevents w :
  exists events n,
    parse_vevents env vevents w = Ok events (World.set_uuids n w).
Proof.
  revert w. induction vevents as [|v vevents IH]; intros w; simpl.
  - exists [], (World.uuids w). unfold ret. now destruct w.
  - destruct (VEvent.startDate v) as [sd|]; [|apply IH].
    destruct (VEvent.endDate v) as [ed|]; [|apply IH].
    unfold bind. destruct (falsy (VEvent.uid v)).
    + unfold randomUUID.
      destruct (IH (World.set_uuids (S (World.uuids w)) w)) as (evs & n & ->).
      eexists _, n. unfold ret. now destruct w.
    + unfold ret at 1. destruct (IH w) as (evs & n & ->).
      eexists _, n. reflexivity.
Qed.

Lemma parseICalData_total env icalData w :
  exists events n,
    parseICalData env icalData w = Ok events (World.set_uuids n w).
Proof.
  unfold parseICalData. destruct (Env.ICAL_parse env icalData).
  - exists [], (World.uuids w). unfold ret. now destruct w.
  - apply parse_vevents_total.
Qed.


(** [syncCalendar], path by path. *)
Lemma syncCalendar_eq env mapping unitId w :
  syncCalendar env mapping unitId w =
  match or_null (ChannelMappingInput.iCalUrl mapping) with
  | None => Ok (failure "No iCal URL configured") w
  | Some url =>
      let w1 := World.set_requests (World.requests w ++ [url]) w in
      match Env.network env url with
      | FetchRejects e => sync_failed env mapping e w1
      | FetchResponse status body =>
          if response_ok status then
            match parseICalData env body w1 with
            | Ok events w2 =>
                match processEvents mapping unitId events (0, 0)%nat w2 with
                | Ok counts w3 =>
                    match sync_succeeded env mapping (List.length events)
                            counts w3 with
                    | Ok r w4 => Ok r w4
                    | Throw e w4 => sync_failed env mapping e w4
                    end
                | Throw e w3 => sync_failed env mapping e w3
                end
            | Throw e w2 => sync_failed env mapping e w2
            end
          else
            sync_failed env mapping
              (JsError ("Failed to fetch iCal: " ++ string_of_Z status)) w1
      end
  end.
Proof.
  unfold syncCalendar.
  destruct (or_null (ChannelMappingInput.iCalUrl mapping)) as [url|];
    [|reflexivity].
  unfold try_catch, bind at 1, fetch.
  destruct (Env.network env url) as [e|status body]; [reflexivity|].
  cbv beta iota. cbn [fst snd].
  destruct (response_ok status); cbn [negb]; [|reflexivity].
  unfold bind at 1.
  destruct (parseICalData env body _) as [events w2|e w2]; [|reflexivity].
  unfold bind.
  destruct (processEvents mapping unitId events (0, 0)%nat w2)
    as [counts w3|e w3]; reflexivity.
Qed.

Lemma syncLog_create_table log w :
  World.reservations (after (syncLog_create log w)) = World.reservations w
  /\ World.nextId (after (syncLog_create log w)) = World.nextId w.
Proof.
  unfold syncLog_create, db.
  destruct (World.faults w) as [|[e|] fs]; simpl; auto.
Qed.

Lemma sync_failed_outcome env mapping e w :
  let o := sync_failed env mapping e w in
  World.reservations (after o) = World.reservations w
  /\ World.nextId (after o) = World.nextId w
  /\ forall r, returned o = Some r -> r = failure (errorMessage e).
Proof.
  unfold sync_failed, bind. cbv zeta.
  match goal with |- context [syncLog_create ?l w] =>
    destruct (syncLog_create_table l w) as [H1 H2];
    destruct (syncLog_create l w) as [[] w'|e' w']
  end; unfold ret; simpl in *; repeat split; auto; intros r [= <-]; auto.
Qed.

Lemma sync_succeeded_outcome env mapping n counts w :
  let o := sync_succeeded env mapping n counts w in
  World.reservations (after o) = World.reservations w
  /\ World.nextId (after o) = World.nextId w
  /\ forall r, returned o = Some r ->
       r = CalendarSyncResult.mk true n (fst counts) (snd counts)
             (fst counts) (snd counts) None.
Proof.
  destruct counts as [c u]. unfold sync_succeeded, bind. cbv zeta.
  match goal with |- context [syncLog_create ?l w] =>
    destruct (syncLog_create_table l w) as [H1 H2];
    destruct (syncLog_create l w) as [[] w'|e' w']
  end; unfold ret; simpl in *; repeat split; auto; intros r [= <-]; auto.
Qed.

(** A run of [syncCalendar], whatever the store faults, leaves the
    reservation table as the completed iterations of a prefix of the
    fetched events leave it; a result with [success] set reports the
    counters of all the iterations, any other result reports zero. *)
Lemma syncCalendar_outcome env mapping unitId w :
  let o := syncCalendar env mapping unitId w in
  exists done rest,
    fetched_events env mapping w = done ++ rest
    /\ let s := Pure.steps (ChannelMappingInput.channel mapping) unitId done
                  (Pure.of_world w (0, 0)%nat) in
       World.reservations (after o) = Pure.rows s
       /\ World.nextId (after o) = Pure.nextId s
       /\ forall r, returned o = Some r ->
            (rest = []
             /\ r = CalendarSyncResult.mk true (List.length done)
                      (Pure.created s) (Pure.updated s)
                      (Pure.created s) (Pure.updated s) None)
            \/ (exists msg, r = failure msg).
Proof.
  cbv zeta. rewrite syncCalendar_eq. unfold fetched_events.
  destruct (or_null (ChannelMappingInput.iCalUrl mapping)) as [url|].
  2:{ exists [], []. simpl. repeat split. intros r [= <-]. right. eauto. }
  cbv zeta.
  set (w1 := World.set_requests (World.requests w ++ [url]) w).
  assert (Hfail : forall e w2,
            World.reservations w2 = World.reservations w ->
            World.nextId w2 = World.nextId w ->
            let o := sync_failed env mapping e w2 in
            World.reservations (after o) = World.reservations w
            /\ World.nextId (after o) = World.nextId w
            /\ forall r, returned o = Some r ->
                 (@nil ICalEvent.t = []
                  /\ r = CalendarSyncResult.mk true 0 0 0 0 0 None)
                 \/ exists msg, r = failure msg).
  { intros e w2 Hr Hn.
    destruct (sync_failed_outcome env mapping e w2) as (H1 & H2 & H3).
    cbv zeta. rewrite H1, H2. repeat split; auto;
      intros r Hret; right; eauto. }
  destruct (Env.network env url) as [e|status body].
  { exists [], []. split; [reflexivity|]. now apply Hfail. }
  destruct (response_ok status).
  2:{ exists [], []. split; [reflexivity|]. now apply Hfail. }
  destruct (parseICalData_total env body w1) as (events & n & Hp).
  rewrite Hp.
  set (w2 := World.set_uuids n w1).
  pose proof (processEvents_outcome mapping unitId events (0, 0)%nat w2)
    as Hloop. cbv zeta in Hloop.
  change (Pure.of_world w2 (0, 0)%nat) with (Pure.of_world w (0, 0)%nat)
    in Hloop.
  destruct (processEvents mapping unitId events (0, 0)%nat w2)
    as [counts w3|e w3].
  - destruct Hloop as (Hs & _ & _).
    exists events, []. rewrite app_nil_r. split; [reflexivity|].
    rewrite <- Hs.
    destruct (sync_succeeded_outcome env mapping (List.length events)
                counts w3) as (H1 & H2 & H3).
    destruct (sync_succeeded env mapping (List.length events) counts w3)
      as [r w4|e w4]; simpl in H1, H2, H3.
    + simpl. repeat split; auto; intros r' [= <-]; left; split; auto.
    + destruct (sync_failed_outcome env mapping e w4) as (H4 & H5 & H6).
      rewrite H4, H5. simpl. repeat split; auto;
        intros r Hret; right; eauto.
  - destruct Hloop as ((done & rest & c' & He & Hr & Hs) & _ & _).
    exists done, rest. split; [assumption|].
    rewrite <- Hs.
    destruct (sync_failed_outcome env mapping e w3) as (H4 & H5 & H6).
    rewrite H4, H5. simpl. repeat split; auto;
      intros r Hret; right; eauto.
Qed.

Lemma processEvents_returns mapping unitId events counts w :
  World.faults w = [] ->
  exists counts' w',
    processEvents mapping unitId events counts w = Ok counts' w'
    /\ World.faults w' = [].
Proof.
  intros Hf.
  pose proof (processEvents_outcome mapping unitId events counts w) as H.
  cbv zeta in H.
  destruct (processEvents mapping unitId events counts w) as [c' w'|e w'].
  - exists c', w'. split; [reflexivity|]. now apply H.
  - now destruct H as (_ & _ & H).
Qed.

Lemma syncLog_create_no_faults log w :
  World.faults w = [] ->
  syncLog_create log w
  = Ok tt (World.set_syncLogs (World.syncLogs w ++ [log]) w).
Proof. intros Hf. unfold syncLog_create. now rewrite db_no_faults. Qed.

(** With a store that does not fail, [syncCalendar] returns a result. *)
Lemma syncCalendar_returns env mapping unitId w :
  World.faults w = [] ->
  exists r w',
    syncCalendar env mapping unitId w = Ok r w' /\ World.faults w' = [].
Proof.
  intros Hf. rewrite syncCalendar_eq.
  assert (Hfail : forall e w2, World.faults w2 = [] ->
            exists r w', sync_failed env mapping e w2 = Ok r w'
                         /\ World.faults w' = []).
  { intros e w2 H2. unfold sync_failed, bind.
    rewrite syncLog_create_no_faults by assumption.
    eexists _, _. split; [reflexivity|]. exact H2. }
  destruct (or_null (ChannelMappingInput.iCalUrl mapping)) as [url|];
    [|eauto].
  cbv zeta.
  destruct (Env.network env url) as [e|status body]; [now apply Hfail|].
  destruct (response_ok status); [|now apply Hfail].
  destruct (parseICalData_total env body
              (World.set_requests (World.requests w ++ [url]) w))
    as (events & n & ->).
  destruct (processEvents_returns mapping unitId events (0, 0)%nat
              (World.set_uuids n
                 (World.set_requests (World.requests w ++ [url]) w)) Hf)
    as ([c u] & w3 & -> & H3).
  unfold sync_succeeded, bind.
  rewrite syncLog_create_no_faults by assumption.
  eexists _, _. split; [reflexivity|]. exact H3.
Qed.

(** *** Idempotence *)

Lemma step_unchanged ch u e s :
  stored_unchanged ch (Pure.rows s) e = true -> Pure.step ch u e s = s.
Proof.
  unfold stored_unchanged, Pure.step, Pure.changed.
  destruct (find _ (Pure.rows s)) as [r|]; [|discriminate].
  intros H. apply andb_true_iff in H. destruct H as [-> ->]. reflexivity.
Qed.

Lemma steps_unchanged ch u events s :
  (forall e, In e events -> stored_unchanged ch (Pure.rows s) e = true) ->
  Pure.steps ch u events s = s.
Proof.
  unfold Pure.steps. induction events as [|e events IH]; simpl; auto.
  intros H. rewrite step_unchanged by auto. auto.
Qed.

(** C2. When every fetched event is stored under its key with the dates
    the feed gives it, a run of [syncCalendar] writes no reservation,
    whatever the store faults, and every result it returns reports zero
    created and zero updated events; with a store that does not fail it
    does return a result. *)
Theorem syncCalendar_idempotent env mapping unitId w :
  (forall e, In e (fetched_events env mapping w) ->
     stored_unchanged (ChannelMappingInput.channel mapping)
       (World.reservations w) e = true) ->
  let o := syncCalendar env mapping unitId w in
  World.reservations (after o) = World.reservations w
  /\ (forall r, returned o = Some r ->
        CalendarSyncResult.eventsCreated r = 0%nat
        /\ CalendarSyncResult.eventsUpdated r = 0%nat
        /\ CalendarSyncResult.added r = 0%nat
        /\ CalendarSyncResult.updated r = 0%nat)
  /\ (World.faults w = [] -> exists r, returned o = Some r).
Proof.
  intros Hall o.
  destruct (syncCalendar_outcome env mapping unitId w)
    as (done & rest & Hev & Hrows & _ & Hres).
  fold o in Hrows, Hres.
  rewrite steps_unchanged in Hrows, Hres.
  2,3: intros e He; apply Hall; rewrite Hev; apply in_or_app; now left.
  split; [exact Hrows|]. split.
  - intros r Hr. destruct (Hres r Hr) as [[_ ->]|[msg ->]]; simpl; auto.
  - intros Hf.
    destruct (syncCalendar_returns env mapping unitId w Hf) as (r & w' & H & _).
    exists r. unfold o. now rewrite H.
Qed.

(** *** Deduplication *)

Lemma matches_key_with_data c x ci co g r :
  matches_key c x (with_data ci co g r) = matches_key c x r.
Proof. reflexivity. Qed.

Lemma update_row_count id ci co g rows rows' c x :
  update_row id ci co g rows = Some rows' ->
  count_key c x rows' = count_key c x rows.
Proof.
  unfold count_key. revert rows'.
  induction rows as [|r rows IH]; simpl; intros rows'; [discriminate|].
  destruct (Nat.eqb (Reservation.id r) id).
  - intros [= <-]. simpl. rewrite matches_key_with_data.
    now destruct (matches_key c x r).
  - destruct (update_row id ci co g rows) as [rest'|]; [|discriminate].
    intros [= <-]. simpl. specialize (IH rest' eq_refl).
    destruct (matches_key c x r); simpl; auto.
Qed.

Lemma update_row_first id ci co g rows rows' c x :
  update_row id ci co g rows = Some rows' ->
  option_map Reservation.id (find (matches_key c x) rows')
  = option_map Reservation.id (find (matches_key c x) rows).
Proof.
  revert rows'.
  induction rows as [|r rows IH]; simpl; intros rows'; [discriminate|].
  destruct (Nat.eqb (Reservation.id r) id).
  - intros [= <-]. simpl. rewrite matches_key_with_data.
    destruct (matches_key c x r); reflexivity.
  - destruct (update_row id ci co g rows) as [rest'|]; [|discriminate].
    intros [= <-]. simpl. specialize (IH rest' eq_refl).
    destruct (matches_key c x r); simpl; auto.
Qed.

Lemma count_key_none c x rows :
  find (matches_key c x) rows = None -> count_key c x rows = 0%nat.
Proof.
  unfold count_key. induction rows as [|r rows IH]; simpl; auto.
  destruct (matches_key c x r); [discriminate|auto].
Qed.

Lemma find_app_first {A} (f : A -> bool) l1 l2 :
  find f (l1 ++ l2)
  = match find f l1 with
    | Some a => Some a
    | None => find f l2
    end.
Proof.
  induction l1 as [|a l1 IH]; simpl; auto. now destruct (f a).
Qed.

Lemma count_key_app c x rows1 rows2 :
  count_key c x (rows1 ++ rows2)
  = (count_key c x rows1 + count_key c x rows2)%nat.
Proof. unfold count_key. now rewrite filter_app, length_app. Qed.

Lemma matches_key_new c x id u ch e :
  matches_key c x (Pure.new_row id u ch e) = true ->
  ch = c /\ externalIdOf ch (ICalEvent.uid e) = x.
Proof.
  unfold matches_key, Pure.new_row. simpl. intros H.
  apply andb_true_iff in H. destruct H as [H1 H2].
  apply String.eqb_eq in H1, H2. auto.
Qed.

(** One iteration never brings a key above one reservation, and leaves
    the first reservation of a key the first one. *)
Lemma step_dedup ch u e s c x :
  (count_key c x (Pure.rows (Pure.step ch u e s))
   <= Nat.max 1 (count_key c x (Pure.rows s)))%nat
  /\ (forall id,
        option_map Reservation.id (find (matches_key c x) (Pure.rows s))
        = Some id ->
        option_map Reservation.id
          (find (matches_key c x) (Pure.rows (Pure.step ch u e s)))
        = Some id).
Proof.
  unfold Pure.step.
  destruct (find _ (Pure.rows s)) as [ex|] eqn:Hf.
  - destruct (Pure.changed ex e); [|split; [lia|auto]].
    destruct (update_row _ _ _ _ (Pure.rows s)) as [rows'|] eqn:Hu;
      [|split; [lia|auto]].
    cbn [Pure.rows]. rewrite (update_row_count _ _ _ _ _ _ c x Hu).
    rewrite (update_row_first _ _ _ _ _ _ c x Hu). split; [lia|auto].
  - cbn [Pure.rows]. rewrite count_key_app. split.
    + unfold count_key at 2. cbn [filter].
      destruct (matches_key c x (Pure.new_row _ u ch e)) eqn:Hm;
        cbn [List.length]; [|lia].
      apply matches_key_new in Hm. destruct Hm as [<- <-].
      rewrite (count_key_none _ _ _ Hf). lia.
    + intros id Hid. rewrite find_app_first.
      destruct (find (matches_key c x) (Pure.rows s)); [exact Hid|discriminate].
Qed.

Lemma steps_dedup ch u events s c x :
  (count_key c x (Pure.rows (Pure.steps ch u events s))
   <= Nat.max 1 (count_key c x (Pure.rows s)))%nat
  /\ (forall id,
        option_map Reservation.id (find (matches_key c x) (Pure.rows s))
        = Some id ->
        option_map Reservation.id
          (find (matches_key c x) (Pure.rows (Pure.steps ch u events s)))
        = Some id).
Proof.
  unfold Pure.steps. revert s.
  induction events as [|e events IH]; intros s; cbn [fold_left];
    [split; [lia|auto]|].
  destruct (IH (Pure.step ch u e s)) as [H1 H2].
  destruct (step_dedup ch u e s c x) as [H3 H4].
  split; [lia|auto].
Qed.

Lemma syncCalendar_dedup env mapping unitId w c x :
  let w' := after (syncCalendar env mapping unitId w) in
  (count_key c x (World.reservations w')
   <= Nat.max 1 (count_key c x (World.reservations w)))%nat
  /\ (forall id,
        option_map Reservation.id
          (find (matches_key c x) (World.reservations w)) = Some id ->
        option_map Reservation.id
          (find (matches_key c x) (World.reservations w')) = Some id).
Proof.
  destruct (syncCalendar_outcome env mapping unitId w)
    as (done & rest & _ & Hrows & _).
  cbv zeta. rewrite Hrows.
  apply (steps_dedup (ChannelMappingInput.channel mapping) unitId done
           (Pure.of_world w (0, 0)%nat) c x).
Qed.

(** *** Update and creation *)

Lemma find_split {A} (f : A -> bool) l a :
  find f l = Some a ->
  exists l1 l2, l = l1 ++ a :: l2 /\ forall x, In x l1 -> f x = false.
Proof.
  induction l as [|x l IH]; simpl; [discriminate|].
  destruct (f x) eqn:Hx.
  - intros [= ->]. exists [], l. split; [reflexivity|]. intros ? [].
  - intros H. destruct (IH H) as (l1 & l2 & -> & Hl1).
    exists (x :: l1), l2. split; [reflexivity|].
    intros y [<-|Hy]; auto.
Qed.

Lemma update_row_split ci co g l1 r l2 :
  NoDup (map Reservation.id (l1 ++ r :: l2)) ->
  update_row (Reservation.id r) ci co g (l1 ++ r :: l2)
  = Some (l1 ++ with_data ci co g r :: l2).
Proof.
  induction l1 as [|x l1 IH]; simpl; intros Hnd.
  - now rewrite Nat.eqb_refl.
  - inversion Hnd as [|? ? Hx Hnd']; subst.
    destruct (Nat.eqb (Reservation.id x) (Reservation.id r)) eqn:Hid.
    + exfalso. apply Hx. apply Nat.eqb_eq in Hid. rewrite Hid.
      rewrite map_app. apply in_or_app. right. now left.
    + now rewrite IH.
Qed.

Lemma processEvent_found mapping unitId event counts w existing :
  World.faults w = [] ->
  find (matches_key (ChannelMappingInput.channel mapping)
          (externalIdOf (ChannelMappingInput.channel mapping)
             (ICalEvent.uid event)))
       (World.reservations w) = Some existing ->
  processEvent mapping unitId event counts w
  = if Pure.changed existing event then
      match update_row (Reservation.id existing) (ICalEvent.dtstart event)
              (ICalEvent.dtend event)
              (or_default (ICalEvent.summary event) "Guest")
              (World.reservations w) with
      | Some rows => Ok (fst counts, S (snd counts))
                        (World.set_reservations rows w)
      | None => Throw (JsError "Record to update not found.") w
      end
    else Ok counts w.
Proof.
  intros Hf Hfind. destruct counts as [c u].
  unfold processEvent, bind, reservation_findFirst.
  rewrite db_no_faults by assumption. rewrite Hfind.
  unfold Pure.changed.
  destruct (negb (Reservation.checkIn existing =? ICalEvent.dtstart event)
            || negb (Reservation.checkOut existing =? ICalEvent.dtend event));
    [|reflexivity].
  unfold reservation_update. rewrite db_no_faults by assumption.
  destruct (update_row _ _ _ _ (World.reservations w)); reflexivity.
Qed.

Lemma processEvent_absent mapping unitId event counts w :
  World.faults w = [] ->
  find (matches_key (ChannelMappingInput.channel mapping)
          (externalIdOf (ChannelMappingInput.channel mapping)
             (ICalEvent.uid event)))
       (World.reservations w) = None ->
  processEvent mapping unitId event counts w
  = Ok (S (fst counts), snd counts)
       (World.set_nextId (S (World.nextId w))
          (World.set_reservations
             (World.reservations w
              ++ [Pure.new_row (World.nextId w) unitId
                    (ChannelMappingInput.channel mapping) event]) w)).
Proof.
  intros Hf Hfind. destruct counts as [c u].
  unfold processEvent, bind, reservation_findFirst.
  rewrite db_no_faults by assumption. rewrite Hfind.
  unfold reservation_create. rewrite db_no_faults by assumption.
  reflexivity.
Qed.

Lemma changed_true existing event :
  Pure.changed existing event = true
  <-> Reservation.checkIn existing <> ICalEvent.dtstart event
      \/ Reservation.checkOut existing <> ICalEvent.dtend event.
Proof.
  unfold Pure.changed. rewrite orb_true_iff, !negb_true_iff, !Z.eqb_neq.
  tauto.
Qed.

Lemma changed_false existing event :
  Pure.changed existing event = false
  <-> Reservation.checkIn existing = ICalEvent.dtstart event
      /\ Reservation.checkOut existing = ICalEvent.dtend event.
Proof.
  unfold Pure.changed. rewrite orb_false_iff, !negb_false_iff, !Z.eqb_eq.
  tauto.
Qed.

(** C6, as the code has it.  For a fetched event whose key matches a
    stored reservation (on a store that does not fail and whose ids are
    unique): when check-in or check-out differ, the reservation is
    updated in place, its check-in, check-out and guest name set from the
    event, and the updated count grows by one; when both dates are the
    same nothing is written and no count changes, whatever the title. *)
Theorem existing_updated_when_dates_differ mapping unitId event counts w
        existing :
  World.faults w = [] ->
  NoDup (map Reservation.id (World.reservations w)) ->
  find (matches_key (ChannelMappingInput.channel mapping)
          (externalIdOf (ChannelMappingInput.channel mapping)
             (ICalEvent.uid event)))
       (World.reservations w) = Some existing ->
  (Reservation.checkIn existing <> ICalEvent.dtstart event
   \/ Reservation.checkOut existing <> ICalEvent.dtend event ->
   exists before behind,
     World.reservations w = before ++ existing :: behind
     /\ processEvent mapping unitId event counts w
        = Ok (fst counts, S (snd counts))
             (World.set_reservations
                (before
                 ++ with_data (ICalEvent.dtstart event) (ICalEvent.dtend event)
                      (or_default (ICalEvent.summary event) "Guest") existing
                 :: behind) w))
  /\ (Reservation.checkIn existing = ICalEvent.dtstart event
      /\ Reservation.checkOut existing = ICalEvent.dtend event ->
      processEvent mapping unitId event counts w = Ok counts w).
Proof.
  intros Hf Hnd Hfind.
  rewrite (processEvent_found _ _ _ _ _ _ Hf Hfind). split.
  - intros Hch. apply changed_true in Hch. rewrite Hch.
    destruct (find_split _ _ _ Hfind) as (l1 & l2 & Hrows & _).
    exists l1, l2. split; [assumption|].
    rewrite Hrows in Hnd |- *. now rewrite update_row_split.
  - intros Heq. apply changed_false in Heq. now rewrite Heq.
Qed.

(** *** A second run on the same feed *)

Lemma externalIdOf_inj ch u1 u2 :
  externalIdOf ch u1 = externalIdOf ch u2 -> u1 = u2.
Proof.
  unfold externalIdOf. induction ch as [|a ch IH]; simpl.
  - now intros [= ->].
  - intros [= H]. auto.
Qed.

Lemma update_row_ids id ci co g rows rows' :
  update_row id ci co g rows = Some rows' ->
  map Reservation.id rows' = map Reservation.id rows.
Proof.
  revert rows'. induction rows as [|r rows IH]; simpl; intros rows';
    [discriminate|].
  destruct (Nat.eqb (Reservation.id r) id).
  - now intros [= <-].
  - destruct (update_row id ci co g rows) as [rest'|]; [|discriminate].
    intros [= <-]. simpl. now rewrite (IH rest' eq_refl).
Qed.

Lemma update_row_other id ci co g rows rows' c x r :
  update_row id ci co g rows = Some rows' ->
  find (matches_key c x) rows = Some r ->
  Reservation.id r <> id ->
  find (matches_key c x) rows' = Some r.
Proof.
  revert rows'. induction rows as [|y rows IH]; simpl; intros rows';
    [discriminate|].
  destruct (Nat.eqb (Reservation.id y) id) eqn:Hy.
  - intros [= <-]. simpl. rewrite matches_key_with_data.
    destruct (matches_key c x y); auto.
    intros [= ->] Hne. apply Nat.eqb_eq in Hy. contradiction.
  - destruct (update_row id ci co g rows) as [rest'|]; [|discriminate].
    intros [= <-]. simpl. destruct (matches_key c x y); auto.
Qed.

Lemma find_key_In c x rows r :
  find (matches_key c x) rows = Some r ->
  In r rows /\ Reservation.channel r = c /\ Reservation.externalId r = Some x.
Proof.
  intros H. apply find_some in H. destruct H as [Hin Hm]. split; auto.
  unfold matches_key in Hm. apply andb_true_iff in Hm. destruct Hm as [H1 H2].
  apply String.eqb_eq in H1. destruct (Reservation.externalId r) as [y|];
    [|discriminate].
  apply String.eqb_eq in H2. now subst.
Qed.

Lemma NoDup_ids_inj rows r1 r2 :
  NoDup (map Reservation.id rows) -> In r1 rows -> In r2 rows ->
  Reservation.id r1 = Reservation.id r2 -> r1 = r2.
Proof.
  induction rows as [|x rows IH]; simpl; [easy|].
  intros Hnd H1 H2 Hid. inversion Hnd as [|? ? Hx Hnd']; subst.
  destruct H1 as [<-|H1], H2 as [<-|H2]; auto.
  - exfalso. apply Hx. rewrite Hid. now apply in_map.
  - exfalso. apply Hx. rewrite <- Hid. now apply in_map.
Qed.

(** One iteration keeps the primary key, stores its event with the dates of
    the feed, and leaves the events of other uids stored as they were. *)
Lemma step_stores ch u e s :
  ids_fresh (Pure.rows s) (Pure.nextId s) ->
  ids_fresh (Pure.rows (Pure.step ch u e s)) (Pure.nextId (Pure.step ch u e s))
  /\ stored_unchanged ch (Pure.rows (Pure.step ch u e s)) e = true
  /\ (forall e', ICalEvent.uid e' <> ICalEvent.uid e ->
        stored_unchanged ch (Pure.rows s) e' = true ->
        stored_unchanged ch (Pure.rows (Pure.step ch u e s)) e' = true).
Proof.
  intros [Hnd Hlt]. unfold Pure.step.
  destruct (find _ (Pure.rows s)) as [ex|] eqn:Hf.
  - destruct (Pure.changed ex e) eqn:Hch.
    + destruct (find_split _ _ _ Hf) as (l1 & l2 & Hrows & Hl1).
      assert (Hu : update_row (Reservation.id ex) (ICalEvent.dtstart e)
                     (ICalEvent.dtend e)
                     (or_default (ICalEvent.summary e) "Guest") (Pure.rows s)
                   = Some (l1 ++ with_data (ICalEvent.dtstart e)
                                   (ICalEvent.dtend e)
                                   (or_default (ICalEvent.summary e) "Guest") ex
                              :: l2)).
      { rewrite Hrows. apply update_row_split. now rewrite <- Hrows. }
      rewrite Hu. cbn [Pure.rows Pure.nextId].
      split; [|split].
      * split.
        -- now rewrite (update_row_ids _ _ _ _ _ _ Hu).
        -- rewrite Hrows in Hlt. apply Forall_app in Hlt.
           destruct Hlt as [H1 H2]. inversion H2; subst.
           apply Forall_app. split; auto.
      * unfold stored_unchanged. rewrite find_app_first.
        assert (Hn : find (matches_key ch (externalIdOf ch (ICalEvent.uid e))) l1
                     = None).
        { destruct (find _ l1) as [y|] eqn:Hy; auto.
          apply find_some in Hy. destruct Hy as [Hy1 Hy2].
          rewrite (Hl1 y Hy1) in Hy2. discriminate. }
        rewrite Hn. cbn [find]. rewrite matches_key_with_data.
        apply find_some in Hf. destruct Hf as [_ ->].
        cbn. now rewrite !Z.eqb_refl.
      * intros e' Hne. unfold stored_unchanged.
        destruct (find (matches_key ch (externalIdOf ch (ICalEvent.uid e')))
                    (Pure.rows s)) as [r|] eqn:Hr; [|discriminate].
        intros Hst.
        rewrite (update_row_other _ _ _ _ _ _ _ _ r Hu Hr); auto.
        intros Hid.
        destruct (find_key_In _ _ _ _ Hr) as (Hin & _ & Hx).
        destruct (find_key_In _ _ _ _ Hf) as (Hin' & _ & Hx').
        assert (r = ex) by (apply (NoDup_ids_inj (Pure.rows s)); auto).
        subst r. rewrite Hx in Hx'. injection Hx' as Hx'.
        now apply externalIdOf_inj in Hx'.
    + split; [split; assumption|]. split; auto.
      unfold stored_unchanged. rewrite Hf.
      apply changed_false in Hch. destruct Hch as [-> ->].
      now rewrite !Z.eqb_refl.
  - cbn [Pure.rows Pure.nextId]. split; [|split].
    + split.
      * rewrite map_app. cbn. apply NoDup_app; auto.
        -- repeat constructor. intros [].
        -- intros x Hx [<-|[]]. apply in_map_iff in Hx.
           destruct Hx as (r & Hr1 & Hr2).
           rewrite Forall_forall in Hlt. specialize (Hlt r Hr2). lia.
      * apply Forall_app. split.
        -- eapply Forall_impl; [|exact Hlt]. cbn. intros; lia.
        -- repeat constructor.
    + unfold stored_unchanged. rewrite find_app_first, Hf. cbn [find].
      unfold matches_key at 1. cbn. rewrite !String.eqb_refl. cbn.
      now rewrite !Z.eqb_refl.
    + intros e' Hne. unfold stored_unchanged. rewrite find_app_first.
      destruct (find (matches_key ch (externalIdOf ch (ICalEvent.uid e')))
                  (Pure.rows s)); [auto|discriminate].
Qed.

Lemma steps_stores ch u events s :
  NoDup (map ICalEvent.uid events) ->
  ids_fresh (Pure.rows s) (Pure.nextId s) ->
  forall stored,
    (forall e, In e stored -> ~ In (ICalEvent.uid e) (map ICalEvent.uid events)) ->
    (forall e, In e stored -> stored_unchanged ch (Pure.rows s) e = true) ->
    forall e, In e (stored ++ events) ->
         stored_unchanged ch (Pure.rows (Pure.steps ch u events s)) e = true.
Proof.
  unfold Pure.steps. revert s.
  induction events as [|e events IH]; intros s Hnd Hfresh stored Hdis Hst;
    cbn [fold_left].
  - intros x Hx. rewrite app_nil_r in Hx. auto.
  - inversion Hnd as [|? ? Hne Hnd']; subst.
    destruct (step_stores ch u e s Hfresh) as (Hfresh' & He & Hothers).
    intros x Hx.
    apply (IH (Pure.step ch u e s) Hnd' Hfresh' (stored ++ [e])).
    + intros y Hy. apply in_app_or in Hy. destruct Hy as [Hy|[<-|[]]]; auto.
      intros Hin. apply (Hdis y Hy). now right.
    + intros y Hy. apply in_app_or in Hy. destruct Hy as [Hy|[<-|[]]]; auto.
      apply Hothers; auto. intros Heq. apply (Hdis y Hy). left. auto.
    + rewrite <- app_assoc. exact Hx.
Qed.

(** With a store that does not fail, a run completes every iteration. *)
Lemma syncCalendar_complete env mapping unitId w :
  World.faults w = [] ->
  let s := Pure.steps (ChannelMappingInput.channel mapping) unitId
             (fetched_events env mapping w) (Pure.of_world w (0, 0)%nat) in
  let w' := after (syncCalendar env mapping unitId w) in
  World.reservations w' = Pure.rows s /\ World.nextId w' = Pure.nextId s
  /\ World.faults w' = [].
Proof.
  intros Hf. cbv zeta. rewrite syncCalendar_eq. unfold fetched_events.
  assert (Hfail : forall e w2, World.faults w2 = [] ->
            let w' := after (sync_failed env mapping e w2) in
            World.reservations w' = World.reservations w2
            /\ World.nextId w' = World.nextId w2 /\ World.faults w' = []).
  { intros e w2 H2. unfold sync_failed, bind.
    rewrite syncLog_create_no_faults by assumption. cbn. auto. }
  destruct (or_null (ChannelMappingInput.iCalUrl mapping)) as [url|];
    [|cbn; auto].
  cbv zeta.
  set (w1 := World.set_requests (World.requests w ++ [url]) w).
  destruct (Env.network env url) as [e|status body]; [now apply Hfail|].
  destruct (response_ok status); [|now apply Hfail].
  destruct (parseICalData_total env body w1) as (events & n & ->).
  pose proof (processEvents_outcome mapping unitId events (0, 0)%nat
                (World.set_uuids n w1)) as Hloop. cbv zeta in Hloop.
  destruct (processEvents mapping unitId events (0, 0)%nat
              (World.set_uuids n w1)) as [[c u] w3|e w3].
  - destruct Hloop as (Hs & _ & Hq).
    change (Pure.of_world (World.set_uuids n w1) (0, 0)%nat)
      with (Pure.of_world w (0, 0)%nat) in Hs.
    rewrite <- Hs. unfold sync_succeeded, bind.
    rewrite syncLog_create_no_faults by (apply Hq; exact Hf).
    cbn. repeat split. apply Hq. exact Hf.
  - destruct Hloop as (_ & _ & Hq). exfalso. apply Hq. exact Hf.
Qed.

Lemma update_row_identity id ci co g rows rows' :
  update_row id ci co g rows = Some rows' ->
  map identity_fields rows' = map identity_fields rows.
Proof.
  revert rows'. induction rows as [|r rows IH]; simpl; intros rows';
    [discriminate|].
  destruct (Nat.eqb (Reservation.id r) id).
  - now intros [= <-].
  - destruct (update_row id ci co g rows) as [rest'|]; [|discriminate].
    intros [= <-]. simpl. now rewrite (IH rest' eq_refl).
Qed.

(** *** Every uid under its key *)

Lemma run_all_dedup (runs : list Run) w c x :
  (count_key c x (World.reservations (run_all runs w))
   <= Nat.max 1 (count_key c x (World.reservations w)))%nat
  /\ (forall id,
        option_map Reservation.id
          (find (matches_key c x) (World.reservations w)) = Some id ->
        option_map Reservation.id
          (find (matches_key c x) (World.reservations (run_all runs w)))
        = Some id).
Proof.
  unfold run_all. revert w.
  induction runs as [|[[env mapping] unitId] runs IH]; intros w;
    cbn [fold_left].
  - split; [lia|auto].
  - destruct (IH (after (syncCalendar env mapping unitId w))) as [H1 H2].
    destruct (syncCalendar_dedup env mapping unitId w c x) as [H3 H4].
    cbv zeta in H3, H4. split; [lia|auto].
Qed.

Lemma found_stays (rows rows' : list Reservation.t) c x :
  (forall id,
      option_map Reservation.id (find (matches_key c x) rows) = Some id ->
      option_map Reservation.id (find (matches_key c x) rows') = Some id) ->
  (forall r, find (matches_key c x) rows = Some r ->
             exists r', find (matches_key c x) rows' = Some r'
                        /\ Reservation.id r' = Reservation.id r)
  /\ (find (matches_key c x) rows' = None ->
      find (matches_key c x) rows = None).
Proof.
  intros H. split.
  - intros r Hr. specialize (H (Reservation.id r)). rewrite Hr in H.
    specialize (H eq_refl).
    destruct (find (matches_key c x) rows') as [r'|]; [|discriminate].
    exists r'. split; [reflexivity|]. now injection H.
  - intros Hn. destruct (find (matches_key c x) rows) as [r|] eqn:Hr; auto.
    specialize (H (Reservation.id r) eq_refl). rewrite Hn in H. discriminate.
Qed.

Lemma identity_fields_key r r' :
  identity_fields r = identity_fields r' ->
  Reservation.channel r = Reservation.channel r'
  /\ Reservation.externalId r = Reservation.externalId r'.
Proof. unfold identity_fields. intros [= _ _ Hc _ Hx _]. auto. Qed.

(** An iteration leaves a reservation under the key of its event. *)
Lemma step_stored ch u e s :
  exists r,
    find (matches_key ch (externalIdOf ch (ICalEvent.uid e)))
         (Pure.rows (Pure.step ch u e s)) = Some r.
Proof.
  unfold Pure.step.
  destruct (find _ (Pure.rows s)) as [ex|] eqn:Hf.
  - destruct (Pure.changed ex e); [|cbn [Pure.rows]; eauto].
    destruct (update_row _ _ _ _ (Pure.rows s)) as [rows'|] eqn:Hu;
      [|cbn [Pure.rows]; eauto].
    cbn [Pure.rows].
    pose proof (update_row_first _ _ _ _ _ _ ch
                  (externalIdOf ch (ICalEvent.uid e)) Hu) as H.
    rewrite Hf in H.
    destruct (find _ rows') as [r'|]; [eauto|discriminate].
  - cbn [Pure.rows]. rewrite find_app_first, Hf. cbn [find].
    unfold matches_key, Pure.new_row.
    cbn [Reservation.channel Reservation.externalId].
    rewrite !String.eqb_refl. cbn [andb]. eauto.
Qed.

Lemma steps_stored ch u events s e :
  In e events ->
  exists r,
    find (matches_key ch (externalIdOf ch (ICalEvent.uid e)))
         (Pure.rows (Pure.steps ch u events s)) = Some r.
Proof.
  unfold Pure.steps. revert s.
  induction events as [|a events IH]; intros s; [intros []|].
  cbn [fold_left]. intros [->|He]; [|now apply IH].
  destruct (step_stored ch u e s) as (r & Hr).
  destruct (steps_dedup ch u events (Pure.step ch u e s) ch
              (externalIdOf ch (ICalEvent.uid e))) as [_ H].
  destruct (proj1 (found_stays _ _ _ _ H) r Hr) as (r' & Hr' & _).
  unfold Pure.steps in Hr'. eauto.
Qed.

Lemma syncCalendar_stored env mapping unitId w e :
  World.faults w = [] ->
  In e (fetched_events env mapping w) ->
  exists r,
    find (matches_key (ChannelMappingInput.channel mapping)
            (externalIdOf (ChannelMappingInput.channel mapping)
               (ICalEvent.uid e)))
         (World.reservations (after (syncCalendar env mapping unitId w)))
    = Some r.
Proof.
  intros Hf He.
  destruct (syncCalendar_complete env mapping unitId w Hf) as (-> & _).
  now apply steps_stored.
Qed.

Lemma run_all_stored (runs : list Run) w c u :
  World.faults w = [] ->
  In (c, u) (fetched_uids runs w) ->
  exists r,
    find (matches_key c (externalIdOf c u))
         (World.reservations (run_all runs w)) = Some r.
Proof.
  revert w. induction runs as [|[[env mapping] unitId] runs IH]; intros w Hf;
    [intros []|].
  cbn [fetched_uids]. intros Hin. apply in_app_or in Hin.
  change (run_all ((env, mapping, unitId) :: runs) w)
    with (run_all runs (after (syncCalendar env mapping unitId w))).
  destruct Hin as [Hin|Hin].
  - apply in_map_iff in Hin. destruct Hin as (e & [= <- <-] & He).
    destruct (syncCalendar_stored env mapping unitId w e Hf He) as (r & Hr).
    destruct (run_all_dedup runs (after (syncCalendar env mapping unitId w))
                (ChannelMappingInput.channel mapping)
                (externalIdOf (ChannelMappingInput.channel mapping)
                   (ICalEvent.uid e))) as [_ H].
    destruct (proj1 (found_stays _ _ _ _ H) r Hr) as (r' & Hr' & _). eauto.
  - apply IH; [|assumption].
    now destruct (syncCalendar_complete env mapping unitId w Hf) as (_ & _ & ?).
Qed.

Lemma count_key_found c x rows r :
  find (matches_key c x) rows = Some r -> (1 <= count_key c x rows)%nat.
Proof.
  unfold count_key. induction rows as [|y rows IH]; cbn [find filter];
    [discriminate|].
  destruct (matches_key c x y); cbn [List.length]; [lia|auto].
Qed.

Lemma step_keeps_count ch u e s c x :
  (count_key c x (Pure.rows s)
   <= count_key c x (Pure.rows (Pure.step ch u e s)))%nat.
Proof.
  unfold Pure.step.
  destruct (find _ (Pure.rows s)) as [ex|].
  - destruct (Pure.changed ex e); [|lia].
    destruct (update_row _ _ _ _ (Pure.rows s)) as [rows'|] eqn:Hu; [|lia].
    cbn [Pure.rows]. rewrite (update_row_count _ _ _ _ _ _ c x Hu). lia.
  - cbn [Pure.rows]. rewrite count_key_app. lia.
Qed.

Lemma steps_keep_count ch u events s c x :
  (count_key c x (Pure.rows s)
   <= count_key c x (Pure.rows (Pure.steps ch u events s)))%nat.
Proof.
  unfold Pure.steps. revert s.
  induction events as [|e events IH]; intros s; cbn [fold_left]; [lia|].
  pose proof (IH (Pure.step ch u e s)).
  pose proof (step_keeps_count ch u e s c x). lia.
Qed.

Lemma run_all_keeps_count (runs : list Run) w c x :
  (count_key c x (World.reservations w)
   <= count_key c x (World.reservations (run_all runs w)))%nat.
Proof.
  unfold run_all. revert w.
  induction runs as [|[[env mapping] unitId] runs IH]; intros w;
    cbn [fold_left]; [lia|].
  pose proof (IH (after (syncCalendar env mapping unitId w))) as H.
  destruct (syncCalendar_outcome env mapping unitId w)
    as (done & rest & _ & Hrows & _).
  pose proof (steps_keep_count (ChannelMappingInput.channel mapping) unitId
                done (Pure.of_world w (0, 0)%nat) c x) as H1.
  rewrite <- Hrows in H1. cbn [Pure.of_world Pure.rows] in H1. lia.
Qed.

(** *** Where a reservation comes from *)

Lemma created_for_more uids1 uids2 rows r :
  created_for uids1 rows r \/ created_for uids2 rows r ->
  created_for (uids1 ++ uids2) rows r.
Proof.
  intros [(c & u & H & Hr)|(c & u & H & Hr)]; exists c, u;
    (split; [apply in_or_app; auto|exact Hr]).
Qed.

Lemma created_for_same uids rows r r' :
  identity_fields r = identity_fields r' ->
  created_for uids rows r -> created_for uids rows r'.
Proof.
  intros Hid (c & u & Hin & Hc & Hx & Hn).
  destruct (identity_fields_key _ _ Hid) as [H1 H2].
  exists c, u. rewrite <- H1, <- H2. auto.
Qed.

Lemma step_origin ch u e s r :
  In r (Pure.rows (Pure.step ch u e s)) ->
  In (identity_fields r) (map identity_fields (Pure.rows s))
  \/ created_for [(ch, ICalEvent.uid e)] (Pure.rows s) r.
Proof.
  unfold Pure.step.
  destruct (find _ (Pure.rows s)) as [ex|] eqn:Hf.
  - destruct (Pure.changed ex e); [|left; now apply in_map].
    destruct (update_row _ _ _ _ (Pure.rows s)) as [rows'|] eqn:Hu;
      [|left; now apply in_map].
    cbn [Pure.rows]. intros Hr. left.
    rewrite <- (update_row_identity _ _ _ _ _ _ Hu). now apply in_map.
  - cbn [Pure.rows]. intros Hr. apply in_app_or in Hr.
    destruct Hr as [Hr|[<-|[]]]; [left; now apply in_map|].
    right. exists ch, (ICalEvent.uid e).
    split; [now left|]. split; [reflexivity|]. split; [reflexivity|exact Hf].
Qed.

Lemma steps_origin ch u events s r :
  In r (Pure.rows (Pure.steps ch u events s)) ->
  In (identity_fields r) (map identity_fields (Pure.rows s))
  \/ created_for (map (fun e => (ch, ICalEvent.uid e)) events) (Pure.rows s) r.
Proof.
  unfold Pure.steps. revert s.
  induction events as [|e events IH]; intros s; cbn [fold_left];
    [intros Hr; left; now apply in_map|].
  intros Hr. destruct (IH _ Hr) as [Hold|Hnew].
  - apply in_map_iff in Hold. destruct Hold as (r1 & Hid & Hr1).
    destruct (step_origin ch u e s r1 Hr1) as [H|H].
    + left. now rewrite <- Hid.
    + right. apply (created_for_same _ _ r1 r Hid).
      apply (created_for_more [_]). now left.
  - right. apply (created_for_more [_]). right.
    destruct Hnew as (c & x & Hin & Hc & Hx & Hn).
    exists c, x. repeat (split; [assumption|]).
    destruct (step_dedup ch u e s c (externalIdOf c x)) as [_ H].
    exact (proj2 (found_stays _ _ _ _ H) Hn).
Qed.

Lemma syncCalendar_origin env mapping unitId w r :
  In r (World.reservations (after (syncCalendar env mapping unitId w))) ->
  In (identity_fields r) (map identity_fields (World.reservations w))
  \/ created_for
       (map (fun e => (ChannelMappingInput.channel mapping, ICalEvent.uid e))
            (fetched_events env mapping w))
       (World.reservations w) r.
Proof.
  destruct (syncCalendar_outcome env mapping unitId w)
    as (done & rest & Hev & Hrows & _).
  rewrite Hrows, Hev, map_app. intros Hr.
  destruct (steps_origin _ _ _ _ _ Hr) as [H|H]; [now left|].
  right. apply created_for_more. now left.
Qed.

Lemma run_all_origin (runs : list Run) w r :
  In r (World.reservations (run_all runs w)) ->
  In (identity_fields r) (map identity_fields (World.reservations w))
  \/ created_for (fetched_uids runs w) (World.reservations w) r.
Proof.
  revert w. induction runs as [|[[env mapping] unitId] runs IH]; intros w;
    [intros Hr; left; now apply in_map|].
  change (run_all ((env, mapping, unitId) :: runs) w)
    with (run_all runs (after (syncCalendar env mapping unitId w))).
  cbn [fetched_uids]. intros Hr. destruct (IH _ Hr) as [Hold|Hnew].
  - apply in_map_iff in Hold. destruct Hold as (r1 & Hid & Hr1).
    destruct (syncCalendar_origin env mapping unitId w r1 Hr1) as [H|H].
    + left. now rewrite <- Hid.
    + right. apply (created_for_same _ _ r1 r Hid).
      apply created_for_more. now left.
  - right. apply created_for_more. right.
    destruct Hnew as (c & x & Hin & Hc & Hx & Hn).
    exists c, x. repeat (split; [assumption|]).
    destruct (syncCalendar_dedup env mapping unitId w c (externalIdOf c x))
      as [_ H].
    exact (proj2 (found_stays _ _ _ _ H) Hn).
Qed.

(** C3. The external id of a fetched event is [<channel>-<uid>], and the
    reconciler looks a reservation up by channel and external id before it
    creates one.  Over any number of runs, on any feeds and under any
    store faults: no channel and external id comes to be shared by two
    reservations (a key held by at most one reservation before is held by
    at most one after); the reservation found first under a key stays the
    one found under it, so that later runs update it or leave it; and
    every reservation after the runs is a reservation there was before,
    with its id, channel and external id, or carries the channel and the
    external id of a fetched uid that no reservation held before.  On a
    store that does not fail, a reservation is stored under the channel
    and external id of every uid fetched in one of the runs. *)
Theorem reconcile_runs_never_duplicate (runs : list Run) w channel uid :
  let externalId := externalIdOf channel uid in
  let w' := run_all runs w in
  externalId = (channel ++ "-" ++ uid)%string
  /\ (count_key channel externalId (World.reservations w')
      <= Nat.max 1 (count_key channel externalId (World.reservations w)))%nat
  /\ (forall r,
        find (matches_key channel externalId) (World.reservations w) = Some r ->
        exists r',
          find (matches_key channel externalId) (World.reservations w')
          = Some r'
          /\ Reservation.id r' = Reservation.id r)
  /\ (forall r,
        In r (World.reservations w') ->
        In (identity_fields r) (map identity_fields (World.reservations w))
        \/ created_for (fetched_uids runs w) (World.reservations w) r)
  /\ (World.faults w = [] ->
      In (channel, uid) (fetched_uids runs w) ->
      exists r,
        find (matches_key channel externalId) (World.reservations w') = Some r
        /\ count_key channel externalId (World.reservations w')
           = Nat.max 1 (count_key channel externalId (World.reservations w))).
Proof.
  cbv zeta. split; [reflexivity|].
  destruct (run_all_dedup runs w channel (externalIdOf channel uid))
    as [H1 H2].
  split; [exact H1|].
  split; [exact (proj1 (found_stays _ _ _ _ H2))|].
  split; [intros r; apply run_all_origin|].
  intros Hf Hin.
  destruct (run_all_stored runs w channel uid Hf Hin) as (r & Hr).
  exists r. split; [exact Hr|].
  pose proof (count_key_found _ _ _ _ Hr).
  pose proof (run_all_keeps_count runs w channel (externalIdOf channel uid)).
  lia.
Qed.

(** X22. Idempotence over two runs: on a store that does not fail and whose ids
    are unique, after a run on a feed whose events have different uids, a
    second run that fetches the same events writes no reservation and
    reports zero created and zero updated events. *)
Lemma second_run_writes_nothing env mapping unitId w :
  World.faults w = [] ->
  ids_fresh (World.reservations w) (World.nextId w) ->
  NoDup (map ICalEvent.uid (fetched_events env mapping w)) ->
  let w1 := after (syncCalendar env mapping unitId w) in
  fetched_events env mapping w1 = fetched_events env mapping w ->
  exists r w2,
    syncCalendar env mapping unitId w1 = Ok r w2
    /\ World.reservations w2 = World.reservations w1
    /\ CalendarSyncResult.eventsCreated r = 0%nat
    /\ CalendarSyncResult.eventsUpdated r = 0%nat.
Proof.
  intros Hf Hfresh Hnd w1 Hsame.
  destruct (syncCalendar_complete env mapping unitId w Hf) as (Hrows & _ & Hf1).
  fold w1 in Hrows, Hf1.
  assert (Hall : forall e, In e (fetched_events env mapping w1) ->
            stored_unchanged (ChannelMappingInput.channel mapping)
              (World.reservations w1) e = true).
  { rewrite Hsame, Hrows. intros e He.
    apply (steps_stores _ _ _ (Pure.of_world w (0, 0)%nat) Hnd Hfresh []);
      auto; intros ? []. }
  destruct (syncCalendar_returns env mapping unitId w1 Hf1) as (r & w2 & Hrun & _).
  destruct (syncCalendar_outcome env mapping unitId w1)
    as (done & rest & Hev & Hr & _ & Hres).
  rewrite Hrun in Hr, Hres. cbn [after returned] in Hr, Hres.
  rewrite steps_unchanged in Hr, Hres.
  2,3: intros e He; apply Hall; rewrite Hev; apply in_or_app; now left.
  exists r, w2. split; [assumption|]. split; [exact Hr|].
  destruct (Hres r eq_refl) as [[_ ->]|[msg ->]]; auto.
Qed.

(** *** What the parser keeps *)

Lemma parse_vevents_kept env vevents w events w' :
  parse_vevents env vevents w = Ok events w' ->
  map title_and_dates events = flat_map kept vevents.
Proof.
  revert w events w'.
  induction vevents as [|v vevents IH]; intros w events w'; simpl.
  - unfold ret. now intros [= <- _].
  - unfold kept at 1.
    destruct (VEvent.startDate v) as [sd|]; [|apply IH].
    destruct (VEvent.endDate v) as [ed|]; [|apply IH].
    unfold bind at 1.
    destruct ((if falsy (VEvent.uid v) then randomUUID env
               else ret (or_else (VEvent.uid v) "")) w) as [uid w1|e w1] eqn:Hu.
    2:{ destruct (falsy (VEvent.uid v)); discriminate. }
    unfold bind.
    destruct (parse_vevents env vevents w1) as [evs w2|e w2] eqn:Hp;
      [|discriminate].
    unfold ret. intros [= <- _]. simpl.
    now rewrite (IH _ _ _ Hp).
Qed.

Lemma parseICalData_kept env icalData w events w' :
  parseICalData env icalData w = Ok events w' ->
  map title_and_dates events
  = match Env.ICAL_parse env icalData with
    | inr vevents => flat_map kept vevents
    | inl _ => []
    end.
Proof.
  unfold parseICalData. destruct (Env.ICAL_parse env icalData).
  - unfold ret. now intros [= <- _].
  - apply parse_vevents_kept.
Qed.

Lemma or_default_nonempty s d : d <> "" -> or_default s d <> "".
Proof.
  unfold or_default. destruct (String.eqb s "") eqn:H; auto.
  now apply String.eqb_neq in H.
Qed.

Lemma or_else_nonempty o d : d <> "" -> or_else o d <> "".
Proof. destruct o; simpl; auto using or_default_nonempty. Qed.

Lemma or_default_id s d : s <> "" -> or_default s d = s.
Proof.
  unfold or_default. intros H. apply String.eqb_neq in H. now rewrite H.
Qed.

(** Every event the parser gives comes from a VEVENT with both dates, and
    carries its title, or ["Blocked"] when the title is empty or missing. *)
Lemma parsed_event_origin env icalData w events w' e :
  parseICalData env icalData w = Ok events w' ->
  In e events ->
  exists vevents v,
    Env.ICAL_parse env icalData = inr vevents /\ In v vevents
    /\ ICalEvent.summary e = or_else (VEvent.summary v) "Blocked"
    /\ VEvent.startDate v = Some (ICalEvent.dtstart e)
    /\ VEvent.endDate v = Some (ICalEvent.dtend e).
Proof.
  intros Hp He. apply parseICalData_kept in Hp.
  apply (in_map title_and_dates) in He. rewrite Hp in He.
  destruct (Env.ICAL_parse env icalData) as [|vevents]; [destruct He|].
  apply in_flat_map in He. destruct He as (v & Hv & Hk).
  exists vevents, v. split; [reflexivity|]. split; [assumption|].
  unfold kept in Hk.
  destruct (VEvent.startDate v) as [sd|]; [|destruct Hk].
  destruct (VEvent.endDate v) as [ed|]; [|destruct Hk].
  destruct Hk as [Hk|[]]. unfold title_and_dates in Hk.
  injection Hk as H1 H2 H3. subst. auto.
Qed.

(** *** Dates *)

Lemma update_row_Forall (P : Reservation.t -> Prop) id ci co g rows rows' :
  (forall r, P r -> P (with_data ci co g r)) ->
  update_row id ci co g rows = Some rows' ->
  Forall P rows -> Forall P rows'.
Proof.
  intros HP. revert rows'.
  induction rows as [|r rows IH]; simpl; intros rows'; [discriminate|].
  destruct (Nat.eqb (Reservation.id r) id).
  - intros [= <-] H. inversion H; subst. constructor; auto.
  - destruct (update_row id ci co g rows) as [rest'|]; [|discriminate].
    intros [= <-] H. inversion H; subst. constructor; auto.
Qed.

Lemma step_well_dated ch u e s :
  ICalEvent.dtstart e < ICalEvent.dtend e ->
  Forall well_dated (Pure.rows s) ->
  Forall well_dated (Pure.rows (Pure.step ch u e s)).
Proof.
  intros He Hs. unfold Pure.step.
  destruct (find _ (Pure.rows s)) as [ex|]; cbn [Pure.rows].
  - destruct (Pure.changed ex e); auto.
    destruct (update_row _ _ _ _ (Pure.rows s)) as [rows'|] eqn:Hu; auto.
    cbn [Pure.rows]. apply (update_row_Forall _ _ _ _ _ _ _ (fun _ _ => He) Hu Hs).
  - apply Forall_app. split; auto.
Qed.

Lemma steps_well_dated ch u events s :
  (forall e, In e events -> ICalEvent.dtstart e < ICalEvent.dtend e) ->
  Forall well_dated (Pure.rows s) ->
  Forall well_dated (Pure.rows (Pure.steps ch u events s)).
Proof.
  unfold Pure.steps. revert s.
  induction events as [|e events IH]; intros s He Hs; cbn [fold_left]; auto.
  apply IH; [intros; apply He; now right|].
  apply step_well_dated; auto. apply He. now left.
Qed.

(** C7, as the code has it.  For a fetched event with no reservation
    under its key (on a store that does not fail) the reconciler creates
    a reservation on the target unit with status confirmed, check-in and
    check-out equal to the start and end of the event and guest name
    equal to its summary, ["Guest"] standing for an empty summary, and
    the created count grows by one.  The summary of a parsed event is
    never empty: it is the title of the VEVENT, or ["Blocked"] when that
    title is empty or missing, so from a feed the guest name is the
    title or ["Blocked"]. *)
Theorem new_event_created env mapping unitId :
  (forall event counts w,
      World.faults w = [] ->
      find (matches_key (ChannelMappingInput.channel mapping)
              (externalIdOf (ChannelMappingInput.channel mapping)
                 (ICalEvent.uid event)))
           (World.reservations w) = None ->
      processEvent mapping unitId event counts w
      = Ok (S (fst counts), snd counts)
           (World.set_nextId (S (World.nextId w))
              (World.set_reservations
                 (World.reservations w
                  ++ [Reservation.mk (World.nextId w) unitId
                        (ChannelMappingInput.channel mapping)
                        (if String.eqb (ICalEvent.summary event) ""
                         then "Guest" else ICalEvent.summary event)
                        (ICalEvent.dtstart event) (ICalEvent.dtend event)
                        confirmed
                        (Some (externalIdOf
                                 (ChannelMappingInput.channel mapping)
                                 (ICalEvent.uid event)))
                        None]) w)))
  /\ (forall icalData w events w' e,
        parseICalData env icalData w = Ok events w' ->
        In e events ->
        or_default (ICalEvent.summary e) "Guest" = ICalEvent.summary e
        /\ exists vevents v,
             Env.ICAL_parse env icalData = inr vevents /\ In v vevents
             /\ VEvent.startDate v = Some (ICalEvent.dtstart e)
             /\ VEvent.endDate v = Some (ICalEvent.dtend e)
             /\ ICalEvent.summary e = or_else (VEvent.summary v) "Blocked").
Proof.
  split.
  - intros event counts w Hf Hfind.
    now rewrite processEvent_absent.
  - intros icalData w events w' e Hp He.
    destruct (parsed_event_origin _ _ _ _ _ _ Hp He)
      as (vevents & v & Hparse & Hv & Hs & Hsd & Hed).
    split.
    + apply or_default_id. rewrite Hs. now apply or_else_nonempty.
    + exists vevents, v. auto.
Qed.

(** C8, as the code has it.  The parser drops a feed entry only when its
    start or its end is missing, and keeps every other entry with the two
    dates it has, in whatever order they are; the reconciler writes the
    dates of an event as they are.  So check-in is strictly before
    check-out in every reservation after a run when it was so before the
    run and the start of every fetched event is strictly before its
    end. *)
Theorem feed_dates_persisted_as_given env mapping unitId :
  (forall icalData w events w',
      parseICalData env icalData w = Ok events w' ->
      map title_and_dates events
      = match Env.ICAL_parse env icalData with
        | inr vevents => flat_map kept vevents
        | inl _ => []
        end)
  /\ (forall event counts w,
        World.faults w = [] ->
        find (matches_key (ChannelMappingInput.channel mapping)
                (externalIdOf (ChannelMappingInput.channel mapping)
                   (ICalEvent.uid event)))
             (World.reservations w) = None ->
        exists counts' w' r,
          processEvent mapping unitId event counts w = Ok counts' w'
          /\ In r (World.reservations w')
          /\ Reservation.checkIn r = ICalEvent.dtstart event
          /\ Reservation.checkOut r = ICalEvent.dtend event)
  /\ (forall w,
        (forall e, In e (fetched_events env mapping w) ->
           ICalEvent.dtstart e < ICalEvent.dtend e) ->
        Forall well_dated (World.reservations w) ->
        Forall well_dated
          (World.reservations (after (syncCalendar env mapping unitId w)))).
Proof.
  split; [|split].
  - intros icalData w events w'. apply parseICalData_kept.
  - intros event counts w Hf Hfind.
    rewrite processEvent_absent by assumption.
    eexists _, _, _. split; [reflexivity|]. split.
    + cbn [World.reservations World.set_nextId World.set_reservations].
      apply in_or_app. right. left. reflexivity.
    + split; reflexivity.
  - intros w Hev Hw.
    destruct (syncCalendar_outcome env mapping unitId w)
      as (done & rest & Hsplit & Hrows & _).
    rewrite Hrows. apply steps_well_dated; auto.
    intros e He. apply Hev. rewrite Hsplit. apply in_or_app. now left.
Qed.

(** C5, as the code has it.  When the fetched document is refused by the
    parser, [parseICalData] reads it as a feed without events: on a store
    that does not fail [syncCalendar] throws nothing, writes no
    reservation, appends a sync log with status success and zero counts,
    and returns a result with [success] set, zero events found, created
    and updated, and no error. *)
Theorem unparsable_document_synced_as_empty env mapping unitId w url status
        body e :
  World.faults w = [] ->
  or_null (ChannelMappingInput.iCalUrl mapping) = Some url ->
  Env.network env url = FetchResponse status body ->
  response_ok status = true ->
  Env.ICAL_parse env body = inl e ->
  syncCalendar env mapping unitId w
  = Ok (CalendarSyncResult.mk true 0 0 0 0 0 None)
       (World.set_syncLogs
          (World.syncLogs w
           ++ [SyncLog.mk (ChannelMappingInput.id mapping) SyncLog.success
                 (Some 0%nat) (Some 0%nat) (Some 0%nat) None (Env.now env)])
          (World.set_requests (World.requests w ++ [url]) w)).
Proof.
  intros Hf Hurl Hnet Hok Hparse.
  rewrite syncCalendar_eq, Hurl. cbv zeta. rewrite Hnet, Hok.
  unfold parseICalData. rewrite Hparse. unfold ret at 1.
  cbn [processEvents]. unfold ret at 1.
  unfold sync_succeeded, bind.
  rewrite syncLog_create_no_faults by (destruct w; exact Hf).
  reflexivity.
Qed.
End Reconciler.

(** ** The scheduler *)

Section SchedulerProofs.
Import Db ICalAdapter SyncScheduler.

Lemma ks_ret {A} (a : A) : keeps_scheduler (ret a).
Proof. intros w. reflexivity. Qed.

Lemma ks_throw {A} e : keeps_scheduler (@throw A e).
Proof. intros w. reflexivity. Qed.

Lemma ks_bind {A B} (m : M A) (k : A -> M B) :
  keeps_scheduler m -> (forall a, keeps_scheduler (k a)) ->
  keeps_scheduler (bind m k).
Proof.
  intros Hm Hk w. unfold bind. specialize (Hm w).
  destruct (m w) as [a w'|e w']; simpl in *; auto.
  now rewrite Hk.
Qed.

Lemma ks_try_catch {A} (m : M A) h :
  keeps_scheduler m -> (forall e, keeps_scheduler (h e)) ->
  keeps_scheduler (try_catch m h).
Proof.
  intros Hm Hh w. unfold try_catch. specialize (Hm w).
  destruct (m w) as [a w'|e w']; simpl in *; auto.
  now rewrite Hh.
Qed.

Lemma ks_db {A} (m : M A) : keeps_scheduler m -> keeps_scheduler (db m).
Proof.
  intros Hm w. unfold db.
  destruct (World.faults w) as [|[e|] fs]; simpl; auto.
  now rewrite Hm.
Qed.

Create HintDb ks.
Local Hint Resolve ks_ret ks_throw ks_bind ks_try_catch ks_db : ks.

Lemma ks_syncLog_create log : keeps_scheduler (syncLog_create log).
Proof. apply ks_db. intros w. reflexivity. Qed.

Lemma ks_channelMapping_update id data :
  keeps_scheduler (channelMapping_update id data).
Proof.
  apply ks_db. intros w.
  destruct (update_mapping id data (World.channelMappings w)); reflexivity.
Qed.

Lemma ks_processEvents mapping unitId events counts :
  keeps_scheduler (processEvents mapping unitId events counts).
Proof.
  intros w.
  pose proof (processEvents_outcome mapping unitId events counts w) as H.
  cbv zeta in H.
  destruct (processEvents mapping unitId events counts w); simpl;
    destruct H as (_ & H & _); apply H.
Qed.

Lemma ks_parseICalData env icalData : keeps_scheduler (parseICalData env icalData).
Proof.
  intros w. destruct (parseICalData_total env icalData w) as (evs & n & ->).
  reflexivity.
Qed.

Lemma ks_fetch env url : keeps_scheduler (fetch env url).
Proof. intros w. unfold fetch. now destruct (Env.network env url). Qed.

Local Hint Resolve ks_syncLog_create ks_channelMapping_update
      ks_processEvents ks_parseICalData ks_fetch : ks.

Lemma ks_syncCalendar env mapping unitId :
  keeps_scheduler (syncCalendar env mapping unitId).
Proof.
  unfold syncCalendar.
  destruct (or_null (ChannelMappingInput.iCalUrl mapping)); auto with ks.
  apply ks_try_catch.
  - apply ks_bind; auto with ks. intros [status body]. cbn [fst snd].
    destruct (negb (response_ok status)); auto with ks.
    apply ks_bind; auto with ks. intros events.
    apply ks_bind; auto with ks. intros [c u].
    unfold sync_succeeded. auto with ks.
  - intros e. unfold sync_failed. auto with ks.
Qed.

Lemma ks_syncMapping env j : keeps_scheduler (syncMapping env j).
Proof.
  unfold syncMapping. destruct (units j); auto with ks.
  apply ks_try_catch.
  - apply ks_bind; [apply ks_syncCalendar|]. auto with ks.
  - auto with ks.
Qed.

Lemma syncMappings_scheduler env js results w :
  World.scheduler (snd (syncMappings env js results w)) = World.scheduler w.
Proof.
  revert results w. induction js as [|j js IH]; intros results w; simpl; auto.
  pose proof (ks_syncMapping env j w) as H.
  destruct (syncMapping env j w) as [r w'|e w']; simpl in *; auto.
  now rewrite IH.
Qed.

Lemma batch_scheduler env w :
  World.scheduler (snd (batch env w)) = World.scheduler w.
Proof.
  unfold batch, channelMapping_findMany_withUrl, db.
  destruct (World.faults w) as [|[e|] fs]; simpl; auto;
    now rewrite syncMappings_scheduler.
Qed.

(** C9. A call to [runSync] made while a batch is running fetches
    nothing, writes nothing and returns the cached results of the
    previous batch; this holds at every point of a running batch, since
    entering the batch sets [isRunning] and neither the loop over the
    mappings nor a run of the adapter touches the scheduler.  A call made
    when idle always returns, whatever failed or was thrown in the batch,
    and leaves the scheduler idle with the results of the batch cached. *)
Theorem runSync_single_flight env w :
  (Scheduler.isRunning (World.scheduler w) = true ->
   runSync env w = Ok (Scheduler.lastResults (World.scheduler w)) w)
  /\ (Scheduler.isRunning (World.scheduler w) = false ->
      (exists results w',
          runSync env w = Ok results w'
          /\ Scheduler.isRunning (World.scheduler w') = false
          /\ Scheduler.lastResults (World.scheduler w') = results)
      /\ (forall js results,
            let mid := snd (syncMappings env js results (enter env w)) in
            runSync env mid
            = Ok (Scheduler.lastResults (World.scheduler w)) mid)
      /\ (forall mapping unitId,
            let mid := after (syncCalendar env mapping unitId (enter env w)) in
            runSync env mid
            = Ok (Scheduler.lastResults (World.scheduler w)) mid)).
Proof.
  split.
  - intros Hrun. unfold runSync. now rewrite Hrun.
  - intros Hidle. split; [|split].
    + unfold runSync. rewrite Hidle.
      destruct (batch env (enter env w)) as [[results e] w'].
      exists results, (leave results w'). repeat split.
    + intros js results mid. unfold runSync.
      unfold mid. rewrite syncMappings_scheduler. reflexivity.
    + intros mapping unitId mid. unfold runSync.
      pose proof (ks_syncCalendar env mapping unitId (enter env w)) as H.
      fold mid in H. rewrite H. reflexivity.
Qed.
End SchedulerProofs.

(** ** Manual reservations *)

Section ManualReservation.
Import Db CalendarService.

Lemma conflicts_with_true unitId checkIn checkOut r :
  conflicts_with unitId checkIn checkOut r = true
  <-> Reservation.unitId r = unitId
      /\ (Reservation.status r = confirmed \/ Reservation.status r = pending)
      /\ Reservation.checkIn r < checkOut
      /\ checkIn < Reservation.checkOut r.
Proof.
  unfold conflicts_with.
  rewrite !andb_true_iff, String.eqb_eq, !Z.ltb_lt.
  destruct (Reservation.status r); intuition congruence.
Qed.

Lemma filter_nil_iff {A} (f : A -> bool) l :
  filter f l = [] <-> forall x, In x l -> f x = false.
Proof.
  induction l as [|a l IH]; simpl.
  - split; auto. intros _ x [].
  - destruct (f a) eqn:Ha; split.
    + discriminate.
    + intros H. specialize (H a (or_introl eq_refl)). congruence.
    + intros H x [<-|Hx]; auto. now apply IH.
    + intros H. apply IH. auto.
Qed.

Lemma owned_unit_iff w unitId userId :
  existsb (unit_of_user w unitId userId) (World.units w) = true
  <-> unit_of_a_property_of w userId unitId.
Proof.
  unfold unit_of_a_property_of. rewrite existsb_exists. split.
  - intros (u & Hu & Hc). unfold unit_of_user in Hc.
    apply andb_true_iff in Hc. destruct Hc as [Hid Hp].
    apply String.eqb_eq in Hid. apply existsb_exists in Hp.
    destruct Hp as (p & Hp & Hc). apply andb_true_iff in Hc.
    destruct Hc as [H1 H2]. apply String.eqb_eq in H1, H2.
    exists p, u. auto.
  - intros (p & u & Hp & Huser & Hu & Hpid & Hid).
    exists u. split; [assumption|]. unfold unit_of_user.
    apply andb_true_iff. split; [now apply String.eqb_eq|].
    apply existsb_exists. exists p. split; [assumption|].
    apply andb_true_iff. split; now apply String.eqb_eq.
Qed.

Lemma unit_findFirst_found w unitId userId :
  unit_of_a_property_of w userId unitId ->
  exists unit, find (unit_of_user w unitId userId) (World.units w) = Some unit.
Proof.
  intros Hown. apply owned_unit_iff, existsb_exists in Hown.
  destruct Hown as (u & Hu & Hc).
  destruct (find (unit_of_user w unitId userId) (World.units w)) as [unit|]
    eqn:Hfind; [eauto|].
  apply (find_none _ _ Hfind) in Hu. congruence.
Qed.

Lemma unit_findFirst_absent w unitId userId :
  ~ unit_of_a_property_of w userId unitId ->
  find (unit_of_user w unitId userId) (World.units w) = None.
Proof.
  intros Hnot.
  destruct (find (unit_of_user w unitId userId) (World.units w)) as [unit|]
    eqn:Hfind; [|reflexivity].
  exfalso. apply Hnot, owned_unit_iff, existsb_exists.
  exists unit. now apply find_some in Hfind.
Qed.

(** C10, as the code has it.  On a store that does not fail:
    when no unit of the requested id belongs to a property of the
    requesting user (the unit does not exist, or is someone else's),
    [createReservation] throws ["Unit not found"] and writes nothing,
    whatever reservations the store holds.  For a unit that belongs to
    the requesting user, it throws ["Dates conflict with existing
    reservation"] and writes nothing whenever a confirmed or pending
    reservation of the unit overlaps the requested interval half-open;
    otherwise it creates the reservation, whatever availability blocks
    the store holds, blocks never being read. *)
Theorem createReservation_refuses_overlap env userId input w :
  World.faults w = [] ->
  (~ unit_of_a_property_of w userId (CreateReservationInput.unitId input) ->
   createReservation env userId input w = Throw (JsError "Unit not found") w)
  /\ (unit_of_a_property_of w userId (CreateReservationInput.unitId input) ->
      ((exists r, In r (World.reservations w)
                  /\ Reservation.unitId r = CreateReservationInput.unitId input
                  /\ (Reservation.status r = confirmed
                      \/ Reservation.status r = pending)
                  /\ Reservation.checkIn r
                     < CreateReservationInput.checkOut input
                  /\ CreateReservationInput.checkIn input
                     < Reservation.checkOut r) ->
       createReservation env userId input w
       = Throw (JsError "Dates conflict with existing reservation") w)
      /\ ((forall r, In r (World.reservations w) ->
             ~ (Reservation.unitId r = CreateReservationInput.unitId input
                /\ (Reservation.status r = confirmed
                    \/ Reservation.status r = pending)
                /\ Reservation.checkIn r
                   < CreateReservationInput.checkOut input
                /\ CreateReservationInput.checkIn input
                   < Reservation.checkOut r)) ->
          forall blocks,
            let created :=
              Reservation.mk (World.nextId w)
                (CreateReservationInput.unitId input)
                (CreateReservationInput.channel input)
                (CreateReservationInput.guestName input)
                (CreateReservationInput.checkIn input)
                (CreateReservationInput.checkOut input)
                (Env.reservationDefaultStatus env)
                (CreateReservationInput.externalId input)
                (CreateReservationInput.totalAmount input) in
            createReservation env userId input
              (World.set_availabilityBlocks blocks w)
            = Ok created
                 (World.set_availabilityBlocks blocks
                    (World.set_nextId (S (World.nextId w))
                       (World.set_reservations
                          (World.reservations w ++ [created]) w))))).
Proof.
  intros Hf. split.
  { intros Hnot. unfold createReservation, bind, unit_findFirst.
    rewrite db_no_faults by assumption.
    now rewrite (unit_findFirst_absent _ _ _ Hnot). }
  intros Hown.
  destruct (unit_findFirst_found _ _ _ Hown) as (unit & Hunit).
  split.
  - intros (r & Hr & Hc).
    apply conflicts_with_true in Hc.
    unfold createReservation, bind, unit_findFirst.
    rewrite db_no_faults by assumption. rewrite Hunit.
    unfold reservation_findMany_conflicts.
    rewrite db_no_faults by assumption.
    destruct (filter _ (World.reservations w)) as [|x l] eqn:Hfil.
    + exfalso.
      assert (conflicts_with (CreateReservationInput.unitId input)
                (CreateReservationInput.checkIn input)
                (CreateReservationInput.checkOut input) r = false);
        [|congruence].
      now apply (proj1 (filter_nil_iff _ _) Hfil).
    + reflexivity.
  - intros Hnone blocks created.
    unfold createReservation, bind, unit_findFirst.
    rewrite db_no_faults by assumption.
    change (find _ _) with
      (find (unit_of_user w (CreateReservationInput.unitId input) userId)
         (World.units w)).
    rewrite Hunit.
    unfold reservation_findMany_conflicts.
    rewrite db_no_faults by assumption.
    cbn [World.reservations World.set_availabilityBlocks].
    assert (Hfil : filter (conflicts_with (CreateReservationInput.unitId input)
                             (CreateReservationInput.checkIn input)
                             (CreateReservationInput.checkOut input))
                          (World.reservations w) = []).
    { apply filter_nil_iff. intros r Hr.
      destruct (conflicts_with _ _ _ r) eqn:Hc; auto.
      apply conflicts_with_true in Hc. exfalso. now apply (Hnone r). }
    rewrite Hfil. cbn [List.length Nat.ltb Nat.leb].
    unfold reservation_create.
    rewrite db_no_faults by assumption. reflexivity.
Qed.
End ManualReservation.

(** ** The sample deployment *)

Section Samples.
Import Sample.

(** The two examples of the specification: A = [1, 3) and B = [2, 4) on
    one unit give one conflict with intersection [2, 3); A = [1, 2) and
    B = [2, 3) give none. *)
Example detectConflicts_overlap :
  Calendar.detectConflicts [event "unit-1" "A" 1 3; event "unit-1" "B" 2 4]
  = [ConflictInfo.mk (event "unit-1" "A" 1 3) (event "unit-1" "B" 2 4) 2 3].
Proof. reflexivity. Qed.

Example detectConflicts_adjacent :
  Calendar.detectConflicts [event "unit-1" "A" 1 2; event "unit-1" "B" 2 3]
  = [].
Proof. reflexivity. Qed.

Lemma detectConflicts_exactly_overlapping_pairs_witness :
  Calendar.pairs_emitted (event "unit-1" "A" 1 3) (event "unit-1" "B" 2 4)
    (Calendar.detectConflicts
       [event "unit-1" "A" 1 3; event "unit-2" "C" 1 3;
        event "unit-1" "B" 2 4])
  = 1%nat.
Proof.
  refine (proj1 (detectConflicts_exactly_overlapping_pairs
                   [event "unit-1" "A" 1 3; event "unit-2" "C" 1 3;
                    event "unit-1" "B" 2 4] _)
                (event "unit-1" "A" 1 3) (event "unit-1" "B" 2 4) _ _ _).
  - repeat constructor; simpl; intuition discriminate.
  - simpl. auto.
  - simpl. auto.
  - discriminate.
Defined.

Lemma syncCalendar_idempotent_witness :
  let w := world [alice_stay] [] in
  let o := ICalAdapter.syncCalendar
             (feed [vevent "u1" (Some "Alice") 10 20]) airbnb_input "unit-1" w in
  World.reservations (after o) = World.reservations w.
Proof.
  refine (proj1 (syncCalendar_idempotent
                   (feed [vevent "u1" (Some "Alice") 10 20]) airbnb_input
                   "unit-1" (world [alice_stay] []) _)).
  intros e He. vm_compute in He. destruct He as [<-|[]]. reflexivity.
Defined.

Lemma reconcile_runs_never_duplicate_witness :
  let runs := [(feed [vevent "u1" (Some "Alice") 10 20], airbnb_input, "unit-1");
               (feed [vevent "u1" (Some "Alice") 11 21], airbnb_input, "unit-1");
               (feed [vevent "u1" (Some "Alice") 11 21], airbnb_input, "unit-1")] in
  count_key "airbnb" "airbnb-u1"
    (World.reservations (run_all runs (world [] []))) = 1%nat.
Proof.
  destruct (proj2 (proj2 (proj2 (proj2 (reconcile_runs_never_duplicate
    [(feed [vevent "u1" (Some "Alice") 10 20], airbnb_input, "unit-1");
     (feed [vevent "u1" (Some "Alice") 11 21], airbnb_input, "unit-1");
     (feed [vevent "u1" (Some "Alice") 11 21], airbnb_input, "unit-1")]
    (world [] []) "airbnb" "u1")))) eq_refl (or_introl eq_refl))
    as (r & _ & H).
  exact H.
Defined.

(** *** The reconciler on the sample deployment *)

(** C5 fails as stated: a document the parser refuses gives a run
    reported as a success, without error. *)
Lemma unparsable_document_reported_as_success :
  Env.ICAL_parse garbage_feed "<html>Sign in</html>"
  = inl (JsError "invalid ical body")
  /\ returned (ICalAdapter.syncCalendar garbage_feed airbnb_input "unit-1"
                 (world [] []))
     = Some (CalendarSyncResult.mk true 0 0 0 0 0 None).
Proof. split; reflexivity. Qed.

Lemma unparsable_document_synced_as_empty_witness :
  World.syncLogs
    (after (ICalAdapter.syncCalendar garbage_feed airbnb_input "unit-1"
              (world [] [])))
  = [SyncLog.mk "map-1" SyncLog.success (Some 0%nat) (Some 0%nat)
       (Some 0%nat) None 5000].
Proof.
  rewrite (unparsable_document_synced_as_empty garbage_feed airbnb_input
             "unit-1" (world [] []) feed_url 200 "<html>Sign in</html>"
             (JsError "invalid ical body"));
    reflexivity.
Defined.

(** C6 fails as stated: the stored guest name is ["Alice"] and the feed
    now titles the same stay ["Bob"], with the same dates; the run
    updates nothing and the stored name stays. *)
Lemma title_change_alone_not_written :
  let o := ICalAdapter.syncCalendar (feed [vevent "u1" (Some "Bob") 10 20])
             airbnb_input "unit-1" (world [alice_stay] []) in
  Reservation.guestName alice_stay <> "Bob"
  /\ returned o = Some (CalendarSyncResult.mk true 1 0 0 0 0 None)
  /\ World.reservations (after o) = [alice_stay].
Proof. split; [discriminate|]. split; reflexivity. Qed.

Lemma existing_updated_when_dates_differ_witness :
  ICalAdapter.processEvent airbnb_input "unit-1"
    (ICalEvent.mk "u1" "Bob" 10 20 None) (0, 0)%nat (world [alice_stay] [])
  = Ok (0, 0)%nat (world [alice_stay] [])
  /\ exists w',
      ICalAdapter.processEvent airbnb_input "unit-1"
        (ICalEvent.mk "u1" "Bob" 12 20 None) (0, 0)%nat
        (world [alice_stay] [])
      = Ok (0, 1)%nat w'
      /\ World.reservations w'
         = [Reservation.mk 0 "unit-1" "airbnb" "Bob" 12 20 confirmed
              (Some "airbnb-u1") None].
Proof.
  split.
  - refine (proj2 (existing_updated_when_dates_differ airbnb_input "unit-1"
                     (ICalEvent.mk "u1" "Bob" 10 20 None) (0, 0)%nat
                     (world [alice_stay] []) alice_stay _ _ _) _).
    + reflexivity.
    + repeat constructor. simpl. tauto.
    + reflexivity.
    + split; reflexivity.
  - assert (Hnd : NoDup (map Reservation.id
                            (World.reservations (world [alice_stay] []))))
      by (repeat constructor; simpl; tauto).
    assert (Hd : Reservation.checkIn alice_stay <> 12
                 \/ Reservation.checkOut alice_stay <> 20)
      by (left; discriminate).
    destruct (proj1 (existing_updated_when_dates_differ airbnb_input "unit-1"
                       (ICalEvent.mk "u1" "Bob" 12 20 None) (0, 0)%nat
                       (world [alice_stay] []) alice_stay eq_refl Hnd eq_refl)
                    Hd)
      as (before & behind & Hrows & Hrun).
    eexists. split; [exact Hrun|].
    destruct before as [|x before].
    + simpl in Hrows. injection Hrows as <-. reflexivity.
    + destruct before; discriminate.
Defined.

(** C7 fails as stated: a VEVENT without a title, with no reservation
    under its key, is stored with the guest name ["Blocked"], not
    ["Guest"]; an empty title gives the same. *)
Lemma untitled_event_named_Blocked :
  World.reservations
    (after (ICalAdapter.syncCalendar (feed [vevent "u2" None 30 40])
              airbnb_input "unit-1" (world [] [])))
  = [Reservation.mk 0 "unit-1" "airbnb" "Blocked" 30 40 confirmed
       (Some "airbnb-u2") None]
  /\ World.reservations
       (after (ICalAdapter.syncCalendar (feed [vevent "u2" (Some "") 30 40])
                 airbnb_input "unit-1" (world [] [])))
     = [Reservation.mk 0 "unit-1" "airbnb" "Blocked" 30 40 confirmed
          (Some "airbnb-u2") None].
Proof. split; reflexivity. Qed.

Lemma new_event_created_witness :
  ICalAdapter.processEvent airbnb_input "unit-1"
    (ICalEvent.mk "u2" "Dana" 30 40 None) (0, 0)%nat (world [alice_stay] [])
  = Ok (1, 0)%nat
       (World.set_nextId 2
          (World.set_reservations
             [alice_stay;
              Reservation.mk 1 "unit-1" "airbnb" "Dana" 30 40 confirmed
                (Some "airbnb-u2") None]
             (world [alice_stay] []))).
Proof.
  exact (proj1 (new_event_created (feed []) airbnb_input "unit-1")
               (ICalEvent.mk "u2" "Dana" 30 40 None) (0, 0)%nat
               (world [alice_stay] []) eq_refl eq_refl).
Defined.

(** C8 fails as stated: a feed entry that starts at 40 and ends at 30 is
    stored with check-in 40 and check-out 30. *)
Lemma inverted_entry_persisted :
  let o := ICalAdapter.syncCalendar (feed [vevent "u3" (Some "Eve") 40 30])
             airbnb_input "unit-1" (world [] []) in
  returned o = Some (CalendarSyncResult.mk true 1 1 0 1 0 None)
  /\ World.reservations (after o)
     = [Reservation.mk 0 "unit-1" "airbnb" "Eve" 40 30 confirmed
          (Some "airbnb-u3") None]
  /\ ~ 40 < 30.
Proof. split; [reflexivity|]. split; [reflexivity|lia]. Qed.

Lemma feed_dates_persisted_as_given_witness :
  Forall well_dated
    (World.reservations
       (after (ICalAdapter.syncCalendar
                 (feed [vevent "u1" (Some "Alice") 12 22;
                        vevent "u2" (Some "Dana") 30 40])
                 airbnb_input "unit-1" (world [alice_stay] [])))).
Proof.
  refine (proj2 (proj2 (feed_dates_persisted_as_given
                          (feed [vevent "u1" (Some "Alice") 12 22;
                                 vevent "u2" (Some "Dana") 30 40])
                          airbnb_input "unit-1"))
                (world [alice_stay] []) _ _).
  - intros e He. vm_compute in He.
    destruct He as [<-|[<-|[]]]; reflexivity.
  - repeat constructor.
Defined.

(** *** The scheduler on the sample deployment *)

(** C4.  The connection was last synced at 1000 and the clock reads
    5000.  A batch whose fetch is answered 503, or is not answered at
    all, records the failure reason and a failed sync log, and sets
    [lastSyncAt] to 5000; so does a sync of the one channel through the
    calendar service. *)
Theorem failed_fetch_advances_lastSyncAt :
  let failed reason :=
    [ChannelMapping.mk "map-1" "prop-1" "airbnb" (Some feed_url)
       (Some 5000) (Some reason)] in
  let logged reason :=
    [SyncLog.mk "map-1" SyncLog.failed None None None (Some reason) 5000] in
  let w := world [] [] in
  ChannelMapping.lastSyncAt airbnb = Some 1000
  /\ World.channelMappings (after (SyncScheduler.runSync unavailable_feed w))
     = failed "Failed to fetch iCal: 503"
  /\ World.syncLogs (after (SyncScheduler.runSync unavailable_feed w))
     = logged "Failed to fetch iCal: 503"
  /\ World.channelMappings (after (SyncScheduler.runSync unreachable_feed w))
     = failed "fetch failed"
  /\ World.syncLogs (after (SyncScheduler.runSync unreachable_feed w))
     = logged "fetch failed"
  /\ World.channelMappings
       (after (CalendarService.syncChannel unavailable_feed "alice" "map-1" w))
     = failed "Failed to fetch iCal: 503"
  /\ World.channelMappings
       (after (CalendarService.syncChannel unreachable_feed "alice" "map-1" w))
     = failed "fetch failed".
Proof. repeat split. Qed.

Lemma runSync_single_flight_witness :
  let running := Scheduler.mk true true (Some 4000) [] in
  let busy := World.set_scheduler running (world [alice_stay] []) in
  SyncScheduler.runSync (feed [vevent "u2" (Some "Dana") 30 40]) busy
  = Ok [] busy
  /\ exists results w',
       SyncScheduler.runSync unavailable_feed (world [] []) = Ok results w'
       /\ Scheduler.isRunning (World.scheduler w') = false
       /\ Scheduler.lastResults (World.scheduler w') = results.
Proof.
  split.
  - exact (proj1 (runSync_single_flight
                    (feed [vevent "u2" (Some "Dana") 30 40])
                    (World.set_scheduler (Scheduler.mk true true (Some 4000) [])
                       (world [alice_stay] [])))
                 eq_refl).
  - exact (proj1 (proj2 (runSync_single_flight unavailable_feed (world [] []))
                        eq_refl)).
Defined.

(** *** Manual reservations on the sample deployment *)

(** C10 fails as stated: Alice's stay from 10 to 20 overlaps the request
    from 15 to 25 on the same unit, and a user the unit does not belong
    to is told ["Unit not found"]. *)
Lemma stranger_told_unit_not_found :
  stay_overlaps_request
  /\ CalendarService.createReservation (feed []) "bob" request
       (world [alice_stay] [])
     = Throw (JsError "Unit not found") (world [alice_stay] []).
Proof. split; [|reflexivity]. repeat split. Qed.

Lemma alice_owns_unit1 rows blocks :
  unit_of_a_property_of (world rows blocks) "alice" "unit-1".
Proof.
  exists beach_house, unit1.
  split; [left; reflexivity|]. split; [reflexivity|].
  split; [left; reflexivity|]. split; reflexivity.
Defined.

Lemma nobody_else_owns_unit1 rows blocks userId :
  userId <> "alice" ->
  ~ unit_of_a_property_of (world rows blocks) userId "unit-1".
Proof.
  intros Hne (p & u & Hp & Huser & _). simpl in Hp.
  destruct Hp as [<-|[]]. apply Hne. symmetry. exact Huser.
Defined.

Lemma createReservation_refuses_overlap_witness :
  CalendarService.createReservation (feed []) "alice" request
    (world [alice_stay] [])
  = Throw (JsError "Dates conflict with existing reservation")
          (world [alice_stay] [])
  /\ returned (CalendarService.createReservation (feed []) "alice" request
                 (World.set_availabilityBlocks [maintenance_block]
                    (world [] [])))
     = Some (Reservation.mk 0 "unit-1" "direct" "Carol" 15 25 confirmed
               None None)
  /\ CalendarService.createReservation (feed []) "carol" request
       (world [] [maintenance_block])
     = Throw (JsError "Unit not found") (world [] [maintenance_block]).
Proof.
  split; [|split].
  - refine (proj1 (proj2 (createReservation_refuses_overlap (feed []) "alice"
                            request (world [alice_stay] []) eq_refl)
                         (alice_owns_unit1 _ _)) _).
    exists alice_stay. repeat split; simpl; auto.
  - rewrite (proj2 (proj2 (createReservation_refuses_overlap (feed []) "alice"
                             request (world [] []) eq_refl)
                          (alice_owns_unit1 _ _))
                   (fun r (H : In r []) => match H with end)
                   [maintenance_block]).
    reflexivity.
  - refine (proj1 (createReservation_refuses_overlap (feed []) "carol"
                     request (world [] [maintenance_block]) eq_refl) _).
    apply nobody_else_owns_unit1. discriminate.
Defined.
End Samples.

(** * Further properties *)

(** ** The reconciler: what a run leaves alone *)

Section Keeps.
Context {B : Type} (part : World.t -> B).
Hypothesis part_faults : forall fs w, part (World.set_faults fs w) = part w.

Lemma keeps_ret {A} (a : A) : keeps part (ret a).
Proof. intros w. reflexivity. Qed.

Lemma keeps_throw {A} e : keeps part (@throw A e).
Proof. intros w. reflexivity. Qed.

Lemma keeps_bind {A C} (m : M A) (k : A -> M C) :
  keeps part m -> (forall a, keeps part (k a)) -> keeps part (bind m k).
Proof.
  intros Hm Hk w. unfold bind. specialize (Hm w).
  destruct (m w) as [a w'|e w']; simpl in *; auto.
  now rewrite Hk.
Qed.

Lemma keeps_try_catch {A} (m : M A) h :
  keeps part m -> (forall e, keeps part (h e)) -> keeps part (try_catch m h).
Proof.
  intros Hm Hh w. unfold try_catch. specialize (Hm w).
  destruct (m w) as [a w'|e w']; simpl in *; auto.
  now rewrite Hh.
Qed.

Lemma keeps_db {A} (m : M A) : keeps part m -> keeps part (db m).
Proof.
  intros Hm w. unfold db.
  destruct (World.faults w) as [|[e|] fs]; simpl;
    rewrite ?Hm, ?part_faults; reflexivity.
Qed.
End Keeps.

Section Surroundings.
Import Db ICalAdapter.

Lemma surroundings_faults fs w :
  surroundings (World.set_faults fs w) = surroundings w.
Proof. reflexivity. Qed.

Lemma keeps_processEvents mapping unitId events counts :
  keeps surroundings (processEvents mapping unitId events counts).
Proof.
  intros w.
  pose proof (processEvents_outcome mapping unitId events counts w) as H.
  cbv zeta in H. unfold surroundings.
  destruct (processEvents mapping unitId events counts w); simpl;
    destruct H as (_ & (H1 & _ & H2 & H3 & H4 & _ & _ & H5) & _);
    now rewrite H1, H2, H3, H4, H5.
Qed.

Lemma keeps_syncLog_create log : keeps surroundings (syncLog_create log).
Proof. apply keeps_db; [apply surroundings_faults|]. intros w. reflexivity. Qed.

Lemma keeps_syncCalendar env mapping unitId :
  keeps surroundings (syncCalendar env mapping unitId).
Proof.
  unfold syncCalendar.
  destruct (or_null (ChannelMappingInput.iCalUrl mapping));
    [|apply keeps_ret].
  apply keeps_try_catch.
  - apply keeps_bind.
    + intros w. unfold fetch. now destruct (Env.network env s).
    + intros [status body]. cbn [fst snd].
      destruct (negb (response_ok status)); [apply keeps_throw|].
      apply keeps_bind.
      * intros w.
        destruct (parseICalData_total env body w) as (evs & n & ->).
        reflexivity.
      * intros events. apply keeps_bind; [apply keeps_processEvents|].
        intros [c u]. unfold sync_succeeded.
        apply keeps_bind; [apply keeps_syncLog_create|].
        intros _. apply keeps_ret.
  - intros e. unfold sync_failed.
    apply keeps_bind; [apply keeps_syncLog_create|].
    intros _. apply keeps_ret.
Qed.

Lemma syncCalendar_requests env mapping unitId w :
  World.requests (after (syncCalendar env mapping unitId w))
  = World.requests w
    ++ match or_null (ChannelMappingInput.iCalUrl mapping) with
       | Some url => [url]
       | None => []
       end.
Proof.
  rewrite syncCalendar_eq.
  assert (Hfail : forall e w2,
            World.requests (after (sync_failed env mapping e w2))
            = World.requests w2).
  { intros e w2. unfold sync_failed, bind, syncLog_create, db.
    destruct (World.faults w2) as [|[x|] fs]; reflexivity. }
  destruct (or_null (ChannelMappingInput.iCalUrl mapping)) as [url|];
    [|cbn; now rewrite app_nil_r].
  cbv zeta.
  set (w1 := World.set_requests (World.requests w ++ [url]) w).
  destruct (Env.network env url) as [e|status body]; [now rewrite Hfail|].
  destruct (response_ok status); [|now rewrite Hfail].
  destruct (parseICalData_total env body w1) as (events & n & ->).
  pose proof (processEvents_outcome mapping unitId events (0, 0)%nat
                (World.set_uuids n w1)) as Hloop. cbv zeta in Hloop.
  destruct (processEvents mapping unitId events (0, 0)%nat
              (World.set_uuids n w1)) as [[c u] w3|e w3].
  - destruct Hloop as (_ & (_ & _ & _ & _ & _ & _ & Hr & _) & _).
    assert (Hok : World.requests
                    (after (sync_succeeded env mapping (List.length events)
                              (c, u) w3)) = World.requests w3).
    { unfold sync_succeeded, bind, syncLog_create, db.
      destruct (World.faults w3) as [|[x|] fs]; reflexivity. }
    destruct (sync_succeeded env mapping (List.length events) (c, u) w3)
      as [r w4|e w4]; cbn [after] in Hok.
    + cbn [after]. now rewrite Hok, Hr.
    + now rewrite Hfail, Hok, Hr.
  - destruct Hloop as (_ & (_ & _ & _ & _ & _ & _ & Hr & _) & _).
    now rewrite Hfail, Hr.
Qed.

(** X1. A run of the reconciler, whatever the feed and the store faults,
    leaves the availability blocks, the properties, the units, the channel
    mappings and the scheduler as they are, and issues at most one
    request: none without a URL, else one to the URL of the mapping. *)
Theorem syncCalendar_touches_only_its_tables env mapping unitId w :
  let w' := after (syncCalendar env mapping unitId w) in
  World.availabilityBlocks w' = World.availabilityBlocks w
  /\ World.properties w' = World.properties w
  /\ World.units w' = World.units w
  /\ World.channelMappings w' = World.channelMappings w
  /\ World.scheduler w' = World.scheduler w
  /\ World.requests w'
     = World.requests w
       ++ match or_null (ChannelMappingInput.iCalUrl mapping) with
          | Some url => [url]
          | None => []
          end.
Proof.
  cbv zeta.
  pose proof (keeps_syncCalendar env mapping unitId w) as H.
  unfold surroundings in H. injection H as H1 H2 H3 H4 H5.
  repeat split; auto. apply syncCalendar_requests.
Qed.
End Surroundings.

(** ** The reconciler: what a run does to the reservations *)

Section TableGrowth.
Import Db ICalAdapter.

Lemma step_identity ch u e s :
  exists added,
    map identity_fields (Pure.rows (Pure.step ch u e s))
    = map identity_fields (Pure.rows s) ++ added.
Proof.
  unfold Pure.step.
  destruct (find _ (Pure.rows s)) as [ex|].
  - destruct (Pure.changed ex e); [|exists []; now rewrite app_nil_r].
    destruct (update_row _ _ _ _ (Pure.rows s)) as [rows'|] eqn:Hu;
      [|exists []; now rewrite app_nil_r].
    exists []. cbn [Pure.rows].
    now rewrite (update_row_identity _ _ _ _ _ _ Hu), app_nil_r.
  - eexists. cbn [Pure.rows]. now rewrite map_app.
Qed.

Lemma steps_identity ch u events s :
  exists added,
    map identity_fields (Pure.rows (Pure.steps ch u events s))
    = map identity_fields (Pure.rows s) ++ added.
Proof.
  unfold Pure.steps. revert s.
  induction events as [|e events IH]; intros s; cbn [fold_left].
  - exists []. now rewrite app_nil_r.
  - destruct (IH (Pure.step ch u e s)) as (a2 & H2).
    destruct (step_identity ch u e s) as (a1 & H1).
    exists (a1 ++ a2). now rewrite H2, H1, app_assoc.
Qed.

(** X2. Over any number of runs of the reconciler, on any feeds and under
    any store faults, no reservation is deleted or moved and none has its
    id, unit, channel, status, external id or total changed: the table
    after the runs is the table before, with at most check-in, check-out
    and guest name rewritten, followed by the reservations created. *)
Theorem reconciler_only_appends (runs : list Run) w :
  exists added,
    map identity_fields (World.reservations (run_all runs w))
    = map identity_fields (World.reservations w) ++ added.
Proof.
  unfold run_all. revert w.
  induction runs as [|[[env mapping] unitId] runs IH]; intros w;
    cbn [fold_left].
  - exists []. now rewrite app_nil_r.
  - destruct (IH (after (syncCalendar env mapping unitId w))) as (a2 & H2).
    destruct (syncCalendar_outcome env mapping unitId w)
      as (done & rest & _ & Hrows & _).
    destruct (steps_identity (ChannelMappingInput.channel mapping) unitId done
                (Pure.of_world w (0, 0)%nat)) as (a1 & H1).
    exists (a1 ++ a2). rewrite H2, Hrows, H1. cbn [Pure.rows Pure.of_world].
    now rewrite app_assoc.
Qed.

Lemma update_row_length id ci co g rows rows' :
  update_row id ci co g rows = Some rows' ->
  List.length rows' = List.length rows.
Proof.
  intros H. apply update_row_identity in H.
  apply (f_equal (@List.length _)) in H. now rewrite !length_map in H.
Qed.

Lemma step_accounting ch u e s :
  let s' := Pure.step ch u e s in
  (List.length (Pure.rows s') + Pure.created s
   = List.length (Pure.rows s) + Pure.created s')%nat
  /\ (Pure.nextId s' + Pure.created s = Pure.nextId s + Pure.created s')%nat
  /\ (Pure.created s <= Pure.created s')%nat
  /\ (Pure.updated s <= Pure.updated s')%nat
  /\ (Pure.created s' + Pure.updated s'
      <= Pure.created s + Pure.updated s + 1)%nat.
Proof.
  cbv zeta. unfold Pure.step.
  destruct (find _ (Pure.rows s)) as [ex|].
  - destruct (Pure.changed ex e); [|lia].
    destruct (update_row _ _ _ _ (Pure.rows s)) as [rows'|] eqn:Hu; [|lia].
    cbn [Pure.rows Pure.nextId Pure.created Pure.updated].
    rewrite (update_row_length _ _ _ _ _ _ Hu). lia.
  - cbn [Pure.rows Pure.nextId Pure.created Pure.updated].
    rewrite length_app. cbn [List.length]. lia.
Qed.

Lemma steps_accounting ch u events s :
  let s' := Pure.steps ch u events s in
  (List.length (Pure.rows s') + Pure.created s
   = List.length (Pure.rows s) + Pure.created s')%nat
  /\ (Pure.nextId s' + Pure.created s = Pure.nextId s + Pure.created s')%nat
  /\ (Pure.created s <= Pure.created s')%nat
  /\ (Pure.updated s <= Pure.updated s')%nat
  /\ (Pure.created s' + Pure.updated s'
      <= Pure.created s + Pure.updated s + List.length events)%nat.
Proof.
  cbv zeta. unfold Pure.steps. revert s.
  induction events as [|e events IH]; intros s; cbn [fold_left List.length];
    [lia|].
  specialize (IH (Pure.step ch u e s)).
  pose proof (step_accounting ch u e s) as H. cbv zeta in H. lia.
Qed.

(** X3. When a run of the reconciler returns a result with [success] set,
    the counts of the result account for the table: the number of fetched
    events is [eventsFound], the table has grown by exactly
    [eventsCreated] reservations, the id counter has advanced by as much,
    and created and updated events together are at most the events
    found. *)
Theorem successful_run_accounts_for_the_table env mapping unitId w r w' :
  syncCalendar env mapping unitId w = Ok r w' ->
  CalendarSyncResult.success r = true ->
  CalendarSyncResult.eventsFound r
  = List.length (fetched_events env mapping w)
  /\ List.length (World.reservations w')
     = (List.length (World.reservations w)
        + CalendarSyncResult.eventsCreated r)%nat
  /\ World.nextId w'
     = (World.nextId w + CalendarSyncResult.eventsCreated r)%nat
  /\ (CalendarSyncResult.eventsCreated r + CalendarSyncResult.eventsUpdated r
      <= CalendarSyncResult.eventsFound r)%nat
  /\ CalendarSyncResult.added r = CalendarSyncResult.eventsCreated r
  /\ CalendarSyncResult.updated r = CalendarSyncResult.eventsUpdated r
  /\ CalendarSyncResult.error r = None.
Proof.
  intros Hrun Hok.
  destruct (syncCalendar_outcome env mapping unitId w)
    as (done & rest & Hev & Hrows & Hnext & Hres).
  rewrite Hrun in Hrows, Hnext, Hres. cbn [after returned] in Hrows, Hnext, Hres.
  destruct (Hres r eq_refl) as [[-> Hr]|[msg Hr]].
  2:{ rewrite Hr in Hok. discriminate. }
  rewrite app_nil_r in Hev.
  pose proof (steps_accounting (ChannelMappingInput.channel mapping) unitId
                done (Pure.of_world w (0, 0)%nat)) as H.
  cbv zeta in H. cbn [Pure.of_world Pure.rows Pure.nextId Pure.created
                        Pure.updated fst snd] in H.
  rewrite Hrows, Hnext, Hr, Hev.
  cbn [CalendarSyncResult.eventsFound CalendarSyncResult.eventsCreated
       CalendarSyncResult.eventsUpdated CalendarSyncResult.added
       CalendarSyncResult.updated CalendarSyncResult.error].
  repeat split; try reflexivity; lia.
Qed.
End TableGrowth.

(** ** The reconciler: the sync log *)

Section SyncLogs.
Import Db ICalAdapter.

Lemma sync_failed_no_faults env mapping e w :
  World.faults w = [] ->
  sync_failed env mapping e w
  = Ok (failure (errorMessage e))
       (World.set_syncLogs
          (World.syncLogs w ++ [log_entry env mapping (failure (errorMessage e))])
          w).
Proof.
  intros Hf. unfold sync_failed, bind.
  now rewrite syncLog_create_no_faults.
Qed.

(** X4. With a store that does not fail, a run for a mapping that has a
    URL appends exactly one sync log, which tells the result returned:
    status success with the three counts of the result, or status failed
    with its error.  A run for a mapping without URL returns the failure
    ["No iCal URL configured"] and leaves the world as it is: it writes no
    log. *)
Theorem every_run_with_a_url_is_logged_once env mapping unitId w :
  World.faults w = [] ->
  exists r w',
    syncCalendar env mapping unitId w = Ok r w'
    /\ match or_null (ChannelMappingInput.iCalUrl mapping) with
       | Some _ =>
           World.syncLogs w' = World.syncLogs w ++ [log_entry env mapping r]
       | None => r = failure "No iCal URL configured" /\ w' = w
       end.
Proof.
  intros Hf. rewrite syncCalendar_eq.
  destruct (or_null (ChannelMappingInput.iCalUrl mapping)) as [url|];
    [|eexists _, _; repeat split].
  cbv zeta.
  set (w1 := World.set_requests (World.requests w ++ [url]) w).
  assert (Hfail : forall e, exists r w',
            sync_failed env mapping e w1 = Ok r w'
            /\ World.syncLogs w' = World.syncLogs w ++ [log_entry env mapping r]).
  { intros e. rewrite sync_failed_no_faults by exact Hf.
    eexists _, _. split; reflexivity. }
  destruct (Env.network env url) as [e|status body]; [apply Hfail|].
  destruct (response_ok status); [|apply Hfail].
  destruct (parseICalData_total env body w1) as (events & n & ->).
  pose proof (processEvents_outcome mapping unitId events (0, 0)%nat
                (World.set_uuids n w1)) as Hloop. cbv zeta in Hloop.
  destruct (processEvents mapping unitId events (0, 0)%nat
              (World.set_uuids n w1)) as [[c u] w3|e w3].
  - destruct Hloop as (_ & (_ & Hlogs & _) & Hq).
    unfold sync_succeeded, bind.
    rewrite syncLog_create_no_faults by (apply Hq; exact Hf).
    eexists _, _. split; [reflexivity|].
    cbn [World.syncLogs World.set_syncLogs]. rewrite Hlogs. reflexivity.
  - destruct Hloop as (_ & _ & Hq). exfalso. apply Hq. exact Hf.
Qed.
End SyncLogs.

(** ** The parser: entries without dates, entries without uid *)

Section Parser.
Import Db ICalAdapter.

Lemma parse_vevents_without_undated env vevents w :
  parse_vevents (without_undated env) (filter has_dates vevents) w
  = parse_vevents env vevents w.
Proof.
  revert w. induction vevents as [|v vevents IH]; intros w; [reflexivity|].
  cbn [filter]. unfold has_dates at 1. cbn [parse_vevents].
  destruct (VEvent.startDate v) as [sd|] eqn:Hs; [|apply IH].
  destruct (VEvent.endDate v) as [ed|] eqn:He; [|apply IH].
  cbn [parse_vevents]. rewrite Hs, He. unfold bind at 1 3.
  destruct (falsy (VEvent.uid v)).
  - unfold randomUUID. cbn [without_undated Env.randomUUID].
    unfold bind. now rewrite IH.
  - unfold ret at 1 3. unfold bind. now rewrite IH.
Qed.

(** X5. A VEVENT without a start or without an end takes no part in a
    run: leaving such entries out of the parsed document changes neither
    the result of [syncCalendar] nor the world it leaves (no uid is drawn
    for them either). *)
Theorem undated_entries_take_no_part env mapping unitId w :
  syncCalendar (without_undated env) mapping unitId w
  = syncCalendar env mapping unitId w.
Proof.
  rewrite !syncCalendar_eq.
  destruct (or_null (ChannelMappingInput.iCalUrl mapping)) as [url|];
    [|reflexivity].
  cbv zeta. change (Env.network (without_undated env)) with (Env.network env).
  destruct (Env.network env url) as [e|status body]; [reflexivity|].
  destruct (response_ok status); [|reflexivity].
  assert (Hp : forall w1, parseICalData (without_undated env) body w1
                          = parseICalData env body w1).
  { intros w1. unfold parseICalData. cbn [without_undated Env.ICAL_parse].
    destruct (Env.ICAL_parse env body) as [|vevents]; [reflexivity|].
    apply parse_vevents_without_undated. }
  rewrite Hp.
  destruct (parseICalData env body _) as [events w2|e w2]; reflexivity.
Qed.

Lemma parse_vevents_with_uids env vevents w :
  (forall v, In v vevents -> has_dates v = true ->
             falsy (VEvent.uid v) = false) ->
  parse_vevents env vevents w = Ok (flat_map canonical vevents) w.
Proof.
  revert w. induction vevents as [|v vevents IH]; intros w Hall;
    [reflexivity|].
  cbn [parse_vevents flat_map]. unfold canonical at 1.
  assert (Hv := Hall v (or_introl eq_refl)). unfold has_dates in Hv.
  assert (IH' := IH w (fun x Hx => Hall x (or_intror Hx))).
  destruct (VEvent.startDate v) as [sd|]; [|exact IH'].
  destruct (VEvent.endDate v) as [ed|]; [|exact IH'].
  rewrite (Hv eq_refl). unfold bind, ret at 1. now rewrite IH'.
Qed.

(** X6. When every entry of the fetched document that has its dates also
    has a uid, the events of a run are, in the order of the document, the
    entries with both dates, each with its own uid, its title (or
    ["Blocked"]) and its dates; no uid is drawn, so a run started in any
    other world fetches the same events. *)
Theorem feed_with_uids_is_read_the_same_everywhere env mapping w :
  (forall v, In v (fetched_vevents env mapping) -> has_dates v = true ->
             falsy (VEvent.uid v) = false) ->
  fetched_events env mapping w = flat_map canonical (fetched_vevents env mapping)
  /\ forall w2, fetched_events env mapping w2 = fetched_events env mapping w.
Proof.
  intros Hall.
  assert (H : forall w0, fetched_events env mapping w0
                         = flat_map canonical (fetched_vevents env mapping)).
  { intros w0. unfold fetched_events, fetched_vevents in *.
    destruct (or_null (ChannelMappingInput.iCalUrl mapping)) as [url|];
      [|reflexivity].
    destruct (Env.network env url) as [e|status body]; [reflexivity|].
    destruct (response_ok status); [|reflexivity].
    unfold parseICalData.
    destruct (Env.ICAL_parse env body) as [|vevents]; [reflexivity|].
    now rewrite parse_vevents_with_uids. }
  split; [apply H|]. intros w2. now rewrite !H.
Qed.

(** *** Entries without uid *)

Lemma parse_vevents_generated env vevents w :
  (forall v, In v vevents ->
             has_dates v = true /\ falsy (VEvent.uid v) = true) ->
  exists events,
    parse_vevents env vevents w
    = Ok events (World.set_uuids (World.uuids w + List.length vevents) w)
    /\ map ICalEvent.uid events
       = map (Env.randomUUID env) (seq (World.uuids w) (List.length vevents)).
Proof.
  revert w. induction vevents as [|v vevents IH]; intros w Hall.
  - exists []. cbn. rewrite Nat.add_0_r. split; [|reflexivity].
    unfold ret. now destruct w.
  - destruct (Hall v (or_introl eq_refl)) as [Hd Hu].
    cbn [parse_vevents]. unfold has_dates in Hd.
    destruct (VEvent.startDate v) as [sd|]; [|discriminate].
    destruct (VEvent.endDate v) as [ed|]; [|discriminate].
    rewrite Hu. unfold bind at 1, randomUUID.
    destruct (IH (World.set_uuids (S (World.uuids w)) w)
                 (fun x Hx => Hall x (or_intror Hx))) as (evs & Hp & Hm).
    unfold bind. rewrite Hp. unfold ret. eexists. split.
    + cbn [World.uuids World.set_uuids List.length].
      replace (S (World.uuids w) + List.length vevents)%nat
        with (World.uuids w + S (List.length vevents))%nat by lia.
      reflexivity.
    + cbn [map seq List.length ICalEvent.uid]. f_equal. exact Hm.
Qed.

Lemma matches_key_other ch id u e e' :
  ICalEvent.uid e <> ICalEvent.uid e' ->
  matches_key ch (externalIdOf ch (ICalEvent.uid e'))
    (Pure.new_row id u ch e) = false.
Proof.
  intros Hne.
  destruct (matches_key _ _ (Pure.new_row id u ch e)) eqn:Hm; auto.
  apply matches_key_new in Hm. destruct Hm as [_ Hx].
  apply externalIdOf_inj in Hx. contradiction.
Qed.

Lemma steps_all_new ch u events s :
  NoDup (map ICalEvent.uid events) ->
  (forall e, In e events ->
     find (matches_key ch (externalIdOf ch (ICalEvent.uid e))) (Pure.rows s)
     = None) ->
  let s' := Pure.steps ch u events s in
  Pure.created s' = (Pure.created s + List.length events)%nat
  /\ Pure.updated s' = Pure.updated s
  /\ List.length (Pure.rows s')
     = (List.length (Pure.rows s) + List.length events)%nat.
Proof.
  cbv zeta. unfold Pure.steps. revert s.
  induction events as [|e events IH]; intros s Hnd Hnew;
    cbn [fold_left List.length]; [lia|].
  inversion Hnd as [|? ? Hne Hnd']; subst.
  assert (Hstep : Pure.step ch u e s
                  = Pure.mkState
                      (Pure.rows s ++ [Pure.new_row (Pure.nextId s) u ch e])
                      (S (Pure.nextId s)) (S (Pure.created s)) (Pure.updated s)).
  { unfold Pure.step. now rewrite (Hnew e (or_introl eq_refl)). }
  rewrite Hstep.
  destruct (IH (Pure.mkState
                  (Pure.rows s ++ [Pure.new_row (Pure.nextId s) u ch e])
                  (S (Pure.nextId s)) (S (Pure.created s)) (Pure.updated s))
               Hnd') as (H1 & H2 & H3).
  - intros e' He'. cbn [Pure.rows]. rewrite find_app_first.
    rewrite (Hnew e' (or_intror He')). cbn [find].
    rewrite matches_key_other; auto.
    intros Heq. apply Hne. rewrite Heq. now apply in_map.
  - cbn [Pure.rows Pure.created Pure.updated] in *.
    rewrite length_app in H3. cbn [List.length] in H3. lia.
Qed.

(** X7. An entry without uid is given a freshly drawn uid at every run.
    On a store that does not fail, when every entry of the fetched
    document has its dates and no uid, and the uids drawn in the run
    differ from each other and are under no stored reservation of the
    channel, the run creates a reservation for every entry, whatever
    earlier runs of the same feed have stored. *)
Theorem entries_without_uid_are_created_at_every_run env mapping unitId w :
  World.faults w = [] ->
  (forall v, In v (fetched_vevents env mapping) ->
             has_dates v = true /\ falsy (VEvent.uid v) = true) ->
  let n := List.length (fetched_vevents env mapping) in
  let drawn := map (Env.randomUUID env) (seq (World.uuids w) n) in
  NoDup drawn ->
  (forall uid, In uid drawn ->
     find (matches_key (ChannelMappingInput.channel mapping)
             (externalIdOf (ChannelMappingInput.channel mapping) uid))
          (World.reservations w) = None) ->
  exists r w',
    syncCalendar env mapping unitId w = Ok r w'
    /\ CalendarSyncResult.eventsCreated r = n
    /\ CalendarSyncResult.eventsUpdated r = 0%nat
    /\ List.length (World.reservations w')
       = (List.length (World.reservations w) + n)%nat
    /\ World.uuids w' = (World.uuids w + n)%nat.
Proof.
  intros Hf Hall n drawn Hnd Hnew. subst n drawn.
  rewrite syncCalendar_eq. unfold fetched_vevents in *.
  destruct (or_null (ChannelMappingInput.iCalUrl mapping)) as [url|].
  2:{ eexists _, _. split; [reflexivity|]. cbn. repeat split; lia. }
  cbv zeta.
  set (w1 := World.set_requests (World.requests w ++ [url]) w).
  assert (Hfail : forall e, exists r w',
            sync_failed env mapping e w1 = Ok r w'
            /\ CalendarSyncResult.eventsCreated r = 0%nat
            /\ CalendarSyncResult.eventsUpdated r = 0%nat
            /\ List.length (World.reservations w')
               = (List.length (World.reservations w) + 0)%nat
            /\ World.uuids w' = (World.uuids w + 0)%nat).
  { intros e. rewrite sync_failed_no_faults by exact Hf.
    eexists _, _. split; [reflexivity|]. cbn. repeat split; lia. }
  destruct (Env.network env url) as [e|status body]; [apply Hfail|].
  destruct (response_ok status); [|apply Hfail].
  unfold parseICalData.
  destruct (Env.ICAL_parse env body) as [e|vevents].
  { unfold ret at 1. cbn [processEvents]. unfold ret at 1.
    unfold sync_succeeded, bind.
    rewrite syncLog_create_no_faults by exact Hf.
    eexists _, _. split; [reflexivity|]. cbn. repeat split; lia. }
  destruct (parse_vevents_generated env vevents w1 Hall) as (events & -> & Hu).
  change (World.uuids w1) with (World.uuids w) in *.
  set (w2 := World.set_uuids (World.uuids w + List.length vevents) w1).
  assert (Hlen : List.length events = List.length vevents).
  { apply (f_equal (@List.length _)) in Hu.
    now rewrite !length_map, length_seq in Hu. }
  pose proof (processEvents_outcome mapping unitId events (0, 0)%nat w2)
    as Hloop. cbv zeta in Hloop.
  destruct (processEvents mapping unitId events (0, 0)%nat w2)
    as [[c u] w3|e w3].
  2:{ destruct Hloop as (_ & _ & Hq). exfalso. apply Hq. exact Hf. }
  destruct Hloop as (Hs & (_ & _ & _ & _ & _ & Huu & _) & Hq).
  destruct (steps_all_new (ChannelMappingInput.channel mapping) unitId events
              (Pure.of_world w2 (0, 0)%nat)) as (H1 & H2 & H3).
  { now rewrite Hu. }
  { intros e He. apply Hnew. rewrite <- Hu. now apply in_map. }
  rewrite <- Hs in H1, H2, H3.
  cbn [Pure.of_world Pure.rows Pure.created Pure.updated fst snd] in H1, H2, H3.
  unfold sync_succeeded, bind.
  rewrite syncLog_create_no_faults by (apply Hq; exact Hf).
  eexists _, _. split; [reflexivity|].
  cbn [CalendarSyncResult.eventsCreated CalendarSyncResult.eventsUpdated
       World.reservations World.uuids World.set_syncLogs].
  rewrite H1, H2, H3, Huu, Hlen. cbn. repeat split; lia.
Qed.
End Parser.

(** ** The scheduler: one result per channel *)

Section Batch.
Import Db ICalAdapter SyncScheduler.

Lemma update_mapping_found id data rows :
  In id (map ChannelMapping.id rows) ->
  (forall m, ChannelMapping.id (data m) = ChannelMapping.id m) ->
  exists rows',
    update_mapping id data rows = Some rows'
    /\ map ChannelMapping.id rows' = map ChannelMapping.id rows.
Proof.
  intros Hin Hdata. induction rows as [|m rows IH]; [destruct Hin|].
  cbn [update_mapping].
  destruct (String.eqb (ChannelMapping.id m) id) eqn:Hm.
  - eexists. split; [reflexivity|]. cbn. now rewrite Hdata.
  - destruct IH as (rest' & -> & Hids).
    + destruct Hin as [Hin|Hin]; auto.
      apply String.eqb_neq in Hm. contradiction.
    + eexists. split; [reflexivity|]. cbn. now rewrite Hids.
Qed.

Lemma channelMapping_update_no_faults id data w :
  World.faults w = [] ->
  In id (map ChannelMapping.id (World.channelMappings w)) ->
  (forall m, ChannelMapping.id (data m) = ChannelMapping.id m) ->
  exists rows',
    update_mapping id data (World.channelMappings w) = Some rows'
    /\ map ChannelMapping.id rows' = map ChannelMapping.id (World.channelMappings w)
    /\ channelMapping_update id data w
       = Ok tt (World.set_channelMappings rows' w).
Proof.
  intros Hf Hin Hdata.
  destruct (update_mapping_found id data _ Hin Hdata) as (rows' & Hu & Hids).
  exists rows'. split; [assumption|]. split; [assumption|].
  unfold channelMapping_update. rewrite db_no_faults by assumption.
  now rewrite Hu.
Qed.

Lemma syncCalendar_verdict env mapping unitId w :
  World.faults w = [] ->
  exists r w',
    syncCalendar env mapping unitId w = Ok r w'
    /\ World.faults w' = []
    /\ match or_null (ChannelMappingInput.iCalUrl mapping) with
       | None => r = failure "No iCal URL configured"
       | Some url =>
           match Env.network env url with
           | FetchRejects e => r = failure (errorMessage e)
           | FetchResponse status _ =>
               if response_ok status then
                 CalendarSyncResult.success r = true
                 /\ CalendarSyncResult.error r = None
               else
                 r = failure ("Failed to fetch iCal: "
                              ++ string_of_Z status)%string
           end
       end.
Proof.
  intros Hf. rewrite syncCalendar_eq.
  destruct (or_null (ChannelMappingInput.iCalUrl mapping)) as [url|];
    [|eauto].
  cbv zeta.
  destruct (Env.network env url) as [e|status body].
  { rewrite sync_failed_no_faults by exact Hf. eauto. }
  destruct (response_ok status).
  2:{ rewrite sync_failed_no_faults by exact Hf. eauto. }
  destruct (parseICalData_total env body
              (World.set_requests (World.requests w ++ [url]) w))
    as (events & n & ->).
  destruct (processEvents_returns mapping unitId events (0, 0)%nat
              (World.set_uuids n
                 (World.set_requests (World.requests w ++ [url]) w)) Hf)
    as ([c u] & w3 & -> & H3).
  unfold sync_succeeded, bind.
  rewrite syncLog_create_no_faults by assumption.
  eexists _, _. split; [reflexivity|]. split; [exact H3|]. split; reflexivity.
Qed.

Lemma syncMapping_no_faults env j w :
  World.faults w = [] ->
  In (ChannelMapping.id (mapping j))
     (map ChannelMapping.id (World.channelMappings w)) ->
  exists r w',
    syncMapping env j w = Ok r w'
    /\ SyncResult.channelId r = ChannelMapping.id (mapping j)
    /\ SyncResult.success r = falsy (SyncResult.error r)
    /\ reported env j r
    /\ World.faults w' = []
    /\ map ChannelMapping.id (World.channelMappings w')
       = map ChannelMapping.id (World.channelMappings w).
Proof.
  intros Hf Hin. unfold syncMapping, reported.
  destruct (units j) as [|unit rest].
  - eexists _, _. split; [reflexivity|]. unfold fails_with.
    repeat split; auto.
  - unfold try_catch, bind at 1.
    destruct (syncCalendar_verdict env (CalendarService.to_input (mapping j))
                (Unit.id unit) w Hf) as (sr & w1 & Hrun & Hf1 & Hverdict).
    rewrite Hrun.
    pose proof (keeps_syncCalendar env (CalendarService.to_input (mapping j))
                  (Unit.id unit) w) as Hk.
    rewrite Hrun in Hk. cbn [after] in Hk. unfold surroundings in Hk.
    injection Hk as _ _ _ Hmaps _.
    destruct (channelMapping_update_no_faults (ChannelMapping.id (mapping j))
                (set_lastSync (Env.now env)
                   (or_null (CalendarSyncResult.error sr))) w1 Hf1)
      as (rows' & _ & Hids & Hupd).
    + now rewrite Hmaps.
    + reflexivity.
    + unfold bind. rewrite Hupd. unfold ret.
      eexists _, _. split; [reflexivity|].
      cbn [SyncResult.channelId SyncResult.success SyncResult.error
           SyncResult.propertyName SyncResult.channel SyncResult.eventsAdded
           SyncResult.eventsUpdated
           World.faults World.channelMappings World.set_channelMappings].
      rewrite Hids, Hmaps.
      split; [reflexivity|]. split; [reflexivity|].
      split; [|split; [assumption|reflexivity]].
      split; [reflexivity|]. split; [reflexivity|]. split; [reflexivity|].
      cbn [CalendarService.to_input ChannelMappingInput.iCalUrl] in Hverdict.
      unfold fails_with.
      destruct (or_null (ChannelMapping.iCalUrl (mapping j))) as [url|].
      * destruct (Env.network env url) as [e|status body].
        -- subst sr. repeat split.
        -- destruct (response_ok status).
           ++ destruct Hverdict as [Hs He]. rewrite He. split; reflexivity.
           ++ subst sr. repeat split.
      * subst sr. repeat split.
Qed.

Lemma syncMappings_no_faults env js results w :
  World.faults w = [] ->
  (forall j, In j js ->
     In (ChannelMapping.id (mapping j))
        (map ChannelMapping.id (World.channelMappings w))) ->
  exists rs w',
    syncMappings env js results w = (results ++ rs, None, w')
    /\ map SyncResult.channelId rs
       = map (fun j => ChannelMapping.id (mapping j)) js
    /\ Forall (fun r => SyncResult.success r = falsy (SyncResult.error r)) rs
    /\ Forall2 (reported env) js rs
    /\ World.faults w' = [].
Proof.
  revert results w. induction js as [|j js IH]; intros results w Hf Hin.
  - exists [], w. rewrite app_nil_r. repeat split; auto.
  - cbn [syncMappings].
    destruct (syncMapping_no_faults env j w Hf (Hin j (or_introl eq_refl)))
      as (r & w1 & -> & Hc & Hs & Hrep & Hf1 & Hids).
    destruct (IH (results ++ [r]) w1 Hf1)
      as (rs & w2 & -> & Hcs & Hss & Hreps & Hf2).
    + intros x Hx. rewrite Hids. apply Hin. now right.
    + exists (r :: rs), w2. rewrite <- app_assoc. cbn [app map].
      rewrite Hc, Hcs. repeat split; auto.
Qed.

Lemma join_all_In w ms j :
  In j (join_all w ms) ->
  In (mapping j) ms /\ In (property j) (World.properties w)
  /\ Property.id (property j) = ChannelMapping.propertyId (mapping j)
  /\ units j = units_of (Property.id (property j)) w.
Proof.
  induction ms as [|m ms IH]; cbn [join_all]; [intros []|].
  unfold join at 1.
  destruct (find _ (World.properties w)) as [p|] eqn:Hp.
  - intros [<-|Hj].
    + apply find_some in Hp. destruct Hp as [Hp1 Hp2].
      apply String.eqb_eq in Hp2. cbn. auto.
    + destruct (IH Hj) as (H1 & H2). split; [now right|assumption].
  - intros Hj. destruct (IH Hj) as (H1 & H2). split; [now right|assumption].
Qed.

Lemma join_all_scheduler x w ms :
  join_all (World.set_scheduler x w) ms = join_all w ms.
Proof.
  induction ms as [|m ms IH]; [reflexivity|].
  cbn [join_all]. rewrite IH. reflexivity.
Qed.

(** X8. With a store that does not fail, a batch started when idle goes
    through every channel mapping that has a URL, in the order of the
    table, and returns one result for each, whatever the outcome of the
    others.  Each result names its mapping, property and channel and
    tells what the feed of the mapping answered: a property without unit
    gives the failure ["No unit found for property"], a response that is
    not a success the failure ["Failed to fetch iCal: <status>"], a
    rejected request the message of the rejection, each with zero counts
    and never the end of the batch; every successful response, whether
    its document can be parsed or not, gives a success without error.  In
    every result [success] is set exactly when there is no error. *)
Theorem batch_reports_every_channel env w :
  World.faults w = [] ->
  Scheduler.isRunning (World.scheduler w) = false ->
  exists results w',
    runSync env w = Ok results w'
    /\ map SyncResult.channelId results
       = map (fun j => ChannelMapping.id (mapping j)) (syncable w)
    /\ Forall (fun r => SyncResult.success r = falsy (SyncResult.error r))
              results
    /\ Forall2 (reported env) (syncable w) results.
Proof.
  intros Hf Hidle. unfold runSync. rewrite Hidle.
  unfold batch, channelMapping_findMany_withUrl.
  rewrite db_no_faults by exact Hf.
  cbn [World.channelMappings enter World.set_scheduler].
  unfold enter at 1. rewrite join_all_scheduler. fold (syncable w).
  destruct (syncMappings_no_faults env (syncable w) [] (enter env w) Hf)
    as (rs & w1 & Hrun & Hc & Hs & Hrep & _).
  - intros j Hj. apply join_all_In in Hj. destruct Hj as (Hj & _).
    apply filter_In in Hj. destruct Hj as [Hj _].
    now apply in_map.
  - rewrite Hrun. cbn [app]. eexists _, _. split; [reflexivity|]. auto.
Qed.

(** X9. After a batch started when idle, whatever happened in it, the
    status of the scheduler shows it idle, last run at the time the batch
    was started, the results of the batch, and a next run thirty minutes
    after the last when the scheduler has been started, none otherwise. *)
Theorem status_after_a_batch env w :
  Scheduler.isRunning (World.scheduler w) = false ->
  exists results w',
    runSync env w = Ok results w'
    /\ SchedulerStatus.getStatus w'
       = Ok (SchedulerStatus.mk false (Some (Env.now env)) results
               (if Scheduler.task (World.scheduler w)
                then Some (Env.now env + 1800000) else None))
            w'.
Proof.
  intros Hidle. unfold runSync. rewrite Hidle.
  pose proof (batch_scheduler env (enter env w)) as Hb.
  destruct (batch env (enter env w)) as [[results e] w1].
  cbn [snd] in Hb.
  eexists _, _. split; [reflexivity|].
  unfold SchedulerStatus.getStatus, leave.
  cbn [World.scheduler World.set_scheduler Scheduler.isRunning
       Scheduler.lastRunAt Scheduler.lastResults Scheduler.task].
  rewrite Hb. cbn [enter World.scheduler World.set_scheduler
                     Scheduler.lastRunAt Scheduler.task
                     SchedulerStatus.getNextRunTime].
  destruct (Scheduler.task (World.scheduler w)); reflexivity.
Qed.
End Batch.

(** ** The manual sync of one channel *)

Section ManualSync.
Import Db ICalAdapter CalendarService.

Lemma channelMapping_findFirst_no_faults id userId w :
  World.faults w = [] ->
  channelMapping_findFirst id userId w = Ok (mapping_of_user w id userId) w.
Proof.
  intros Hf. unfold channelMapping_findFirst. now rewrite db_no_faults.
Qed.

(** X10. A user cannot sync the channel of someone else.  With a store
    that does not fail, when no channel mapping of that id belongs to a
    property of the user, [syncChannel] throws ["Channel mapping not
    found"] and leaves the world as it is: nothing is fetched, logged or
    written. *)
Theorem syncChannel_refuses_a_foreign_mapping env userId channelMappingId w :
  World.faults w = [] ->
  (forall m p,
      In m (World.channelMappings w) ->
      ChannelMapping.id m = channelMappingId ->
      In p (World.properties w) ->
      Property.id p = ChannelMapping.propertyId m ->
      Property.userId p <> userId) ->
  syncChannel env userId channelMappingId w
  = Throw (JsError "Channel mapping not found") w.
Proof.
  intros Hf Hforeign. unfold syncChannel, bind.
  rewrite channelMapping_findFirst_no_faults by assumption.
  destruct (mapping_of_user w channelMappingId userId) as [j|] eqn:Hj;
    [|reflexivity].
  exfalso. unfold mapping_of_user in Hj. apply find_some in Hj.
  destruct Hj as [Hin Hu]. apply String.eqb_eq in Hu.
  apply join_all_In in Hin. destruct Hin as (Hm & Hp & Hid & _).
  apply filter_In in Hm. destruct Hm as [Hm Hc]. apply String.eqb_eq in Hc.
  exact (Hforeign (mapping j) (property j) Hm Hc Hp Hid Hu).
Qed.

Lemma syncChannel_synced env userId channelMappingId w j unit rest :
  World.faults w = [] ->
  mapping_of_user w channelMappingId userId = Some j ->
  falsy (ChannelMapping.iCalUrl (mapping j)) = false ->
  units j = unit :: rest ->
  exists r w1 rows',
    syncCalendar env (to_input (mapping j)) (Unit.id unit) w = Ok r w1
    /\ update_mapping channelMappingId
         (set_lastSync (Env.now env) (or_null (CalendarSyncResult.error r)))
         (World.channelMappings w) = Some rows'
    /\ syncChannel env userId channelMappingId w
       = Ok r (World.set_channelMappings rows' w1).
Proof.
  intros Hf Hj Hurl Hunits. unfold syncChannel, bind at 1.
  rewrite channelMapping_findFirst_no_faults by assumption.
  rewrite Hj, Hurl, Hunits. unfold bind at 1.
  destruct (syncCalendar_returns env (to_input (mapping j)) (Unit.id unit) w Hf)
    as (r & w1 & Hrun & Hf1).
  rewrite Hrun.
  pose proof (keeps_syncCalendar env (to_input (mapping j)) (Unit.id unit) w)
    as Hk.
  rewrite Hrun in Hk. cbn [after] in Hk. unfold surroundings in Hk.
  injection Hk as _ _ _ Hmaps _.
  destruct (channelMapping_update_no_faults channelMappingId
              (set_lastSync (Env.now env)
                 (or_null (CalendarSyncResult.error r))) w1 Hf1)
    as (rows' & Hu & _ & Hupd).
  - rewrite Hmaps. unfold mapping_of_user in Hj. apply find_some in Hj.
    destruct Hj as [Hin _]. apply join_all_In in Hin.
    destruct Hin as (Hm & _). apply filter_In in Hm.
    destruct Hm as [Hm Hc]. apply String.eqb_eq in Hc. rewrite <- Hc.
    now apply in_map.
  - reflexivity.
  - exists r, w1, rows'. split; [reflexivity|]. rewrite <- Hmaps.
    split; [assumption|]. unfold bind. now rewrite Hupd.
Qed.

(** X11. With a store that does not fail, the route of the manual sync
    answers 400 [SYNC_ERROR] with the message of [syncChannel] when the
    mapping is not one of the user.  When the mapping is found with a URL
    and the property has a unit, it answers 200 with the result of
    [syncCalendar] for the first unit, whether that result is a success or
    a failure: a fetch that failed is answered 200 with [success] unset in
    the data, and the mapping gets its last-sync fields written. *)
Theorem manual_sync_route_answers env userId channelMappingId w :
  World.faults w = [] ->
  (mapping_of_user w channelMappingId userId = None ->
   CalendarRoutes.post_sync env userId channelMappingId w
   = Ok (Some (CalendarRoutes.Failure 400 "SYNC_ERROR"
                 "Channel mapping not found")) w)
  /\ (forall j unit rest,
        mapping_of_user w channelMappingId userId = Some j ->
        falsy (ChannelMapping.iCalUrl (mapping j)) = false ->
        units j = unit :: rest ->
        exists r w1 rows',
          syncCalendar env (to_input (mapping j)) (Unit.id unit) w = Ok r w1
          /\ update_mapping channelMappingId
               (set_lastSync (Env.now env)
                  (or_null (CalendarSyncResult.error r)))
               (World.channelMappings w) = Some rows'
          /\ CalendarRoutes.post_sync env userId channelMappingId w
             = Ok (Some (CalendarRoutes.Success 200 r))
                  (World.set_channelMappings rows' w1)).
Proof.
  intros Hf. split.
  - intros Hnone. unfold CalendarRoutes.post_sync, try_catch, bind at 1.
    unfold syncChannel, bind.
    rewrite channelMapping_findFirst_no_faults by assumption.
    now rewrite Hnone.
  - intros j unit rest Hj Hurl Hunits.
    destruct (syncChannel_synced env userId channelMappingId w j unit rest
                Hf Hj Hurl Hunits) as (r & w1 & rows' & Hrun & Hu & Hsync).
    exists r, w1, rows'. split; [assumption|]. split; [assumption|].
    unfold CalendarRoutes.post_sync, try_catch, bind. now rewrite Hsync.
Qed.
End ManualSync.

(** ** The conflict detector: order and intersections *)

Section DetectorOrder.
Import CalendarEvent Calendar.

Lemma insert_by_checkIn_sorted e l :
  StronglySorted starts_before l ->
  StronglySorted starts_before (insert_by_checkIn e l).
Proof.
  induction l as [|x r IH]; intros Hs; cbn [insert_by_checkIn].
  - repeat constructor.
  - inversion Hs as [|? ? Hr Hx]; subst.
    destruct (checkIn e <=? checkIn x) eqn:Hle.
    + apply Z.leb_le in Hle. constructor; [assumption|].
      constructor; [exact Hle|].
      eapply Forall_impl; [|exact Hx]. unfold starts_before. intros; lia.
    + apply Z.leb_gt in Hle. constructor; [auto|].
      apply (Permutation_Forall (Permutation_sym (insert_by_checkIn_perm e r))).
      constructor; [unfold starts_before; lia|assumption].
Qed.

Lemma sort_by_checkIn_sorted l :
  StronglySorted starts_before (sort_by_checkIn l).
Proof.
  induction l as [|e r IH]; cbn [sort_by_checkIn]; [constructor|].
  now apply insert_by_checkIn_sorted.
Qed.

Lemma scan_unit_ordered l c :
  StronglySorted starts_before l -> In c (scan_unit l) ->
  starts_before (ConflictInfo.eventA c) (ConflictInfo.eventB c).
Proof.
  induction l as [|a r IH]; cbn [scan_unit]; [intros _ []|].
  intros Hs Hc. inversion Hs as [|? ? Hr Ha]; subst.
  apply in_app_or in Hc. destruct Hc as [Hc|Hc]; [|auto].
  apply scan_from_In in Hc. destruct Hc as (-> & Hb & _).
  rewrite Forall_forall in Ha. auto.
Qed.

(** X12. In every conflict that [detectConflicts] reports, the first event
    starts no later than the second, so the overlap begins when the second
    event begins; it ends at the earlier of the two check-outs. *)
Theorem conflicts_are_ordered_by_checkIn events c :
  In c (detectConflicts events) ->
  checkIn (ConflictInfo.eventA c) <= checkIn (ConflictInfo.eventB c)
  /\ ConflictInfo.overlapStart c = checkIn (ConflictInfo.eventB c)
  /\ ConflictInfo.overlapEnd c
     = Z.min (checkOut (ConflictInfo.eventA c)) (checkOut (ConflictInfo.eventB c)).
Proof.
  intros Hc.
  assert (Hle : starts_before (ConflictInfo.eventA c) (ConflictInfo.eventB c)).
  { unfold detectConflicts in Hc. apply in_flat_map in Hc.
    destruct Hc as (ul & _ & Hc).
    apply (scan_unit_ordered (sort_by_checkIn (snd ul)));
      auto using sort_by_checkIn_sorted. }
  apply detectConflicts_In in Hc. destruct Hc as (_ & _ & _ & _ & Hc & _).
  unfold starts_before in Hle. destruct c as [a b os oe].
  cbn [ConflictInfo.eventA ConflictInfo.eventB ConflictInfo.overlapStart
       ConflictInfo.overlapEnd] in *.
  unfold mkConflict in Hc. injection Hc as -> ->.
  split; [exact Hle|]. split; [lia|reflexivity].
Qed.

(** X13. When every event given to [detectConflicts] has its check-in
    strictly before its check-out, the overlap of every conflict reported
    is a non-empty interval that lies within both events. *)
Theorem overlap_is_a_nonempty_part_of_both events c :
  (forall e, In e events -> checkIn e < checkOut e) ->
  In c (detectConflicts events) ->
  let a := ConflictInfo.eventA c in
  let b := ConflictInfo.eventB c in
  ConflictInfo.overlapStart c < ConflictInfo.overlapEnd c
  /\ checkIn a <= ConflictInfo.overlapStart c
  /\ checkIn b <= ConflictInfo.overlapStart c
  /\ ConflictInfo.overlapEnd c <= checkOut a
  /\ ConflictInfo.overlapEnd c <= checkOut b.
Proof.
  intros Hwd Hc a b. apply detectConflicts_In in Hc.
  destruct Hc as (Ha & Hb & _ & Ho & Hc & _). fold a in Ha, Ho, Hc.
  fold b in Hb, Ho, Hc.
  unfold overlaps in Ho. apply andb_true_iff in Ho. destruct Ho as [H1 H2].
  apply Z.ltb_lt in H1, H2.
  pose proof (Hwd a Ha). pose proof (Hwd b Hb).
  destruct c as [a0 b0 os oe].
  cbn [ConflictInfo.eventA ConflictInfo.eventB ConflictInfo.overlapStart
       ConflictInfo.overlapEnd] in *.
  subst a b. unfold mkConflict in Hc. injection Hc as -> ->. lia.
Qed.

(** *** The detector looks at units and dates only *)

Variable f : CalendarEvent.t -> CalendarEvent.t.
Hypothesis f_unit : forall e, unitId (f e) = unitId e.
Hypothesis f_checkIn : forall e, checkIn (f e) = checkIn e.
Hypothesis f_checkOut : forall e, checkOut (f e) = checkOut e.

Let on_group (ul : string * list CalendarEvent.t) := (fst ul, map f (snd ul)).

Lemma push_event_map e m :
  push_event (f e) (map on_group m) = map on_group (push_event e m).
Proof.
  induction m as [|[u l] m IH]; cbn [push_event map].
  - unfold on_group. cbn. now rewrite f_unit.
  - unfold on_group at 1. cbn [fst snd]. rewrite f_unit.
    destruct (String.eqb u (unitId e)).
    + unfold on_group at 2. cbn [fst snd map]. now rewrite map_app.
    + cbn [map]. now rewrite IH.
Qed.

Lemma groupByUnit_map events :
  groupByUnit (map f events) = map on_group (groupByUnit events).
Proof.
  unfold groupByUnit.
  change (@nil (string * list CalendarEvent.t)) with (map on_group []) at 1.
  generalize (@nil (string * list CalendarEvent.t)).
  induction events as [|e events IH]; intros m; cbn [fold_left map];
    [reflexivity|].
  now rewrite push_event_map, IH.
Qed.

Lemma insert_by_checkIn_map e l :
  insert_by_checkIn (f e) (map f l) = map f (insert_by_checkIn e l).
Proof.
  induction l as [|x r IH]; cbn [insert_by_checkIn map]; [reflexivity|].
  rewrite !f_checkIn. destruct (checkIn e <=? checkIn x); [reflexivity|].
  cbn [map]. now rewrite IH.
Qed.

Lemma sort_by_checkIn_map l :
  sort_by_checkIn (map f l) = map f (sort_by_checkIn l).
Proof.
  induction l as [|e r IH]; cbn [sort_by_checkIn map]; [reflexivity|].
  now rewrite IH, insert_by_checkIn_map.
Qed.

Lemma map_conflict_mk a b :
  mkConflict (f a) (f b) = map_conflict f (mkConflict a b).
Proof. reflexivity. Qed.

Lemma scan_from_map a r :
  scan_from (f a) (map f r) = map (map_conflict f) (scan_from a r).
Proof.
  induction r as [|b r IH]; cbn [scan_from map]; [reflexivity|].
  unfold overlaps. rewrite !f_checkIn, !f_checkOut.
  fold (overlaps a b). destruct (overlaps a b); cbn [map]; now rewrite IH.
Qed.

Lemma scan_unit_map l :
  scan_unit (map f l) = map (map_conflict f) (scan_unit l).
Proof.
  induction l as [|a r IH]; cbn [scan_unit map]; [reflexivity|].
  now rewrite map_app, scan_from_map, IH.
Qed.

Lemma detectConflicts_map events :
  detectConflicts (map f events)
  = map (map_conflict f) (detectConflicts events).
Proof.
  unfold detectConflicts. rewrite groupByUnit_map.
  induction (groupByUnit events) as [|ul m IH]; cbn [map flat_map];
    [reflexivity|].
  rewrite map_app, IH. unfold on_group at 1. cbn [snd].
  now rewrite sort_by_checkIn_map, scan_unit_map.
Qed.
End DetectorOrder.

(** ** The calendar of a user *)

Section Views.
Import Db CalendarViews.

(** A read of the store gives what the tables hold, and changes at most
    the fault schedule. *)
Lemma read_outcome {A} (g : World.t -> A) w a w' :
  (forall fs w0, g (World.set_faults fs w0) = g w0) ->
  db (fun w0 => Ok (g w0) w0) w = Ok a w' ->
  a = g w /\ (w' = w \/ exists fs, w' = World.set_faults fs w).
Proof.
  intros Hg. unfold db.
  destruct (World.faults w) as [|[e|] fs].
  - intros [= <- <-]. auto.
  - discriminate.
  - intros [= <- <-]. rewrite Hg. eauto.
Qed.

Lemma with_unit_faults {A} (unitId : A -> string) fs w rows :
  with_unit (World.set_faults fs w) unitId rows = with_unit w unitId rows.
Proof.
  induction rows as [|r rows IH]; [reflexivity|].
  cbn [with_unit]. rewrite IH. reflexivity.
Qed.

Lemma getEvents_returns userId start end_ propertyId w events w' :
  getEvents userId start end_ propertyId w = Ok events w' ->
  events
  = map (mark (conflictEventIds
                 (Calendar.detectConflicts
                    (unmarked_events w userId start end_ propertyId))))
        (unmarked_events w userId start end_ propertyId).
Proof.
  unfold getEvents, bind at 1, property_findMany.
  destruct (db _ w) as [ps w1|e w1] eqn:Hps; [|discriminate].
  apply read_outcome in Hps; [|reflexivity].
  destruct Hps as [-> Hw1].
  fold (user_unitIds w userId propertyId).
  assert (Hsame : forall w0, w0 = w \/ (exists fs, w0 = World.set_faults fs w) ->
            World.reservations w0 = World.reservations w
            /\ World.availabilityBlocks w0 = World.availabilityBlocks w
            /\ (forall A (g : A -> string) rows,
                   with_unit w0 g rows = with_unit w g rows)).
  { intros w0 [->|[fs ->]]; repeat split; auto.
    intros. apply with_unit_faults. }
  destruct (user_unitIds w userId propertyId) as [|u us] eqn:Hids.
  - unfold ret. intros [= <- _]. unfold unmarked_events. rewrite Hids.
    cbn [among existsb andb]. cbn.
    assert (Hnil : forall A (l : list A), filter (fun _ => false) l = []).
    { intros A l. induction l; auto. }
    rewrite !Hnil. reflexivity.
  - unfold bind at 1, reservation_findMany_window.
    destruct (db _ w1) as [rs w2|e w2] eqn:Hrs; [|discriminate].
    apply read_outcome in Hrs.
    2:{ intros fs w0. cbn [World.reservations World.set_faults].
        apply with_unit_faults. }
    destruct Hrs as [-> Hw2].
    unfold bind at 1, availabilityBlock_findMany_window.
    destruct (db _ w2) as [bs w3|e w3] eqn:Hbs; [|discriminate].
    apply read_outcome in Hbs.
    2:{ intros fs w0. cbn [World.availabilityBlocks World.set_faults].
        apply with_unit_faults. }
    destruct Hbs as [-> Hw3].
    unfold ret. intros [= <- _].
    assert (Hw2' : w2 = w \/ exists fs, w2 = World.set_faults fs w).
    { destruct Hw1 as [->|[fs ->]]; auto.
      destruct Hw2 as [->|[fs' ->]]; eauto.
      right. exists fs'. now destruct w. }
    destruct (Hsame w1 Hw1) as (Hr1 & _ & Hu1).
    destruct (Hsame w2 Hw2') as (_ & Hb2 & Hu2).
    unfold unmarked_events. rewrite Hids, Hr1, Hb2, Hu1, Hu2. reflexivity.
Qed.
Lemma with_unit_In {A} (g : A -> string) w rows r u :
  In (r, u) (with_unit w g rows) ->
  In r rows /\ In u (World.units w) /\ Unit.id u = g r.
Proof.
  induction rows as [|x rows IH]; cbn [with_unit]; [intros []|].
  unfold unit_of at 1.
  destruct (find _ (World.units w)) as [ux|] eqn:Hu.
  - intros [[= <- <-]|H].
    + apply find_some in Hu. destruct Hu as [Hu1 Hu2].
      apply String.eqb_eq in Hu2. split; [now left|]. split; assumption.
    + destruct (IH H) as (H1 & H2). split; [now right|assumption].
  - intros H. destruct (IH H) as (H1 & H2). split; [now right|assumption].
Qed.

Lemma among_user_unitIds w userId propertyId unitId :
  among (user_unitIds w userId propertyId) unitId = true ->
  unit_of_a_property_of w userId unitId.
Proof.
  unfold among, user_unitIds, unitIds_of. intros H.
  apply existsb_exists in H. destruct H as (x & Hx & Heq).
  apply String.eqb_eq in Heq. subst x.
  apply in_flat_map in Hx. destruct Hx as (pu & Hpu & Hx).
  apply in_map_iff in Hpu. destruct Hpu as (p & <- & Hp).
  cbn [snd] in Hx. apply in_map_iff in Hx. destruct Hx as (u & Hid & Hu).
  apply filter_In in Hp. destruct Hp as [Hp Hm].
  unfold property_matches in Hm. apply andb_true_iff in Hm.
  destruct Hm as [Hm _]. apply String.eqb_eq in Hm.
  unfold units_of in Hu. apply filter_In in Hu. destruct Hu as [Hu Hup].
  apply String.eqb_eq in Hup.
  exists p, u. auto.
Qed.

(** X14. [getEvents] shows a user nothing but the user's own calendar:
    every event returned lies on a unit of a property of the user, meets
    the window of the query, and is either a reservation of the store
    whose status is confirmed or pending, or an availability block of the
    store.  A cancelled or completed reservation is never shown. *)
Theorem getEvents_shows_only_the_users_active_calendar
        userId start end_ propertyId w events w' e :
  getEvents userId start end_ propertyId w = Ok events w' ->
  In e events ->
  unit_of_a_property_of w userId (CalendarEvent.unitId e)
  /\ in_window start end_ (CalendarEvent.checkIn e) (CalendarEvent.checkOut e)
     = true
  /\ ((exists r,
          In r (World.reservations w)
          /\ (Reservation.status r = confirmed \/ Reservation.status r = pending)
          /\ CalendarEvent.id e = id_text (Reservation.id r)
          /\ CalendarEvent.unitId e = Reservation.unitId r
          /\ CalendarEvent.checkIn e = Reservation.checkIn r
          /\ CalendarEvent.checkOut e = Reservation.checkOut r
          /\ CalendarEvent.type e = booked)
      \/ (exists b,
             In b (World.availabilityBlocks w)
             /\ CalendarEvent.id e = id_text (AvailabilityBlock.id b)
             /\ CalendarEvent.unitId e = AvailabilityBlock.unitId b
             /\ CalendarEvent.checkIn e = AvailabilityBlock.startDate b
             /\ CalendarEvent.checkOut e = AvailabilityBlock.endDate b
             /\ CalendarEvent.type e = AvailabilityBlock.type b)).
Proof.
  intros Hget He. apply getEvents_returns in Hget. subst events.
  apply in_map_iff in He. destruct He as (e0 & <- & He0).
  cbn [mark CalendarEvent.unitId CalendarEvent.checkIn CalendarEvent.checkOut
       CalendarEvent.id CalendarEvent.type].
  unfold unmarked_events in He0. apply in_app_or in He0.
  destruct He0 as [He0|He0]; apply in_map_iff in He0.
  - destruct He0 as ([r u] & <- & Hru). apply with_unit_In in Hru.
    destruct Hru as (Hr & _). apply filter_In in Hr. destruct Hr as [Hr Hc].
    apply andb_true_iff in Hc. destruct Hc as [Hc Hwin].
    apply andb_true_iff in Hc. destruct Hc as [Hamong Hact].
    cbn [reservation_event CalendarEvent.unitId CalendarEvent.checkIn
         CalendarEvent.checkOut CalendarEvent.id CalendarEvent.type].
    split; [now apply (among_user_unitIds w userId propertyId)|].
    split; [exact Hwin|]. left. exists r. repeat split; auto.
    unfold is_active in Hact. destruct (Reservation.status r); auto;
      discriminate.
  - destruct He0 as ([b u] & <- & Hbu). apply with_unit_In in Hbu.
    destruct Hbu as (Hb & _). apply filter_In in Hb. destruct Hb as [Hb Hc].
    apply andb_true_iff in Hc. destruct Hc as [Hamong Hwin].
    cbn [block_event CalendarEvent.unitId CalendarEvent.checkIn
         CalendarEvent.checkOut CalendarEvent.id CalendarEvent.type].
    split; [now apply (among_user_unitIds w userId propertyId)|].
    split; [exact Hwin|]. right. exists b. repeat split; auto.
Qed.

(** X15. For a row whose start is not after its end and a window whose
    start is not after its end, the three-way test of the calendar queries
    is the test that the closed intervals meet: the row starts no later
    than the window ends and ends no earlier than the window starts.  A
    row that ends exactly when the window starts is in the window. *)
Theorem window_test_is_closed_intersection start end_ a b :
  a <= b -> start <= end_ ->
  in_window start end_ a b = (a <=? end_) && (start <=? b).
Proof.
  intros Hab Hse. unfold in_window.
  destruct (start <=? a) eqn:H1, (a <=? end_) eqn:H2, (start <=? b) eqn:H3,
           (b <=? end_) eqn:H4, (a <=? start) eqn:H5, (end_ <=? b) eqn:H6;
    try reflexivity;
    rewrite ?Z.leb_le, ?Z.leb_gt in *; lia.
Qed.

Lemma mark_id ids e : CalendarEvent.id (mark ids e) = CalendarEvent.id e.
Proof. reflexivity. Qed.

Lemma in_conflictEventIds id conflicts :
  In id (conflictEventIds conflicts)
  <-> exists c, In c conflicts
                /\ (CalendarEvent.id (ConflictInfo.eventA c) = id
                    \/ CalendarEvent.id (ConflictInfo.eventB c) = id).
Proof.
  unfold conflictEventIds. rewrite in_flat_map. split.
  - intros (c & Hc & [H|[H|[]]]); eauto.
  - intros (c & Hc & [H|H]); exists c; cbn; auto.
Qed.

Lemma marked_iff ids events e :
  ids = conflictEventIds (Calendar.detectConflicts events) ->
  In e (map (mark ids) events) ->
  CalendarEvent.hasConflict e = true
  <-> exists c,
        In c (Calendar.detectConflicts (map (mark ids) events))
        /\ (CalendarEvent.id (ConflictInfo.eventA c) = CalendarEvent.id e
            \/ CalendarEvent.id (ConflictInfo.eventB c) = CalendarEvent.id e).
Proof.
  intros Hids He. apply in_map_iff in He. destruct He as (e0 & <- & _).
  rewrite (detectConflicts_map (mark ids)) by reflexivity.
  cbn [mark CalendarEvent.hasConflict CalendarEvent.id].
  split.
  - intros H. apply existsb_exists in H. destruct H as (x & Hx & Heq).
    apply String.eqb_eq in Heq. subst x. rewrite Hids in Hx.
    apply in_conflictEventIds in Hx. destruct Hx as (c & Hc & Hid).
    exists (map_conflict (mark ids) c). split; [now apply in_map|].
    exact Hid.
  - intros (c & Hc & Hid). apply in_map_iff in Hc.
    destruct Hc as (c0 & <- & Hc0).
    apply existsb_exists. exists (CalendarEvent.id e0).
    split; [|apply String.eqb_refl].
    rewrite Hids. apply in_conflictEventIds. exists c0. split; auto.
Qed.

Lemma marked_when_in_a_conflict
      userId start end_ propertyId w events w' e :
  getEvents userId start end_ propertyId w = Ok events w' ->
  In e events ->
  (exists c,
      In c (Calendar.detectConflicts events)
      /\ (CalendarEvent.id (ConflictInfo.eventA c) = CalendarEvent.id e
          \/ CalendarEvent.id (ConflictInfo.eventB c) = CalendarEvent.id e)) ->
  CalendarEvent.hasConflict e = true.
Proof.
  intros Hget He. apply getEvents_returns in Hget. subst events.
  now apply marked_iff.
Qed.

(** X16. [getEvents] marks an event as conflicting exactly when
    [detectConflicts], run on the events returned, reports a conflict
    with an event of that id. *)
Theorem getEvents_marks_the_conflicting_events
        userId start end_ propertyId w events w' e :
  getEvents userId start end_ propertyId w = Ok events w' ->
  In e events ->
  CalendarEvent.hasConflict e = true
  <-> exists c,
        In c (Calendar.detectConflicts events)
        /\ (CalendarEvent.id (ConflictInfo.eventA c) = CalendarEvent.id e
            \/ CalendarEvent.id (ConflictInfo.eventB c) = CalendarEvent.id e).
Proof.
  intros Hget He. apply getEvents_returns in Hget. subst events.
  now apply marked_iff.
Qed.

(** X17. Every conflict that [getConflicts] returns is between two events
    that [getEvents] shows the user for the year from now, on one unit,
    overlapping, and both marked as conflicting. *)
Theorem getConflicts_pairs_marked_events env userId propertyId w conflicts w' c :
  getConflicts env userId propertyId w = Ok conflicts w' ->
  In c conflicts ->
  exists events,
    getEvents userId (Env.now env) (Env.now env + 31536000000) propertyId w
    = Ok events w'
    /\ In (ConflictInfo.eventA c) events /\ In (ConflictInfo.eventB c) events
    /\ CalendarEvent.unitId (ConflictInfo.eventA c)
       = CalendarEvent.unitId (ConflictInfo.eventB c)
    /\ Calendar.overlaps (ConflictInfo.eventA c) (ConflictInfo.eventB c) = true
    /\ CalendarEvent.hasConflict (ConflictInfo.eventA c) = true
    /\ CalendarEvent.hasConflict (ConflictInfo.eventB c) = true.
Proof.
  unfold getConflicts, bind.
  change (Env.now env + one_year) with (Env.now env + 31536000000).
  destruct (getEvents userId (Env.now env) (Env.now env + 31536000000)
              propertyId w) as [events w1|e w1] eqn:Hget; [|discriminate].
  unfold ret. intros [= <- <-] Hc. exists events. split; [reflexivity|].
  pose proof (detectConflicts_In c events Hc) as (Ha & Hb & Hu & Ho & _).
  unfold Calendar.same_unit in Hu. apply String.eqb_eq in Hu.
  repeat split; auto.
  - apply (marked_when_in_a_conflict _ _ _ _ _ _ _ _ Hget Ha).
    exists c. auto.
  - apply (marked_when_in_a_conflict _ _ _ _ _ _ _ _ Hget Hb).
    exists c. auto.
Qed.
End Views.

(** ** The reservations of a user *)

Section ReservationList.
Import Db CalendarViews.







End ReservationList.

(** ** Availability blocks *)

Section Blocks.
Import Db CalendarViews.

Lemma delete_row_filter id rows :
  NoDup (map AvailabilityBlock.id rows) ->
  In id (map AvailabilityBlock.id rows) ->
  delete_row id rows
  = Some (filter (fun b => negb (Nat.eqb (AvailabilityBlock.id b) id)) rows).
Proof.
  induction rows as [|b rows IH]; cbn [delete_row map filter]; [intros _ []|].
  intros Hnd Hin. inversion Hnd as [|? ? Hb Hnd']; subst.
  destruct (Nat.eqb (AvailabilityBlock.id b) id) eqn:Hid; cbn [negb].
  - apply Nat.eqb_eq in Hid. subst id. f_equal. symmetry.
    apply forallb_filter_id. apply forallb_forall. intros x Hx.
    apply negb_true_iff, Nat.eqb_neq. intros Heq. apply Hb.
    rewrite <- Heq. now apply in_map.
  - rewrite IH; auto. destruct Hin as [Hin|Hin]; auto.
    apply Nat.eqb_neq in Hid. contradiction.
Qed.

(** X19. A user can delete only a block of the user's own units.  With a
    store that does not fail: when no block of that id lies on a unit of a
    property of the user, [deleteBlock] throws ["Block not found"] and
    leaves the world as it is; when there is one (block ids being
    unique), it removes the block of that id and nothing else. *)
Theorem deleteBlock_removes_only_an_own_block userId blockId w :
  World.faults w = [] ->
  ((forall b, In b (World.availabilityBlocks w) ->
              AvailabilityBlock.id b = blockId ->
              ~ unit_of_a_property_of w userId (AvailabilityBlock.unitId b)) ->
   deleteBlock userId blockId w = Throw (JsError "Block not found") w)
  /\ (forall b,
        In b (World.availabilityBlocks w) ->
        AvailabilityBlock.id b = blockId ->
        unit_of_a_property_of w userId (AvailabilityBlock.unitId b) ->
        NoDup (map AvailabilityBlock.id (World.availabilityBlocks w)) ->
        deleteBlock userId blockId w
        = Ok tt (World.set_availabilityBlocks
                   (filter (fun x => negb (Nat.eqb (AvailabilityBlock.id x)
                                             blockId))
                           (World.availabilityBlocks w)) w)).
Proof.
  intros Hf. split.
  - intros Hnone. unfold deleteBlock, bind, availabilityBlock_findFirst.
    rewrite db_no_faults by assumption.
    destruct (find _ (World.availabilityBlocks w)) as [b|] eqn:Hb;
      [|reflexivity].
    exfalso. apply find_some in Hb. destruct Hb as [Hin Hc].
    unfold block_of_user in Hc. apply andb_true_iff in Hc.
    destruct Hc as [Hid Hown]. apply Nat.eqb_eq in Hid.
    apply owned_unit_iff in Hown. exact (Hnone b Hin Hid Hown).
  - intros b Hin Hid Hown Hnd.
    unfold deleteBlock, bind, availabilityBlock_findFirst.
    rewrite db_no_faults by assumption.
    destruct (find _ (World.availabilityBlocks w)) as [b'|] eqn:Hb.
    + unfold availabilityBlock_delete. rewrite db_no_faults by assumption.
      rewrite delete_row_filter; auto.
      rewrite <- Hid. now apply in_map.
    + exfalso. apply (find_none _ _ Hb) in Hin.
      unfold block_of_user in Hin. apply andb_false_iff in Hin.
      destruct Hin as [Hin|Hin].
      * apply Nat.eqb_neq in Hin. contradiction.
      * apply owned_unit_iff in Hown. congruence.
Qed.

Lemma delete_row_last id rows b :
  Forall (fun x => (AvailabilityBlock.id x < id)%nat) rows ->
  AvailabilityBlock.id b = id ->
  delete_row id (rows ++ [b]) = Some rows.
Proof.
  intros Hlt Hb. induction rows as [|x rows IH]; cbn [delete_row app].
  - rewrite Hb, Nat.eqb_refl. reflexivity.
  - inversion Hlt as [|? ? Hx Hlt']; subst.
    destruct (Nat.eqb (AvailabilityBlock.id x) (AvailabilityBlock.id b)) eqn:He.
    + apply Nat.eqb_eq in He. lia.
    + now rewrite IH.
Qed.

(** X20. [createBlock] checks the ownership of the unit and nothing else.
    With a store that does not fail: when no unit of the requested id
    belongs to a property of the user, it throws ["Unit not found"] and
    leaves the world as it is; for a unit of the user it creates the
    block whatever its dates and whatever reservations and blocks the unit
    already has.  Deleting the block just created (the ids of the stored
    blocks being below the id counter) gives back the blocks there were
    before, and the reservations are the same throughout. *)
Theorem createBlock_then_deleteBlock userId input w :
  World.faults w = [] ->
  (~ unit_of_a_property_of w userId (CreateBlockInput.unitId input) ->
   createBlock userId input w = Throw (JsError "Unit not found") w)
  /\ (unit_of_a_property_of w userId (CreateBlockInput.unitId input) ->
      Forall (fun b => (AvailabilityBlock.id b < World.nextId w)%nat)
             (World.availabilityBlocks w) ->
      let block :=
        AvailabilityBlock.mk (World.nextId w) (CreateBlockInput.unitId input)
          (CreateBlockInput.type input) (CreateBlockInput.startDate input)
          (CreateBlockInput.endDate input) (CreateBlockInput.notes input) in
      exists w1 w2,
        createBlock userId input w = Ok block w1
        /\ World.availabilityBlocks w1 = World.availabilityBlocks w ++ [block]
        /\ World.reservations w1 = World.reservations w
        /\ deleteBlock userId (AvailabilityBlock.id block) w1 = Ok tt w2
        /\ World.availabilityBlocks w2 = World.availabilityBlocks w
        /\ World.reservations w2 = World.reservations w).
Proof.
  intros Hf. split.
  { intros Hnot. unfold createBlock, bind, unit_findFirst.
    rewrite db_no_faults by assumption.
    now rewrite (unit_findFirst_absent _ _ _ Hnot). }
  intros Hown Hlt block.
  destruct (unit_findFirst_found _ _ _ Hown) as (unit & Hunit).
  unfold createBlock, bind, unit_findFirst.
  rewrite db_no_faults by assumption. rewrite Hunit.
  unfold availabilityBlock_create. rewrite db_no_faults by assumption.
  fold block. eexists _, _. split; [reflexivity|].
  split; [reflexivity|]. split; [reflexivity|].
  set (w1 := World.set_nextId _ _).
  assert (Hf1 : World.faults w1 = []) by exact Hf.
  unfold deleteBlock, bind, availabilityBlock_findFirst.
  rewrite (db_no_faults _ w1 Hf1).
  destruct (find (block_of_user w1 (AvailabilityBlock.id block) userId)
              (World.availabilityBlocks w1)) as [b'|] eqn:Hb.
  - unfold availabilityBlock_delete. rewrite (db_no_faults _ w1 Hf1).
    change (World.availabilityBlocks w1)
      with (World.availabilityBlocks w ++ [block]).
    rewrite (delete_row_last (AvailabilityBlock.id block)) by auto.
    split; [reflexivity|]. split; reflexivity.
  - exfalso.
    assert (Hin : In block (World.availabilityBlocks w1)).
    { change (World.availabilityBlocks w1)
        with (World.availabilityBlocks w ++ [block]).
      apply in_or_app. right. now left. }
    apply (find_none _ _ Hb) in Hin. unfold block_of_user in Hin.
    rewrite Nat.eqb_refl in Hin. cbn [andb] in Hin.
    assert (Hex : existsb (unit_of_user w1 (AvailabilityBlock.unitId block)
                             userId) (World.units w1) = true).
    { apply existsb_exists. exists unit. apply find_some in Hunit.
      exact Hunit. }
    congruence.
Qed.
End Blocks.

(** ** Manual reservations and the conflict detector *)

Section AcceptedReservation.
Import Db CalendarService CalendarViews.

Lemma createReservation_accepted env userId input w r w' :
  createReservation env userId input w = Ok r w' ->
  Reservation.unitId r = CreateReservationInput.unitId input
  /\ Reservation.checkIn r = CreateReservationInput.checkIn input
  /\ Reservation.checkOut r = CreateReservationInput.checkOut input
  /\ forall x, In x (World.reservations w) ->
       conflicts_with (CreateReservationInput.unitId input)
         (CreateReservationInput.checkIn input)
         (CreateReservationInput.checkOut input) x = false.
Proof.
  unfold createReservation, bind at 1, unit_findFirst.
  destruct (db _ w) as [unit w1|e w1] eqn:Hu; [|discriminate].
  apply read_outcome in Hu; [|reflexivity]. destruct Hu as [-> Hw1].
  destruct (find _ (World.units w)) as [unit|]; [|discriminate].
  unfold bind at 1, reservation_findMany_conflicts.
  destruct (db _ w1) as [existing w2|e w2] eqn:He; [|discriminate].
  apply read_outcome in He; [|reflexivity]. destruct He as [-> Hw2].
  assert (Hr1 : World.reservations w1 = World.reservations w)
    by (destruct Hw1 as [->|[fs ->]]; reflexivity).
  rewrite Hr1.
  destruct (filter _ (World.reservations w)) as [|x l] eqn:Hfil;
    [|discriminate].
  cbn [List.length Nat.ltb Nat.leb]. unfold reservation_create, db.
  intros Hc.
  assert (Hfields : Reservation.unitId r = CreateReservationInput.unitId input
                    /\ Reservation.checkIn r = CreateReservationInput.checkIn input
                    /\ Reservation.checkOut r
                       = CreateReservationInput.checkOut input).
  { destruct (World.faults w2) as [|[e|] fs]; try discriminate;
      injection Hc as <- _; repeat split. }
  destruct Hfields as (H1 & H2 & H3). repeat split; auto.
  apply filter_nil_iff. exact Hfil.
Qed.

(** X21. The check of [createReservation] and the test of the conflict
    detector agree.  When [createReservation] accepts a reservation, then
    for every confirmed or pending reservation the store held,
    [detectConflicts] reports no conflict between the two as calendar
    events, whatever list of events it is given. *)
Theorem accepted_reservation_is_in_no_conflict
        env userId input w r w' existing u u' events :
  createReservation env userId input w = Ok r w' ->
  In existing (World.reservations w) ->
  Reservation.status existing = confirmed
  \/ Reservation.status existing = pending ->
  Calendar.pairs_emitted (reservation_event (r, u))
    (reservation_event (existing, u')) (Calendar.detectConflicts events)
  = 0%nat.
Proof.
  intros Hacc Hin Hst.
  destruct (createReservation_accepted _ _ _ _ _ _ Hacc)
    as (Hunit & Hci & Hco & Hnone).
  specialize (Hnone existing Hin).
  set (a := reservation_event (r, u)).
  set (b := reservation_event (existing, u')).
  assert (Hab : Calendar.same_unit a b && Calendar.overlaps a b = false).
  { unfold Calendar.same_unit, Calendar.overlaps, a, b.
    cbn [reservation_event CalendarEvent.unitId CalendarEvent.checkIn
         CalendarEvent.checkOut].
    rewrite Hunit, Hci, Hco. unfold conflicts_with in Hnone.
    rewrite (String.eqb_sym (CreateReservationInput.unitId input)).
    destruct (String.eqb (Reservation.unitId existing)
                (CreateReservationInput.unitId input)); [|reflexivity].
    assert (Hact : match Reservation.status existing with
                   | confirmed | pending => true
                   | _ => false
                   end = true) by (destruct Hst as [-> | ->]; reflexivity).
    rewrite Hact in Hnone. cbn [andb] in Hnone |- *.
    now rewrite andb_comm. }
  unfold Calendar.pairs_emitted.
  assert (Hnil : filter (Calendar.reports a b) (Calendar.detectConflicts events)
                 = []).
  { apply filter_nil_iff. intros c Hc.
    destruct (Calendar.reports a b c) eqn:Hrep; [|reflexivity].
    exfalso. apply detectConflicts_In in Hc.
    destruct Hc as (_ & _ & Hu & Ho & _).
    unfold Calendar.reports in Hrep. apply orb_true_iff in Hrep.
    destruct Hrep as [Hrep|Hrep]; apply andb_true_iff in Hrep;
      destruct Hrep as [H1 H2]; apply event_eqb_true in H1, H2;
      rewrite H1, H2 in Hu, Ho.
    - rewrite Hu, Ho in Hab. discriminate.
    - rewrite overlaps_sym in Ho. unfold Calendar.same_unit in Hu.
      rewrite String.eqb_sym in Hu. fold (Calendar.same_unit a b) in Hu.
      rewrite Hu, Ho in Hab. discriminate. }
  now rewrite Hnil.
Qed.
End AcceptedReservation.

(** ** The further properties on the sample deployment *)

Section FurtherSamples.
Import Db ICalAdapter CalendarService SyncScheduler CalendarViews.
Import Sample Fixtures.

Lemma successful_run_accounts_for_the_table_witness :
  exists r w',
    syncCalendar (feed [vevent "u2" (Some "Dana") 30 40]) airbnb_input
      "unit-1" (world [alice_stay] []) = Ok r w'
    /\ List.length (World.reservations w')
       = (1 + CalendarSyncResult.eventsCreated r)%nat.
Proof.
  eexists _, _. split; [vm_compute; reflexivity|].
  refine (proj1 (proj2 (successful_run_accounts_for_the_table
                          (feed [vevent "u2" (Some "Dana") 30 40])
                          airbnb_input "unit-1" (world [alice_stay] [])
                          _ _ _ _))); reflexivity.
Defined.

Lemma every_run_with_a_url_is_logged_once_witness :
  exists r w',
    syncCalendar unavailable_feed airbnb_input "unit-1" (world [] [])
    = Ok r w'
    /\ World.syncLogs w' = [log_entry unavailable_feed airbnb_input r].
Proof.
  exact (every_run_with_a_url_is_logged_once unavailable_feed airbnb_input
           "unit-1" (world [] []) eq_refl).
Defined.

Lemma feed_with_uids_is_read_the_same_everywhere_witness :
  let env := feed [vevent "u1" (Some "Alice") 10 20; undated_entry] in
  fetched_events env airbnb_input (world [] [])
  = [ICalEvent.mk "u1" "Alice" 10 20 None]
  /\ forall w2,
       fetched_events env airbnb_input w2
       = fetched_events env airbnb_input (world [] []).
Proof.
  refine (feed_with_uids_is_read_the_same_everywhere
            (feed [vevent "u1" (Some "Alice") 10 20; undated_entry])
            airbnb_input (world [] []) _).
  intros v Hv Hd. vm_compute in Hv.
  destruct Hv as [<-|[<-|[]]]; [reflexivity|discriminate].
Defined.

Lemma entries_without_uid_are_created_at_every_run_witness :
  let env := numbering_feed [anonymous_hold 10 20; anonymous_hold 30 40] in
  let w1 := after (syncCalendar env airbnb_input "unit-1" (world [] [])) in
  exists r w2,
    syncCalendar env airbnb_input "unit-1" w1 = Ok r w2
    /\ CalendarSyncResult.eventsCreated r = 2%nat
    /\ CalendarSyncResult.eventsUpdated r = 0%nat
    /\ List.length (World.reservations w2) = 4%nat
    /\ World.uuids w2 = 4%nat.
Proof.
  refine (entries_without_uid_are_created_at_every_run
            (numbering_feed [anonymous_hold 10 20; anonymous_hold 30 40])
            airbnb_input "unit-1"
            (after (syncCalendar
                      (numbering_feed [anonymous_hold 10 20;
                                       anonymous_hold 30 40])
                      airbnb_input "unit-1" (world [] [])))
            eq_refl _ _ _).
  - intros v Hv. vm_compute in Hv.
    destruct Hv as [<-|[<-|[]]]; split; reflexivity.
  - vm_compute. repeat constructor; simpl; intuition discriminate.
  - intros uid Hu. vm_compute in Hu.
    destruct Hu as [<-|[<-|[]]]; reflexivity.
Defined.

Lemma batch_reports_every_channel_witness :
  exists results w',
    runSync unavailable_feed (world [] []) = Ok results w'
    /\ map SyncResult.channelId results = ["map-1"]
    /\ Forall (fun r => SyncResult.success r = falsy (SyncResult.error r))
              results
    /\ Forall2 (reported unavailable_feed)
               [mkJoined airbnb beach_house [unit1]] results.
Proof.
  exact (batch_reports_every_channel unavailable_feed (world [] [])
           eq_refl eq_refl).
Defined.

Lemma status_after_a_batch_witness :
  exists results w',
    runSync unavailable_feed (world [] []) = Ok results w'
    /\ SchedulerStatus.getStatus w'
       = Ok (SchedulerStatus.mk false (Some 5000) results (Some 1805000)) w'.
Proof.
  exact (status_after_a_batch unavailable_feed (world [] []) eq_refl).
Defined.

Lemma syncChannel_refuses_a_foreign_mapping_witness :
  syncChannel (feed [vevent "u2" (Some "Dana") 30 40]) "bob" "map-1"
    (world [alice_stay] [])
  = Throw (JsError "Channel mapping not found") (world [alice_stay] []).
Proof.
  refine (syncChannel_refuses_a_foreign_mapping
            (feed [vevent "u2" (Some "Dana") 30 40]) "bob" "map-1"
            (world [alice_stay] []) eq_refl _).
  intros m p _ _ Hp _. simpl in Hp. destruct Hp as [<-|[]]. discriminate.
Defined.

Lemma manual_sync_route_answers_witness :
  let w := world [alice_stay] [] in
  CalendarRoutes.post_sync unavailable_feed "bob" "map-1" w
  = Ok (Some (CalendarRoutes.Failure 400 "SYNC_ERROR"
                "Channel mapping not found")) w
  /\ exists r w1 rows',
       syncCalendar unavailable_feed airbnb_input "unit-1" w = Ok r w1
       /\ update_mapping "map-1"
            (set_lastSync 5000 (or_null (CalendarSyncResult.error r)))
            (World.channelMappings w) = Some rows'
       /\ CalendarRoutes.post_sync unavailable_feed "alice" "map-1" w
          = Ok (Some (CalendarRoutes.Success 200 r))
               (World.set_channelMappings rows' w1).
Proof.
  split.
  - exact (proj1 (manual_sync_route_answers unavailable_feed "bob" "map-1"
                    (world [alice_stay] []) eq_refl) eq_refl).
  - exact (proj2 (manual_sync_route_answers unavailable_feed "alice" "map-1"
                    (world [alice_stay] []) eq_refl)
                 (mkJoined airbnb beach_house [unit1]) unit1 []
                 eq_refl eq_refl eq_refl).
Defined.

Lemma conflicts_are_ordered_by_checkIn_witness :
  let a := event "unit-1" "A" 1 3 in
  let b := event "unit-1" "B" 2 4 in
  let c := Calendar.mkConflict a b in
  CalendarEvent.checkIn a <= CalendarEvent.checkIn b
  /\ ConflictInfo.overlapStart c = 2
  /\ ConflictInfo.overlapEnd c = 3.
Proof.
  refine (conflicts_are_ordered_by_checkIn
            [event "unit-1" "B" 2 4; event "unit-1" "A" 1 3]
            (Calendar.mkConflict (event "unit-1" "A" 1 3)
               (event "unit-1" "B" 2 4)) _).
  left. reflexivity.
Defined.

Lemma overlap_is_a_nonempty_part_of_both_witness :
  let a := event "unit-1" "A" 1 3 in
  let b := event "unit-1" "B" 2 4 in
  let c := Calendar.mkConflict a b in
  ConflictInfo.overlapStart c < ConflictInfo.overlapEnd c
  /\ 1 <= ConflictInfo.overlapStart c
  /\ 2 <= ConflictInfo.overlapStart c
  /\ ConflictInfo.overlapEnd c <= 3
  /\ ConflictInfo.overlapEnd c <= 4.
Proof.
  refine (overlap_is_a_nonempty_part_of_both
            [event "unit-1" "B" 2 4; event "unit-1" "A" 1 3]
            (Calendar.mkConflict (event "unit-1" "A" 1 3)
               (event "unit-1" "B" 2 4)) _ _).
  - intros e [<-|[<-|[]]]; reflexivity.
  - left. reflexivity.
Defined.

Lemma getEvents_shows_only_the_users_active_calendar_witness :
  let w := world [alice_stay] [maintenance_block] in
  exists events w' e,
    getEvents "alice" 0 100 None w = Ok events w'
    /\ In e events
    /\ unit_of_a_property_of w "alice" (CalendarEvent.unitId e)
    /\ in_window 0 100 (CalendarEvent.checkIn e) (CalendarEvent.checkOut e)
       = true.
Proof.
  eexists _, _, _. split; [vm_compute; reflexivity|]. split; [left; reflexivity|].
  pose proof (getEvents_shows_only_the_users_active_calendar
                "alice" 0 100 None (world [alice_stay] [maintenance_block])
                _ _ _ eq_refl (or_introl eq_refl)) as H.
  split; [exact (proj1 H)|exact (proj1 (proj2 H))].
Defined.

Lemma window_test_is_closed_intersection_witness :
  in_window 20 30 10 20 = true.
Proof.
  refine (window_test_is_closed_intersection 20 30 10 20 _ _); lia.
Defined.

Lemma getEvents_marks_the_conflicting_events_witness :
  let w := world [alice_stay; dana_stay] [] in
  exists events w' e,
    getEvents "alice" 0 100 None w = Ok events w'
    /\ In e events
    /\ CalendarEvent.id e = "0"
    /\ (CalendarEvent.hasConflict e = true
        <-> exists c,
              In c (Calendar.detectConflicts events)
              /\ (CalendarEvent.id (ConflictInfo.eventA c) = CalendarEvent.id e
                  \/ CalendarEvent.id (ConflictInfo.eventB c)
                     = CalendarEvent.id e)).
Proof.
  eexists _, _, _. split; [vm_compute; reflexivity|]. split; [left; reflexivity|].
  split; [reflexivity|].
  exact (getEvents_marks_the_conflicting_events
           "alice" 0 100 None (world [alice_stay; dana_stay] [])
           _ _ _ eq_refl (or_introl eq_refl)).
Defined.

Lemma getConflicts_pairs_marked_events_witness :
  let w := world [erin_stay; finn_stay] [] in
  exists conflicts w' c,
    getConflicts (feed []) "alice" None w = Ok conflicts w'
    /\ In c conflicts
    /\ exists events,
         getEvents "alice" 5000 (5000 + 31536000000) None w = Ok events w'
         /\ In (ConflictInfo.eventA c) events
         /\ In (ConflictInfo.eventB c) events
         /\ CalendarEvent.unitId (ConflictInfo.eventA c)
            = CalendarEvent.unitId (ConflictInfo.eventB c)
         /\ Calendar.overlaps (ConflictInfo.eventA c) (ConflictInfo.eventB c)
            = true
         /\ CalendarEvent.hasConflict (ConflictInfo.eventA c) = true
         /\ CalendarEvent.hasConflict (ConflictInfo.eventB c) = true.
Proof.
  eexists _, _, _. split; [vm_compute; reflexivity|]. split; [left; reflexivity|].
  exact (getConflicts_pairs_marked_events (feed []) "alice" None
           (world [erin_stay; finn_stay] []) _ _ _ eq_refl
           (or_introl eq_refl)).
Defined.


Lemma deleteBlock_removes_only_an_own_block_witness :
  let w := world [alice_stay] [maintenance_block] in
  deleteBlock "bob" 0 w = Throw (JsError "Block not found") w
  /\ deleteBlock "alice" 0 w = Ok tt (World.set_availabilityBlocks [] w).
Proof.
  split.
  - refine (proj1 (deleteBlock_removes_only_an_own_block "bob" 0
                     (world [alice_stay] [maintenance_block]) eq_refl) _).
    intros b _ _ (p & u & Hp & Huser & _). simpl in Hp.
    destruct Hp as [<-|[]]. discriminate.
  - refine (proj2 (deleteBlock_removes_only_an_own_block "alice" 0
                     (world [alice_stay] [maintenance_block]) eq_refl)
                  maintenance_block _ _ _ _).
    + left. reflexivity.
    + reflexivity.
    + exists beach_house, unit1.
      split; [left; reflexivity|]. split; [reflexivity|].
      split; [left; reflexivity|]. split; reflexivity.
    + repeat constructor. intros [].
Defined.

Lemma createBlock_then_deleteBlock_witness :
  let w := world [alice_stay] [] in
  let block := AvailabilityBlock.mk 1 "unit-1" blocked 40 50 None in
  createBlock "bob" block_request w = Throw (JsError "Unit not found") w
  /\ exists w1 w2,
       createBlock "alice" block_request w = Ok block w1
       /\ World.availabilityBlocks w1 = [block]
       /\ World.reservations w1 = [alice_stay]
       /\ deleteBlock "alice" 1 w1 = Ok tt w2
       /\ World.availabilityBlocks w2 = []
       /\ World.reservations w2 = [alice_stay].
Proof.
  split.
  - refine (proj1 (createBlock_then_deleteBlock "bob" block_request
                     (world [alice_stay] []) eq_refl) _).
    intros (p & u & Hp & Huser & _). simpl in Hp.
    destruct Hp as [<-|[]]. discriminate.
  - refine (proj2 (createBlock_then_deleteBlock "alice" block_request
                     (world [alice_stay] []) eq_refl) _ (Forall_nil _)).
    exists beach_house, unit1.
    split; [left; reflexivity|]. split; [reflexivity|].
    split; [left; reflexivity|]. split; reflexivity.
Defined.

Lemma accepted_reservation_is_in_no_conflict_witness :
  exists r w',
    createReservation (feed []) "alice" later_request (world [alice_stay] [])
    = Ok r w'
    /\ Calendar.pairs_emitted (reservation_event (r, unit1))
         (reservation_event (alice_stay, unit1))
         (Calendar.detectConflicts
            [reservation_event (alice_stay, unit1);
             reservation_event (r, unit1)])
       = 0%nat.
Proof.
  eexists _, _. split; [vm_compute; reflexivity|].
  refine (accepted_reservation_is_in_no_conflict (feed []) "alice"
            later_request (world [alice_stay] []) _ _ alice_stay unit1 unit1
            _ eq_refl _ _).
  - left. reflexivity.
  - left. reflexivity.
Defined.

Lemma second_run_writes_nothing_witness :
  let env := feed [vevent "u1" (Some "Alice") 10 20;
                   vevent "u2" (Some "Dana") 30 40] in
  let w1 := after (syncCalendar env airbnb_input "unit-1" (world [] [])) in
  exists r w2,
    syncCalendar env airbnb_input "unit-1" w1 = Ok r w2
    /\ World.reservations w2 = World.reservations w1
    /\ CalendarSyncResult.eventsCreated r = 0%nat
    /\ CalendarSyncResult.eventsUpdated r = 0%nat.
Proof.
  refine (second_run_writes_nothing
            (feed [vevent "u1" (Some "Alice") 10 20;
                   vevent "u2" (Some "Dana") 30 40])
            airbnb_input "unit-1" (world [] []) eq_refl _ _ eq_refl).
  - split; constructor.
  - vm_compute. repeat constructor; simpl; intuition discriminate.
Defined.
End FurtherSamples.
